(** * apply_agentkit.py: a shallow embedding and its verified properties

    The development follows the script top-down:
    - Python text ([str]) as lists of Unicode code points, with the
      built-ins the script relies on ([str.strip], [str.splitlines],
      [sorted], the UTF-8 codec);
    - the regular expression [PLACEHOLDER] run by a small backtracking
      matcher, and [render_text] on top of [re.sub];
    - the manifest as a YAML value and [build_copy_plan];
    - a tree-shaped file system with a log of printed lines, and the
      executors [copy_file], [copy_tree], [merge_gitignore], [apply_plan]
      in a state-and-exception monad. *)

From Stdlib Require Import String Ascii.
From stdpp Require Import gmap list sorting.

Local Open Scope N_scope.

(** ** Text *)

(** A Python [str] is a sequence of code points. *)
Definition char := N.
Definition str := list char.

(** Literals of the script, written as Rocq strings (ASCII only). *)
Definition ustr (s : string) : str :=
  map N_of_ascii (list_ascii_of_string s).

(** [str.isspace] on one code point, which is also the class [\s] of [re]
    on [str] patterns. *)
Definition is_space (c : char) : bool :=
  ((9 <=? c) && (c <=? 13)) || ((28 <=? c) && (c <=? 32))
  || (c =? 133) || (c =? 160) || (c =? 5760)
  || ((8192 <=? c) && (c <=? 8202))
  || (c =? 8232) || (c =? 8233) || (c =? 8239) || (c =? 8287) || (c =? 12288).

(** The class [[A-Z0-9_]]. *)
Definition is_name_char (c : char) : bool :=
  ((65 <=? c) && (c <=? 90)) || ((48 <=? c) && (c <=? 57)) || (c =? 95).

Definition lbrace : char := 123.
Definition rbrace : char := 125.

Fixpoint take_while (p : char → bool) (s : str) : str :=
  match s with
  | c :: s' => if p c then c :: take_while p s' else []
  | [] => []
  end.

Fixpoint drop_while (p : char → bool) (s : str) : str :=
  match s with
  | c :: s' => if p c then drop_while p s' else s
  | [] => []
  end.

(** [str.strip()] without argument. *)
Definition strip (s : str) : str :=
  rev (drop_while is_space (rev (drop_while is_space s))).

(** Truth value of a [str]: empty is false. *)
Definition str_truthy (s : str) : bool :=
  match s with [] => false | _ :: _ => true end.

(** ** Regular expressions

    The fragment of [re] that [PLACEHOLDER] uses: a sequence of items, each
    a literal character, a greedy star over a character class, or the
    capture group around a greedy plus over a character class. *)
Inductive re_item :=
  | RLit (c : char)
  | RStar (p : char → bool)
  | RGroupPlus (p : char → bool).

(** A successful match: the text captured by group 1 and the text left
    after the match. *)
Definition re_result : Type := str * str.

(** Greedy repetition with backtracking: take one more character of the class
    when possible, and fall back to the continuation when the longer attempt
    fails. *)
Fixpoint re_star (p : char → bool) (k : str → option re_result) (s : str)
  : option re_result :=
  match s with
  | c :: s' =>
      if p c then
        match re_star p k s' with
        | Some r => Some r
        | None => k s
        end
      else k s
  | [] => k []
  end.

(** Same, remembering the characters taken so far (for the capture). *)
Fixpoint re_star_cap (p : char → bool) (acc : str)
    (k : str → str → option re_result) (s : str) : option re_result :=
  match s with
  | c :: s' =>
      if p c then
        match re_star_cap p (acc ++ [c]) k s' with
        | Some r => Some r
        | None => k acc s
        end
      else k acc s
  | [] => k acc []
  end.

(** [re.match] of a pattern at the start of [s]; [g] is group 1 so far. *)
Fixpoint re_match_from (r : list re_item) (g : str) (s : str)
  : option re_result :=
  match r with
  | [] => Some (g, s)
  | RLit c :: r' =>
      match s with
      | c' :: s' => if c' =? c then re_match_from r' g s' else None
      | [] => None
      end
  | RStar p :: r' => re_star p (re_match_from r' g) s
  | RGroupPlus p :: r' =>
      match s with
      | c :: s' =>
          if p c then re_star_cap p [c] (fun g' => re_match_from r' g') s'
          else None
      | [] => None
      end
  end.

Definition re_match (r : list re_item) (s : str) : option re_result :=
  re_match_from r [] s.

(** [PLACEHOLDER = re.compile(r"\{\{\s*([A-Z0-9_]+)\s*\}\}")] *)
Definition PLACEHOLDER : list re_item :=
  [RLit lbrace; RLit lbrace; RStar is_space; RGroupPlus is_name_char;
   RStar is_space; RLit rbrace; RLit rbrace].

(** [pattern.sub(repl, s)] for a pattern that never matches the empty
    string: scan left to right; at a position where the pattern matches,
    emit [repl group0 group1] and resume after the match; elsewhere copy the
    character.  [skip] counts the characters of the current match still to
    be passed over. *)
Fixpoint re_sub_from (r : list re_item) (repl : str → str → str)
    (skip : nat) (s : str) : str :=
  match s with
  | [] => []
  | c :: s' =>
      match skip with
      | S k => re_sub_from r repl k s'
      | O =>
          match re_match r s with
          | Some (g1, rest) =>
              let n := (length s - length rest)%nat in
              repl (take n s) g1 ++ re_sub_from r repl (n - 1) s'
          | None => c :: re_sub_from r repl 0 s'
          end
      end
  end.

Definition re_sub (r : list re_item) (repl : str → str → str) (s : str) : str :=
  re_sub_from r repl 0 s.

(** ** render_text *)

(** The inner [repl]: [variables.get(m.group(1), m.group(0))]. *)
Definition repl (variables : gmap str str) (group0 group1 : str) : str :=
  default group0 (variables !! group1).

Definition render_text (content : str) (variables : gmap str str) : str :=
  re_sub PLACEHOLDER (repl variables) content.

(** ** Lines *)

(** The line boundaries of [str.splitlines]: LF, CR, VT, FF, FS, GS, RS,
    NEL, LS and PS. *)
Definition is_linebreak (c : char) : bool :=
  ((10 <=? c) && (c <=? 13)) || ((28 <=? c) && (c <=? 30))
  || (c =? 133) || (c =? 8232) || (c =? 8233).

(** [str.splitlines()]: boundaries are dropped, CR LF counts once, and a
    final boundary does not open a further line. *)
Fixpoint splitlines (s : str) : list str :=
  match s with
  | [] => []
  | c :: s' =>
      if is_linebreak c then
        [] :: match s' with
              | c2 :: s'' =>
                  if (c =? 13) && (c2 =? 10) then splitlines s''
                  else splitlines s'
              | [] => []
              end
      else
        match splitlines s' with
        | [] => [[c]]
        | l :: ls => (c :: l) :: ls
        end
  end.

(** ["\n".join(lines)] *)
Fixpoint join_lines (lines : list str) : str :=
  match lines with
  | [] => []
  | [l] => l
  | l :: ls => l ++ 10 :: join_lines ls
  end.

(** Reading a file in text mode with [newline=None]: CR LF and a lone CR both
    arrive as LF. *)
Fixpoint universal_newlines (s : str) : str :=
  match s with
  | [] => []
  | c :: s' =>
      if c =? 13 then
        10 :: match s' with
              | c2 :: s'' =>
                  if c2 =? 10 then universal_newlines s''
                  else universal_newlines s'
              | [] => []
              end
      else c :: universal_newlines s'
  end.

(** ** The UTF-8 codec (strict error handling)

    Bytes are numbers below 256.  Encoding refuses surrogates and code points
    above U+10FFFF; decoding refuses stray or missing continuation bytes,
    overlong forms, surrogates and values above U+10FFFF. *)
Definition is_surrogate (c : N) : bool := (55296 <=? c) && (c <=? 57343).

Definition utf8_encode_char (c : char) : option (list N) :=
  if c <? 128 then Some [c]
  else if c <? 2048 then Some [192 + c / 64; 128 + c mod 64]
  else if c <? 65536 then
    if is_surrogate c then None
    else Some [224 + c / 4096; 128 + (c / 64) mod 64; 128 + c mod 64]
  else if c <? 1114112 then
    Some [240 + c / 262144; 128 + (c / 4096) mod 64;
          128 + (c / 64) mod 64; 128 + c mod 64]
  else None.

Fixpoint utf8_encode (s : str) : option (list N) :=
  match s with
  | [] => Some []
  | c :: s' =>
      match utf8_encode_char c, utf8_encode s' with
      | Some bs, Some bs' => Some (bs ++ bs')
      | _, _ => None
      end
  end.

Definition is_cont (b : N) : bool := (128 <=? b) && (b <? 192).

Fixpoint utf8_decode (bs : list N) : option str :=
  match bs with
  | [] => Some []
  | b0 :: r0 =>
      if b0 <? 128 then cons b0 <$> utf8_decode r0
      else if b0 <? 192 then None
      else if b0 <? 224 then
        match r0 with
        | b1 :: r1 =>
            let c := (b0 - 192) * 64 + (b1 - 128) in
            if is_cont b1 && (128 <=? c) then cons c <$> utf8_decode r1
            else None
        | _ => None
        end
      else if b0 <? 240 then
        match r0 with
        | b1 :: b2 :: r2 =>
            let c := (b0 - 224) * 4096 + (b1 - 128) * 64 + (b2 - 128) in
            if is_cont b1 && is_cont b2 && (2048 <=? c) && negb (is_surrogate c)
            then cons c <$> utf8_decode r2
            else None
        | _ => None
        end
      else if b0 <? 248 then
        match r0 with
        | b1 :: b2 :: b3 :: r3 =>
            let c := (b0 - 240) * 262144 + (b1 - 128) * 4096
                     + (b2 - 128) * 64 + (b3 - 128) in
            if is_cont b1 && is_cont b2 && is_cont b3
               && (65536 <=? c) && (c <? 1114112)
            then cons c <$> utf8_decode r3
            else None
        | _ => None
        end
      else None
  end.

(** ** Ordering of text, and [sorted] *)

(** [a <= b] on [str]: lexicographic on code points. *)
Fixpoint str_leb (a b : str) : bool :=
  match a, b with
  | [], _ => true
  | _ :: _, [] => false
  | x :: a', y :: b' =>
      if x <? y then true else if x =? y then str_leb a' b' else false
  end.

Definition str_le (a b : str) : Prop := str_leb a b = true.

Global Instance str_le_dec a b : Decision (str_le a b).
Proof. unfold str_le. apply _. Defined.

(** [sorted(l)] on a list of [str]. *)
Definition sorted (l : list str) : list str := merge_sort str_le l.

(** ** The manifest *)

Set Warnings "-register-all".

(** What [yaml.safe_load] returns, for documents made of null, booleans,
    integers, strings, sequences and mappings keyed by strings. *)
Inductive yaml :=
  | YNull
  | YBool (b : bool)
  | YInt (z : Z)
  | YStr (s : str)
  | YList (l : list yaml)
  | YMap (m : gmap str yaml).

(** [bool(v)] *)
Definition py_bool (v : yaml) : bool :=
  match v with
  | YNull => false
  | YBool b => b
  | YInt z => negb (z =? 0)%Z
  | YStr s => str_truthy s
  | YList l => match l with [] => false | _ => true end
  | YMap m => negb (bool_decide (m = ∅))
  end.

(** ** Paths *)

(** A resolved absolute path: its components below the root. *)
Definition path := list str.

Definition slash : char := 47.
Definition dot : char := 46.
Definition comma : char := 44.

(** [s.split(sep)] *)
Fixpoint split_on (sep : char) (s : str) : list str :=
  match s with
  | [] => [[]]
  | c :: s' =>
      if c =? sep then [] :: split_on sep s'
      else
        match split_on sep s' with
        | [] => [[c]]
        | w :: ws => (c :: w) :: ws
        end
  end.

(** One step of path normalisation. *)
Definition path_step (acc : path) (c : str) : path :=
  if bool_decide (c = []) || bool_decide (c = [dot]) then acc
  else if bool_decide (c = [dot; dot]) then removelast acc
  else acc ++ [c].

(** A code point that a file name can carry: [os.fsencode] lets through the
    surrogates U+DC80 to U+DCFF (its escapes for undecodable bytes) and no
    other surrogate. *)
Definition fs_encodable (c : char) : bool :=
  negb (is_surrogate c) || ((56448 <=? c) && (c <=? 56575)).

(** [p.parent] *)
Definition path_parent (p : path) : path := removelast p.

(** [p.name] *)
Definition path_name (p : path) : str := List.last p [].

(** [s.rfind(".")], counted from the left; [None] stands for -1. *)
Fixpoint rfind_dot (s : str) : option nat :=
  match s with
  | [] => None
  | c :: s' =>
      match rfind_dot s' with
      | Some i => Some (S i)
      | None => if c =? dot then Some O else None
      end
  end.

(** [p.suffix] *)
Definition path_suffix (p : path) : str :=
  match rfind_dot (path_name p) with
  | Some i =>
      if bool_decide (0 < i < length (path_name p) - 1)%nat
      then drop i (path_name p)
      else []
  | None => []
  end.

(** ** Exceptions *)

Inductive value_error :=
  | RenderExtensionsMustBeList
  | AgentsMustBeMapping
  | UnknownAgents (unknown available : list str)
  | CommonCopyMustBeList
  | AgentCopyMustBeList (agent : str)
  | CopyItemMustBeMapping (obj : yaml)
  | CopyItemRequiresSrcDst (obj : yaml)
  | EmbeddedNullByte.

Inductive not_found :=
  | SourceDirNotFound (p : path)
  | MissingSnippet (p : path)
  | MissingDir (p : path)
  | MissingFile (p : path)
  | NoSuchFile (p : path).

Inductive exn :=
  | ValueError (m : value_error)
  | FileNotFoundError (m : not_found)
  | NotADirectoryError (p : path)
  | IsADirectoryError (p : path)
  | FileExistsError (p : path)
  | SameFileError (p : path)
  | UnicodeDecodeError
  | UnicodeEncodeError
  | AttributeError
  | KeyError (k : str).

(** A computation either returns, raises, or (for the one loop whose length
    the file system decides, the walk of [copy_tree]) is cut off. *)
Inductive result (A : Type) :=
  | Ok (a : A)
  | Raise (e : exn)
  | Timeout.
Arguments Ok {A} a.
Arguments Raise {A} e.
Arguments Timeout {A}.

Global Instance result_ret : MRet result := λ A a, Ok a.
Global Instance result_bind : MBind result := λ A B f x,
  match x with
  | Ok a => f a
  | Raise e => Raise e
  | Timeout => Timeout
  end.

Global Instance result_fmap : FMap result := λ A B f x,
  match x with
  | Ok a => Ok (f a)
  | Raise e => Raise e
  | Timeout => Timeout
  end.

(** ** Resolving a path

    [Path.resolve] asks the system about every component it walks over,
    [.] and [..] apart, and the call refuses a name that cannot be encoded
    ([UnicodeEncodeError]) or that holds U+0000 ([ValueError], "embedded
    null byte"); the first such component decides. *)
Definition component_error (c : str) : option exn :=
  if bool_decide (c = []) || bool_decide (c = [dot])
     || bool_decide (c = [dot; dot])
  then None
  else if negb (forallb fs_encodable c) then Some UnicodeEncodeError
  else if existsb (N.eqb 0) c then Some (ValueError EmbeddedNullByte)
  else None.

Fixpoint resolve_steps (acc : path) (cs : list str) : result path :=
  match cs with
  | [] => Ok acc
  | c :: cs' =>
      match component_error c with
      | Some e => Raise e
      | None => resolve_steps (path_step acc c) cs'
      end
  end.

(** [(root / s).resolve()] in a tree without symbolic links: an absolute [s]
    replaces [root]; empty and [.] components vanish; [..] climbs. *)
Definition resolve_under (root : path) (s : str) : result path :=
  resolve_steps
    (match s with c :: _ => if c =? slash then [] else root | [] => root end)
    (split_on slash s).

(** [for x in l: s = body(x, s)] *)
Fixpoint for_each {A S : Type} (l : list A) (body : A → S → result S) (s : S)
  : result S :=
  match l with
  | [] => Ok s
  | x :: l' => s' ← body x s; for_each l' body s'
  end.

(** [v.get(key, dflt)]: only mappings have [get]. *)
Definition py_get (v : yaml) (key : str) (dflt : yaml) : result yaml :=
  match v with
  | YMap m => Ok (default dflt (m !! key))
  | _ => Raise AttributeError
  end.

(** ** Copy items *)

Record CopyItem := mkCopyItem {
  src : path;
  dst : path;
  mode : str;
  optional : bool
}.

(** ** The file system and the console

    Regular files carry their bytes, permission bits and modification time;
    directories carry their entries.  There are no symbolic or hard links,
    and permission bits are stored but not enforced.  Names have no limit
    of length here: the operations are those of the system for paths it
    accepts ([valid_path] below), and where it would refuse a name as too
    long ([OSError]) they treat the name as any other. *)
Record stat := mkStat { st_mode : N; st_mtime : N }.

Inductive node :=
  | File (data : list N) (st : stat)
  | Dir (entries : gmap str node).

(** One printed line. *)
Inductive line :=
  | LSkip (p : path)
  | LRender (p : path)
  | LCopy (p : path)
  | LMergeNoChanges
  | LMerge (p : path) (added : nat)
  | LOptionalMissing (p : path).

(** The world a run acts on: the entries of the root directory, what was
    printed so far, the current time and the process umask. *)
Record world := mkWorld {
  root : gmap str node;
  stdout : list line;
  clock : N;
  umask : N
}.

Definition set_root (es : gmap str node) (w : world) : world :=
  {| root := es; stdout := stdout w; clock := clock w; umask := umask w |}.

(** State that survives an exception, as the files written before a failure
    do. *)
Definition M (A : Type) : Type := world → result A * world.

Global Instance M_ret : MRet M := λ A a w, (Ok a, w).
Global Instance M_bind : MBind M := λ A B f x w,
  match x w with
  | (Ok a, w') => f a w'
  | (Raise e, w') => (Raise e, w')
  | (Timeout, w') => (Timeout, w')
  end.

Definition raise {A} (e : exn) : M A := λ w, (Raise e, w).
Definition timeout {A} : M A := λ w, (Timeout, w).
Definition lift {A} (x : result A) : M A := λ w, (x, w).

(** [try: body except UnicodeDecodeError: handler] *)
Definition try_except_UnicodeDecodeError {A} (body handler : M A) : M A :=
  λ w,
    match body w with
    | (Raise UnicodeDecodeError, w') => handler w'
    | r => r
    end.

(** [for x in l: body(x)] *)
Fixpoint for_eachM {A : Type} (l : list A) (body : A → M unit) : M unit :=
  match l with
  | [] => mret tt
  | x :: l' => body x;; for_eachM l' body
  end.

(** The world after one more printed line. *)
Definition log (l : line) (w : world) : world :=
  {| root := root w; stdout := stdout w ++ [l];
     clock := clock w; umask := umask w |}.

(** [print(...)] *)
Definition print (l : line) : M unit := λ w, (Ok tt, log l w).

(** *** Looking up *)

Fixpoint fs_lookup (p : path) (n : node) : option node :=
  match p with
  | [] => Some n
  | c :: p' =>
      match n with
      | Dir es => es !! c ≫= fs_lookup p'
      | File _ _ => None
      end
  end.

Definition lookup_path (p : path) (w : world) : option node :=
  fs_lookup p (Dir (root w)).

(** [p.exists()], for a path whose names the file system accepts
    ([valid_path] below); asked about an absent name that is too long the
    call raises [OSError] instead of answering. *)
Definition path_exists (p : path) : M bool := λ w,
  (Ok (bool_decide (is_Some (lookup_path p w))), w).

(** [p.is_dir()], with the same proviso. *)
Definition is_dir (p : path) : M bool := λ w,
  (Ok (match lookup_path p w with Some (Dir _) => true | _ => false end), w).

(** Opening [full] for reading; [p] is what is left of it below [n]. *)
Fixpoint fs_read (full p : path) (n : node) : result (list N * stat) :=
  match p with
  | [] =>
      match n with
      | File d st => Ok (d, st)
      | Dir _ => Raise (IsADirectoryError full)
      end
  | c :: p' =>
      match n with
      | File _ _ => Raise (NotADirectoryError full)
      | Dir es =>
          match es !! c with
          | Some n' => fs_read full p' n'
          | None => Raise (FileNotFoundError (NoSuchFile full))
          end
      end
  end.

(** [open(p, "rb").read()] *)
Definition read_bytes (p : path) : M (list N) := λ w,
  (fst <$> fs_read p p (Dir (root w)), w).

(** [p.read_text(encoding="utf-8")] *)
Definition read_text (p : path) : M str :=
  bs ← read_bytes p;
  match utf8_decode bs with
  | Some s => mret (universal_newlines s)
  | None => raise UnicodeDecodeError
  end.

(** The names in a directory, sub-directories apart from the rest, as
    [os.walk] obtains them from [os.scandir]; [None] when the directory
    cannot be listed. *)
Definition scandir (p : path) : M (option (list str * list str)) := λ w,
  (Ok (match lookup_path p w with
       | Some (Dir es) =>
           let is_d (kv : str * node) :=
             match kv.2 with Dir _ => true | File _ _ => false end in
           Some ((filter (λ kv, is_d kv = true) (map_to_list es)).*1,
                 (filter (λ kv, is_d kv = false) (map_to_list es)).*1)
       | _ => None
       end), w).

(** *** Changing *)

(** [os.makedirs]-like creation of [p] and its missing ancestors, as
    [Path.mkdir(parents=True, exist_ok=True)] does; [full] is the path asked
    for and [p] what is left of it below the entries [es]. *)
Fixpoint mkdirs (full p : path) (es : gmap str node)
  : result (gmap str node) :=
  match p with
  | [] => Ok es
  | c :: p' =>
      match es !! c with
      | Some (File _ _) =>
          Raise (match p' with
                 | [] => FileExistsError full
                 | _ => NotADirectoryError full
                 end)
      | Some (Dir es') => es'' ← mkdirs full p' es'; Ok (<[c := Dir es'']> es)
      | None => es'' ← mkdirs full p' ∅; Ok (<[c := Dir es'']> es)
      end
  end.

(** Runs a change of the tree as a step of the world. *)
Definition update_root (f : gmap str node → result (gmap str node)) : M unit :=
  λ w,
    match f (root w) with
    | Ok es => (Ok tt, set_root es w)
    | Raise e => (Raise e, w)
    | Timeout => (Timeout, w)
    end.

Definition mkdir_parents (p : path) : M unit := update_root (mkdirs p p).

Definition ensure_parent (p : path) : M unit := mkdir_parents (path_parent p).

(** Replaces the node at [c :: p'] below [es] by what [f] makes of it; the
    directory that holds it has to exist. *)
Fixpoint alter_in (full : path) (c : str) (p' : path)
    (f : option node → result node) (es : gmap str node)
  : result (gmap str node) :=
  match p' with
  | [] => n' ← f (es !! c); Ok (<[c := n']> es)
  | c' :: p'' =>
      match es !! c with
      | None => Raise (FileNotFoundError (NoSuchFile full))
      | Some (File _ _) => Raise (NotADirectoryError full)
      | Some (Dir es') =>
          es'' ← alter_in full c' p'' f es'; Ok (<[c := Dir es'']> es)
      end
  end.

(** At the root itself [f] can only refuse: the root is a directory and
    directories carry nothing to change. *)
Definition fs_alter (p : path) (f : option node → result node)
    (es : gmap str node) : result (gmap str node) :=
  match p with
  | [] => _ ← f (Some (Dir es)); Ok es
  | c :: p' => alter_in p c p' f es
  end.

(** [open(p, "w")]: create, or truncate. *)
Definition open_trunc (p : path) : M unit := λ w,
  update_root (fs_alter p (λ o,
    match o with
    | None => Ok (File [] (mkStat (N.ldiff 438 (umask w)) (clock w)))
    | Some (File _ st) => Ok (File [] (mkStat (st_mode st) (clock w)))
    | Some (Dir _) => Raise (IsADirectoryError p)
    end)) w.

(** [open(p, "a")]: create, or leave as it is. *)
Definition open_append (p : path) : M unit := λ w,
  update_root (fs_alter p (λ o,
    match o with
    | None => Ok (File [] (mkStat (N.ldiff 438 (umask w)) (clock w)))
    | Some (File d st) => Ok (File d st)
    | Some (Dir _) => Raise (IsADirectoryError p)
    end)) w.

(** Writing to an open file: the bytes go to its end. *)
Definition write_bytes (p : path) (bs : list N) : M unit := λ w,
  update_root (fs_alter p (λ o,
    match o with
    | Some (File d st) => Ok (File (d ++ bs) (mkStat (st_mode st) (clock w)))
    | Some (Dir _) => Raise (IsADirectoryError p)
    | None => Raise (FileNotFoundError (NoSuchFile p))
    end)) w.

(** [f.write(s)] on a text file opened with [encoding="utf-8"]. *)
Definition write_str (p : path) (s : str) : M unit :=
  match utf8_encode s with
  | Some bs => write_bytes p bs
  | None => raise UnicodeEncodeError
  end.

(** [p.write_text(s, encoding="utf-8")] *)
Definition write_text (p : path) (s : str) : M unit :=
  open_trunc p;;
  write_str p s.

(** [shutil.copystat(src, dst)]: permission bits and times of [src] onto
    [dst]. *)
Definition copystat (src dst : path) : M unit := λ w,
  match lookup_path src w with
  | None => (Raise (FileNotFoundError (NoSuchFile src)), w)
  | Some (Dir _) =>
      update_root (fs_alter dst (λ o,
        match o with
        | Some n => Ok n
        | None => Raise (FileNotFoundError (NoSuchFile dst))
        end)) w
  | Some (File _ st) =>
      update_root (fs_alter dst (λ o,
        match o with
        | Some (File d _) => Ok (File d st)
        | Some (Dir es) => Ok (Dir es)
        | None => Raise (FileNotFoundError (NoSuchFile dst))
        end)) w
  end.

(** [shutil.copy2(src, dst)]: into [dst] when it is a directory; refuses to
    copy a file onto itself; then bytes, then [copystat]. *)
Definition copy2 (src dst : path) : M unit :=
  d ← is_dir dst;
  let dst := if d : bool then dst ++ [path_name src] else dst in
  e ← path_exists dst;
  if e && bool_decide (src = dst) then raise (SameFileError src)
  else
    bs ← read_bytes src;
    open_trunc dst;;
    write_bytes dst bs;;
    copystat src dst.

Section Agentkit.

(** Two built-ins are taken as they come: [repr] of a value that is not a
    [str], and [str.lower] with its Unicode case tables. *)
Variable py_repr : yaml → str.
Variable str_lower : str → str.

(** The loop of [norm_agents_arg] that drops repeated names: [seen] and
    [out] after one more part [p]. *)
Definition dedup_step (acc : gset str * list str) (p : str)
  : gset str * list str :=
  if bool_decide (p ∈ acc.1) then acc else ({[p]} ∪ acc.1, acc.2 ++ [p]).

Definition norm_agents_arg (raw : str) : list str :=
  let raw := strip raw in
  if negb (str_truthy raw) then []
  else if bool_decide (str_lower raw = ustr "all") then [ustr "all"]
  else
    let parts :=
      filter (λ p, str_truthy p = true) (strip <$> split_on comma raw) in
    (fold_left dedup_step parts (∅, [])).2.

(** [str(v)] *)
Definition py_str (v : yaml) : str :=
  match v with YStr s => s | _ => py_repr v end.

Definition parse_copy_item (kit_root dest_root : path) (obj : yaml)
  : result CopyItem :=
  match obj with
  | YMap o =>
      let src := default YNull (o !! ustr "src") in
      let dst := default YNull (o !! ustr "dst") in
      let mode := default (YStr (ustr "copy")) (o !! ustr "mode") in
      let optional := py_bool (default (YBool false) (o !! ustr "optional")) in
      match src, dst with
      | YStr src, YStr dst =>
          src ← resolve_under kit_root src;
          dst ← resolve_under dest_root dst;
          Ok {| src := src;
                 dst := dst;
                 mode := py_str mode;
                 optional := optional |}
      | _, _ => Raise (ValueError (CopyItemRequiresSrcDst obj))
      end
  | _ => Raise (ValueError (CopyItemMustBeMapping obj))
  end.

(** The body shared by the two loops: [items.append(parse_copy_item(...))]. *)
Definition append_item (kit_root dest_root : path) (it : yaml)
    (items : list CopyItem) : result (list CopyItem) :=
  ci ← parse_copy_item kit_root dest_root it;
  Ok (items ++ [ci]).

(** The body of the loop over the chosen agents. *)
Definition agent_step (kit_root dest_root : path)
    (agents_map : gmap str yaml) (agent : str) (items : list CopyItem)
  : result (list CopyItem) :=
  match agents_map !! agent with
  | Some agent_block =>
      copy_list ← py_get agent_block (ustr "copy") (YList []);
      match copy_list with
      | YList copy_list =>
          for_each copy_list (append_item kit_root dest_root) items
      | _ => Raise (ValueError (AgentCopyMustBeList agent))
      end
  | None => Raise (KeyError agent)
  end.

(** [agents_map.keys()] *)
Definition keys (m : gmap str yaml) : list str := (map_to_list m).*1.

Definition build_copy_plan (kit_root dest_root : path)
    (manifest : gmap str yaml) (agents_selected : list str)
  : result (list CopyItem * list str) :=
  match default (YList []) (manifest !! ustr "render_extensions") with
  | YList _ =>
      match default (YMap ∅) (manifest !! ustr "agents") with
      | YMap agents_map =>
          let available_agents := sorted (keys agents_map) in
          chosen ←
            (if bool_decide (agents_selected = [ustr "all"])
             then Ok available_agents
             else
               let unknown :=
                 filter (λ a, agents_map !! a = None) agents_selected in
               match unknown with
               | _ :: _ =>
                   Raise (ValueError (UnknownAgents unknown available_agents))
               | [] => Ok agents_selected
               end);
          let common := default (YMap ∅) (manifest !! ustr "common") in
          common_copy ← py_get common (ustr "copy") (YList []);
          match common_copy with
          | YList common_copy =>
              items ← for_each common_copy (append_item kit_root dest_root) [];
              items ←
                for_each chosen (agent_step kit_root dest_root agents_map)
                  items;
              Ok (items, available_agents)
          | _ => Raise (ValueError CommonCopyMustBeList)
          end
      | _ => Raise (ValueError AgentsMustBeMapping)
      end
  | _ => Raise (ValueError RenderExtensionsMustBeList)
  end.

(** ** Executing the plan *)

(** [path.suffix.lower() in set(e.lower() for e in render_exts)]; an entry
    that is not a [str] has no [lower]. *)
Definition is_renderable (p : path) (render_exts : list yaml) : result bool :=
  let sfx := str_lower (path_suffix p) in
  exts ← for_each render_exts
           (λ e (acc : gset str),
              match e with
              | YStr e => Ok ({[str_lower e]} ∪ acc)
              | _ => Raise AttributeError
              end) ∅;
  Ok (bool_decide (sfx ∈ exts)).

Definition copy_file (src dst : path) (force render : bool)
    (variables : gmap str str) : M unit :=
  ensure_parent dst;;
  e ← path_exists dst;
  if e && negb force then print (LSkip dst)
  else
    returned ←
      (if render then
         try_except_UnicodeDecodeError
           (txt ← read_text src;
            write_text dst (render_text txt variables);;
            copystat src dst;;
            print (LRender dst);;
            mret true)
           (mret false)
       else mret false);
    if returned : bool then mret tt
    else
      copy2 src dst;;
      print (LCopy dst).

(** The loop over [os.walk(src_dir)], top-down: a directory is listed when
    the walk reaches it, after the loop body has run for everything before
    it; [rel] is the directory reached, relative to [src_dir].  The walk can
    feed on the directories the body creates, so its length is bounded by
    [fuel]. *)
Fixpoint copy_tree_walk (fuel : nat) (src_dir dst_dir rel : path)
    (force : bool) (render_exts : list yaml) (variables : gmap str str)
  : M unit :=
  match fuel with
  | O => timeout
  | S fuel' =>
      listing ← scandir (src_dir ++ rel);
      match listing with
      | None => mret tt
      | Some (dirs, files) =>
          mkdir_parents (dst_dir ++ rel);;
          for_eachM (sorted files)
            (λ fn,
               let s := src_dir ++ rel ++ [fn] in
               let d := dst_dir ++ rel ++ [fn] in
               render ← lift (is_renderable s render_exts);
               copy_file s d force render variables);;
          for_eachM (sorted dirs)
            (λ dn,
               copy_tree_walk fuel' src_dir dst_dir (rel ++ [dn])
                 force render_exts variables)
      end
  end.

Definition copy_tree (fuel : nat) (src_dir dst_dir : path) (force : bool)
    (render_exts : list yaml) (variables : gmap str str) : M unit :=
  e ← path_exists src_dir;
  if negb e then raise (FileNotFoundError (SourceDirNotFound src_dir))
  else copy_tree_walk fuel src_dir dst_dir [] force render_exts variables.

(** [[line for line in snippet if line.strip() and line not in existing_set]] *)
Definition to_add (snippet existing : list str) : list str :=
  let existing_set : gset str := list_to_set existing in
  filter (λ line, str_truthy (strip line) = true ∧ line ∉ existing_set) snippet.

(** [existing and existing[-1] != ""] *)
Definition needs_newline (existing : list str) : bool :=
  match existing with
  | [] => false
  | _ :: _ => str_truthy (List.last existing [])
  end.

Definition merge_gitignore (snippet_src gitignore_dst : path) (force : bool)
  : M unit :=
  ensure_parent gitignore_dst;;
  txt ← read_text snippet_src;
  let snippet := splitlines txt in
  e ← path_exists gitignore_dst;
  existing ←
    (if e : bool then txt ← read_text gitignore_dst; mret (splitlines txt)
     else mret []);
  let to_add := to_add snippet existing in
  match to_add with
  | [] => print LMergeNoChanges
  | _ :: _ =>
      open_append gitignore_dst;;
      (if needs_newline existing then write_str gitignore_dst [10]
       else mret tt);;
      write_str gitignore_dst (join_lines to_add ++ [10]);;
      print (LMerge gitignore_dst (length to_add))
  end.

(** What to do when [item.src] is not there. *)
Definition missing (item : CopyItem) (what : path → not_found) : M unit :=
  if optional item then print (LOptionalMissing (src item))
  else raise (FileNotFoundError (what (src item))).

(** The body of the loop of [apply_plan]. *)
Definition apply_item (fuel : nat) (force : bool) (render_exts : list yaml)
    (variables : gmap str str) (item : CopyItem) : M unit :=
  if bool_decide (mode item = ustr "merge_gitignore") then
    e ← path_exists (src item);
    if negb e then missing item MissingSnippet
    else merge_gitignore (src item) (dst item) force
  else
    d ← is_dir (src item);
    if d : bool then
      e ← path_exists (src item);
      if negb e then missing item MissingDir
      else
        copy_tree fuel (src item) (dst item) force render_exts variables
    else
      e ← path_exists (src item);
      if negb e then missing item MissingFile
      else
        render ← lift (is_renderable (src item) render_exts);
        copy_file (src item) (dst item) force render variables.

Definition apply_plan (fuel : nat) (items : list CopyItem) (force : bool)
    (render_exts : list yaml) (variables : gmap str str) : M unit :=
  for_eachM items (apply_item fuel force render_exts variables).

End Agentkit.

(** ** Notions used in the statements *)

(** *** Placeholders *)

(** A placeholder as the specification describes it: two opening braces,
    optional whitespace, a name, optional whitespace, two closing braces. *)
Record hole := mkHole { ws_before : str; hole_name : str; ws_after : str }.

Definition hole_text (h : hole) : str :=
  [lbrace; lbrace] ++ ws_before h ++ hole_name h ++ ws_after h
  ++ [rbrace; rbrace].

Definition all_space (s : str) : Prop := Forall (λ c, is_space c = true) s.
Definition all_name (s : str) : Prop := Forall (λ c, is_name_char c = true) s.

Definition hole_ok (h : hole) : Prop :=
  all_space (ws_before h) ∧ hole_name h ≠ [] ∧ all_name (hole_name h)
  ∧ all_space (ws_after h).

(** No placeholder occurs anywhere in [t]. *)
Definition placeholder_free (t : str) : Prop :=
  ∀ u h v, hole_ok h → t ≠ u ++ hole_text h ++ v.

(** The same, decided by trying every position. *)
Fixpoint placeholder_freeb (t : str) : bool :=
  match t with
  | [] => true
  | _ :: t' =>
      match re_match PLACEHOLDER t with
      | Some _ => false
      | None => placeholder_freeb t'
      end
  end.

(** A text cut into placeholder-free stretches and the placeholders between
    them. *)
Definition flatten (t0 : str) (hs : list (hole * str)) : str :=
  t0 ++ flat_map (λ ht, hole_text ht.1 ++ ht.2) hs.

(** What a placeholder turns into. *)
Definition fill (variables : gmap str str) (h : hole) : str :=
  match variables !! hole_name h with
  | Some v => v
  | None => hole_text h
  end.

Definition rendered (variables : gmap str str) (t0 : str)
    (hs : list (hole * str)) : str :=
  t0 ++ flat_map (λ ht, fill variables ht.1 ++ ht.2) hs.

Definition cut_ok (t0 : str) (hs : list (hole * str)) : Prop :=
  placeholder_free t0
  ∧ Forall (λ ht, hole_ok ht.1 ∧ placeholder_free ht.2) hs.

(** The match of [PLACEHOLDER] at the start of [s], read off the pattern:
    greedy runs cannot be shortened to any effect, because what follows a
    run never starts with a character of the run's class. *)
Definition placeholder_at (s : str) : option re_result :=
  match s with
  | c1 :: c2 :: s1 =>
      if (c1 =? lbrace) && (c2 =? lbrace) then
        let s2 := drop_while is_space s1 in
        match take_while is_name_char s2 with
        | [] => None
        | _ :: _ =>
            match drop_while is_space (drop_while is_name_char s2) with
            | d1 :: d2 :: rest =>
                if (d1 =? rbrace) && (d2 =? rbrace)
                then Some (take_while is_name_char s2, rest)
                else None
            | _ => None
            end
        end
      else None
  | _ => None
  end.

(** *** Plans *)

(** The [copy] list of a block of the manifest ([common], or one agent), when
    the block is a mapping and its [copy], if any, a list. *)
Definition copy_entries (block : yaml) : option (list yaml) :=
  match block with
  | YMap b =>
      match b !! ustr "copy" with
      | None => Some []
      | Some (YList l) => Some l
      | Some _ => None
      end
  | _ => None
  end.

Definition common_entries (manifest : gmap str yaml) : option (list yaml) :=
  match manifest !! ustr "common" with
  | None => Some []
  | Some common => copy_entries common
  end.

Definition agents_of (manifest : gmap str yaml) : option (gmap str yaml) :=
  match manifest !! ustr "agents" with
  | None => Some ∅
  | Some (YMap agents) => Some agents
  | Some _ => None
  end.

Definition render_extensions_ok (manifest : gmap str yaml) : Prop :=
  match manifest !! ustr "render_extensions" with
  | None | Some (YList _) => True
  | Some _ => False
  end.

(** The selection is the sentinel exactly when it is the list [["all"]]. *)
Definition is_all (agents_selected : list str) : Prop :=
  agents_selected = [ustr "all"].

(** [es] is the [copy] list of agent [a]. *)
Definition agent_entries (agents : gmap str yaml) (a : str) (es : list yaml)
  : Prop :=
  ∃ block, agents !! a = Some block ∧ copy_entries block = Some es.

(** A text that [Path.resolve] accepts: without U+0000 and without a
    surrogate that a file name cannot carry. *)
Definition path_text_ok (s : str) : Prop :=
  Forall (λ c, c ≠ 0 ∧ fs_encodable c = true) s.

(** A manifest entry as the specification asks for it: a mapping with
    strings for [src] and [dst], both of them texts that can name a path. *)
Definition wf_entry (e : yaml) : Prop :=
  ∃ o s d, e = YMap o ∧ o !! ustr "src" = Some (YStr s)
           ∧ o !! ustr "dst" = Some (YStr d)
           ∧ path_text_ok s ∧ path_text_ok d.

Definition wf_block (block : yaml) : Prop :=
  ∃ es, copy_entries block = Some es ∧ Forall wf_entry es.

(** A manifest that follows the schema; every field may be left out. *)
Definition wf_manifest (manifest : gmap str yaml) : Prop :=
  render_extensions_ok manifest
  ∧ (∃ cs, common_entries manifest = Some cs ∧ Forall wf_entry cs)
  ∧ (∃ agents, agents_of manifest = Some agents
               ∧ map_Forall (λ _ block, wf_block block) agents).

(** [l] lists every agent of the manifest once, in ascending order. *)
Definition sorted_names (agents : gmap str yaml) (l : list str) : Prop :=
  Sorted str_le l ∧ NoDup l ∧ ∀ a, a ∈ l ↔ is_Some (agents !! a).

(** The agents a selection stands for: all of them in ascending order for the
    sentinel, the selection itself otherwise. *)
Definition chosen_for (agents : gmap str yaml) (agents_selected : list str)
    (chosen : list str) : Prop :=
  (is_all agents_selected ∧ sorted_names agents chosen)
  ∨ (¬ is_all agents_selected ∧ chosen = agents_selected).

(** The error of an unknown agent name, whatever it lists. *)
Definition unknown_agents_error (e : exn) : Prop :=
  ∃ unknown available, e = ValueError (UnknownAgents unknown available).

(** Inputs of the worked examples: a manifest with a common list and two
    agents, [trae] and [antigravity]. *)
Definition example_entry (s d : string) : yaml :=
  YMap {[ ustr "src" := YStr (ustr s); ustr "dst" := YStr (ustr d) ]}.

Definition example_agents : gmap str yaml :=
  {[ ustr "trae" :=
       YMap {[ ustr "copy" :=
                 YList [example_entry "trae/rules.md" ".trae/rules.md"] ]};
     ustr "antigravity" :=
       YMap {[ ustr "copy" :=
                 YList [example_entry "ag/a.md" ".ag/a.md";
                        YMap {[ ustr "src" := YStr (ustr "gi");
                                ustr "dst" := YStr (ustr ".gitignore");
                                ustr "mode" := YStr (ustr "merge_gitignore");
                                ustr "optional" := YBool true ]}] ]} ]}.

Definition example_manifest : gmap str yaml :=
  {[ ustr "render_extensions" := YList [YStr (ustr ".md")];
     ustr "common" :=
       YMap {[ ustr "copy" := YList [example_entry "AGENT.md" "AGENT.md"] ]};
     ustr "agents" := YMap example_agents ]}.

Definition example_repr (v : yaml) : str := ustr "?".

(** *** Text and lines *)

(** A code point that UTF-8 can carry. *)
Definition valid_char (c : char) : Prop :=
  c < 1114112 ∧ is_surrogate c = false.

Definition break_free (l : str) : Prop :=
  Forall (λ c, is_linebreak c = false) l.

(** A line with something other than whitespace on it. *)
Definition non_blank (l : str) : Prop := Exists (λ c, is_space c = false) l.

(** The last character of [x], if any, ends a line. *)
Definition ends_with_break (x : str) : Prop :=
  ∃ x' c, x = x' ++ [c] ∧ is_linebreak c = true.

(** How often [l] occurs in [ls]. *)
Definition occurrences (l : str) (ls : list str) : nat :=
  length (filter (λ x, x = l) ls).

(** *** Files *)

(** At [p] there is a regular file with bytes [d] and metadata [st]. *)
Definition file_at (p : path) (w : world) (d : list N) (st : stat) : Prop :=
  lookup_path p w = Some (File d st).

(** [w'] has the same regular files as [w], with the same bytes and
    metadata, except possibly at [p]. *)
Definition same_files_except (p : path) (w w' : world) : Prop :=
  ∀ q d st, q ≠ p → file_at q w' d st ↔ file_at q w d st.

(** From [w] to [w'] nothing changed but the node at [p], now [n]. *)
Definition touched (p : path) (n : node) (w w' : world) : Prop :=
  lookup_path p w' = Some n
  ∧ same_files_except p w w'
  ∧ stdout w' = stdout w ∧ clock w' = clock w ∧ umask w' = umask w.

(** A change of one node that turns files and free names into files and
    leaves directories as they are. *)
Definition keeps_dirs (f : option node → result node) : Prop :=
  ∀ o n, f o = Ok n →
    match o with
    | Some (Dir e) => n = Dir e
    | _ => ∃ d st, n = File d st
    end.

(** The bytes found at [p]: those of the regular file there, or none when
    nothing is there. *)
Definition existing_bytes (p : path) (w : world) (bs : list N) : Prop :=
  (lookup_path p w = None ∧ bs = []) ∨ ∃ st, file_at p w bs st.

(** There are lines, and the last of them is not empty. *)
Definition last_line_nonempty (lines : list str) : bool :=
  match last lines with
  | Some (_ :: _) => true
  | _ => false
  end.

(** The text a merge appends for the lines [missing] after [existing] lines:
    a newline when the last existing line is not empty, then every line
    followed by a newline. *)
Definition appended_text (existing missing : list str) : str :=
  (if last_line_nonempty existing then [10] else [])
  ++ flat_map (λ l, l ++ [10]) missing.

(** The snippet lines a merge has to add: those that are not blank and not
    among the existing lines, in the order of the snippet. *)
Definition missing_lines (snippet existing : list str) : list str :=
  filter (λ l, non_blank l ∧ l ∉ existing) snippet.

(** *** Texts that end a match

    A text [F] stops a run of [p] when it is empty or starts outside [p]. *)
Definition stops (p : char → bool) (F : str) : Prop :=
  match F with [] => True | c :: _ => p c = false end.

(** [F] is empty or opens a placeholder. *)
Definition opens_hole (F : str) : Prop :=
  F = [] ∨ ∃ F', F = lbrace :: lbrace :: F'.

(** *** A small tree to run the file operations on

    A kit with a snippet ([x], [y], an empty line, [x] again) and a file
    that is not valid UTF-8 under a renderable name; a repository with a
    [.gitignore] holding [y] without a final newline, and one more file. *)
Definition example_world : world :=
  mkWorld
    {[ ustr "kit" :=
         Dir {[ ustr "gi" := File [120; 10; 121; 10; 10; 120; 10] (mkStat 420 5);
                ustr "logo.md" := File [255; 254] (mkStat 493 7) ]};
       ustr "repo" :=
         Dir {[ ustr ".gitignore" := File [121] (mkStat 420 3);
                ustr "keep.md" := File [107] (mkStat 384 2) ]} ]}
    [] 9 18.

Definition example_snippet : path := [ustr "kit"; ustr "gi"].
Definition example_gitignore : path := [ustr "repo"; ustr ".gitignore"].

(** The tree after the snippet has been merged once. *)
Definition example_merged : world :=
  (merge_gitignore example_snippet example_gitignore false example_world).2.

(** *** Notions for the remaining functions *)

(** A name as [norm_agents_arg] hands it on: not empty, no whitespace at
    either end, no comma. *)
Definition clean_name (x : str) : Prop :=
  x ≠ [] ∧ strip x = x ∧ comma ∉ x.

(** The entries of [render_extensions] when all of them are strings. *)
Fixpoint ext_strings (render_exts : list yaml) : option (list str) :=
  match render_exts with
  | [] => Some []
  | YStr e :: l => (e ::.) <$> ext_strings l
  | _ :: _ => None
  end.

(** The characters a text can be encoded with are those of its variables'
    values too. *)
Definition valid_values (variables : gmap str str) : Prop :=
  ∀ k v, variables !! k = Some v → Forall valid_char v.

(** An error other than the two that speak of a source directory. *)
Definition not_about_dir (e : exn) : Prop :=
  match e with
  | FileNotFoundError (MissingDir _)
  | FileNotFoundError (SourceDirNotFound _) => False
  | _ => True
  end.

(** Whatever [m] raises satisfies [Q]. *)
Definition raises_only {A} (Q : exn → Prop) (m : M A) : Prop :=
  ∀ w e w', m w = (Raise e, w') → Q e.

(** What can be seen at a path: nothing, a directory, or a regular file
    with its bytes and metadata. *)
Definition node_view (o : option node) : option (option (list N * stat)) :=
  match o with
  | None => None
  | Some (Dir _) => Some None
  | Some (File d st) => Some (Some (d, st))
  end.

(** [w'] shows at every path in [keep] what [w] shows there. *)
Definition same_view (keep : path → Prop) (w w' : world) : Prop :=
  ∀ q, keep q → node_view (lookup_path q w') = node_view (lookup_path q w).

(** The path is free, or holds a regular file that may be overwritten. *)
Definition writable (force : bool) (p : path) (w : world) : Prop :=
  lookup_path p w = None ∨ (force = true ∧ ∃ d st, file_at p w d st).

(** The bytes [copy_file] leaves at the destination for a source with
    bytes [sb]: the rendered text when rendering is asked for and [sb] is
    valid UTF-8, [sb] itself otherwise. *)
Definition copy_output (variables : gmap str str) (render : bool)
    (sb : list N) : option (list N) :=
  match render, utf8_decode sb with
  | true, Some txt =>
      utf8_encode (render_text (universal_newlines txt) variables)
  | _, _ => Some sb
  end.

(** The line [copy_file] prints for it. *)
Definition copy_line (render : bool) (sb : list N) (dst : path) : line :=
  match render, utf8_decode sb with
  | true, Some _ => LRender dst
  | _, _ => LCopy dst
  end.

(** Whether a path is to be rendered, for extensions that are all strings. *)
Definition renders (str_lower : str → str) (exts : list str) (p : path)
  : bool :=
  bool_decide (str_lower (path_suffix p) ∈ str_lower <$> exts).

(** *** Names the file system accepts *)

(** The bytes of a code point in a file name (an escaped surrogate counts
    for more than the one byte it stands for). *)
Definition char_bytes (c : char) : nat :=
  if c <? 128 then 1 else if c <? 2048 then 2 else if c <? 65536 then 3 else 4.

Definition name_bytes (s : str) : nat := sum_list (char_bytes <$> s).

(** No component longer than [NAME_MAX] (255 bytes), and the whole path,
    a separator before each component, shorter than [PATH_MAX] (4096). *)
Definition valid_path (p : path) : Prop :=
  Forall (λ c, (name_bytes c ≤ 255)%nat) p
  ∧ (sum_list ((λ c, S (name_bytes c)) <$> p) < 4096)%nat.

(** The text ends with a line boundary other than a lone carriage return
    (which a line feed written next would only complete). *)
Definition ends_in_newline (x : str) : bool :=
  match last x with
  | Some c => is_linebreak c && negb (c =? 13)
  | None => false
  end.

(** * Properties *)

(** ** Character classes *)

Ltac class_facts :=
  unfold is_space, is_name_char, is_linebreak, lbrace, rbrace in *;
  repeat match goal with
  | H : _ || _ = true |- _ => apply orb_prop in H; destruct H
  | H : _ && _ = true |- _ => apply andb_prop in H; destruct H
  | H : (_ <=? _) = true |- _ => apply N.leb_le in H
  | H : (_ =? _) = true |- _ => apply N.eqb_eq in H
  | H : (_ <? _) = true |- _ => apply N.ltb_lt in H
  end.

Lemma space_not_name c : is_space c = true → is_name_char c = false.
Proof.
  intros H. destruct (is_name_char c) eqn:E; [|done].
  exfalso. class_facts; lia.
Qed.

Lemma name_not_space c : is_name_char c = true → is_space c = false.
Proof.
  intros H. destruct (is_space c) eqn:E; [|done].
  apply space_not_name in E. congruence.
Qed.

Lemma space_not_brace c : is_space c = true → (c =? lbrace) = false ∧ (c =? rbrace) = false.
Proof.
  intros H. split; apply N.eqb_neq; intros ->; vm_compute in H; done.
Qed.

Lemma name_not_brace c :
  is_name_char c = true → (c =? lbrace) = false ∧ (c =? rbrace) = false.
Proof.
  intros H. split; apply N.eqb_neq; intros ->; vm_compute in H; done.
Qed.

(** ** Runs of a class *)

Lemma take_drop_while p s : take_while p s ++ drop_while p s = s.
Proof. induction s as [|c s IH]; simpl; [done|]. destruct (p c); simpl; congruence. Qed.

Lemma take_while_Forall p s : Forall (λ c, p c = true) (take_while p s).
Proof.
  induction s as [|c s IH]; simpl; [constructor|].
  destruct (p c) eqn:E; constructor; done.
Qed.

Lemma drop_while_head p s c s' : drop_while p s = c :: s' → p c = false.
Proof.
  induction s as [|d s IH]; simpl; [done|].
  destruct (p d) eqn:E; [done|]. intros [= <- <-]. done.
Qed.

Lemma drop_while_run p a F :
  Forall (λ c, p c = true) a → stops p F → drop_while p (a ++ F) = F.
Proof.
  induction 1 as [|c a Hc _ IH]; simpl; intros HF.
  - destruct F as [|d F]; simpl in *; [done|]. by rewrite HF.
  - rewrite Hc. auto.
Qed.

Lemma take_while_run p a F :
  Forall (λ c, p c = true) a → stops p F → take_while p (a ++ F) = a.
Proof.
  induction 1 as [|c a Hc _ IH]; simpl; intros HF.
  - destruct F as [|d F]; simpl in *; [done|]. by rewrite HF.
  - rewrite Hc. f_equal. auto.
Qed.

Lemma drop_while_app_stop p a F :
  stops p F → drop_while p (a ++ F) = drop_while p a ++ F.
Proof.
  intros HF. induction a as [|c a IH]; simpl.
  - destruct F as [|d F]; simpl in *; [done|]. by rewrite HF.
  - destruct (p c); done.
Qed.

Lemma take_while_app_stop p a F :
  stops p F → take_while p (a ++ F) = take_while p a.
Proof.
  intros HF. induction a as [|c a IH]; simpl.
  - destruct F as [|d F]; simpl in *; [done|]. by rewrite HF.
  - destruct (p c); [f_equal|]; done.
Qed.

(** ** The backtracking matcher on [PLACEHOLDER] *)

(** Backtracking into a greedy run is useless when the continuation refuses
    every text that starts inside the class. *)
Lemma re_star_greedy p k s :
  (∀ c s', p c = true → k (c :: s') = None) →
  re_star p k s = k (drop_while p s).
Proof.
  intros Hk. induction s as [|c s IH]; simpl; [done|].
  destruct (p c) eqn:E; [|done].
  rewrite IH. destruct (k (drop_while p s)) eqn:Ek; [done|].
  by rewrite Hk.
Qed.

Lemma re_star_cap_greedy p acc k s :
  (∀ a c s', p c = true → k a (c :: s') = None) →
  re_star_cap p acc k s = k (acc ++ take_while p s) (drop_while p s).
Proof.
  intros Hk. revert acc. induction s as [|c s IH]; intros acc; simpl.
  - by rewrite app_nil_r.
  - destruct (p c) eqn:E; [|by rewrite app_nil_r].
    rewrite IH, <- app_assoc. simpl.
    destruct (k _ (drop_while p s)) eqn:Ek; [done|].
    by rewrite Hk.
Qed.

Lemma re_match_placeholder s : re_match PLACEHOLDER s = placeholder_at s.
Proof.
  unfold re_match, PLACEHOLDER, placeholder_at.
  destruct s as [|c1 [|c2 s1]]; simpl; [done|by destruct (c1 =? lbrace)|].
  destruct (c1 =? lbrace); simpl; [|done].
  destruct (c2 =? lbrace); simpl; [|done].
  rewrite re_star_greedy.
  2:{ intros c s' Hc. by rewrite (space_not_name c Hc). }
  destruct (drop_while is_space s1) as [|c s2] eqn:Es2; simpl; [done|].
  destruct (is_name_char c) eqn:Ec; [|done].
  rewrite re_star_cap_greedy.
  2:{ intros a d s' Hd. simpl. rewrite (name_not_space d Hd).
      by destruct (name_not_brace d Hd) as [_ ->]. }
  simpl. rewrite re_star_greedy.
  2:{ intros d s' Hd. by destruct (space_not_brace d Hd) as [_ ->]. }
  destruct (drop_while is_space (drop_while is_name_char s2))
    as [|d1 [|d2 rest]]; simpl; [done|by destruct (d1 =? rbrace)|].
  destruct (d1 =? rbrace); simpl; [|done].
  by destruct (d2 =? rbrace).
Qed.

Lemma hole_text_app h rest :
  hole_text h ++ rest
  = lbrace :: lbrace :: ws_before h ++ hole_name h ++ ws_after h
    ++ rbrace :: rbrace :: rest.
Proof. unfold hole_text. by rewrite <- !app_assoc. Qed.

(** The matcher accepts exactly the placeholders of the specification. *)
Lemma placeholder_at_hole h rest :
  hole_ok h → placeholder_at (hole_text h ++ rest) = Some (hole_name h, rest).
Proof.
  intros (Hw1 & Hne & Hn & Hw2). unfold hole_text, placeholder_at. simpl.
  destruct (hole_name h) as [|n0 nm] eqn:En; [done|].
  assert (Hn0 : is_name_char n0 = true) by (by inversion Hn).
  rewrite <- !app_assoc.
  rewrite (drop_while_run is_space (ws_before h)); [|done|].
  2:{ simpl. by apply name_not_space. }
  rewrite (take_while_run is_name_char (n0 :: nm)); [|done|].
  2:{ destruct (ws_after h) as [|w ?]; simpl; [done|].
      apply space_not_name. by inversion Hw2. }
  rewrite (drop_while_run is_name_char (n0 :: nm)); [|done|].
  2:{ destruct (ws_after h) as [|w ?]; simpl; [done|].
      apply space_not_name. by inversion Hw2. }
  rewrite (drop_while_run is_space (ws_after h)); [|done|done].
  done.
Qed.

Lemma placeholder_at_inv s g rest :
  placeholder_at s = Some (g, rest) →
  ∃ h, hole_ok h ∧ hole_name h = g ∧ s = hole_text h ++ rest.
Proof.
  unfold placeholder_at. intros H.
  destruct s as [|c1 [|c2 s1]]; [done|done|].
  destruct (c1 =? lbrace) eqn:E1; cbn [andb] in H; [|done].
  destruct (c2 =? lbrace) eqn:E2; [|done].
  apply N.eqb_eq in E1, E2. subst c1 c2.
  set (s2 := drop_while is_space s1) in *.
  destruct (take_while is_name_char s2) as [|n0 nm] eqn:En; [done|].
  destruct (drop_while is_space (drop_while is_name_char s2))
    as [|d1 [|d2 r]] eqn:Ed; [done|done|].
  destruct (d1 =? rbrace) eqn:E3; cbn [andb] in H; [|done].
  destruct (d2 =? rbrace) eqn:E4; [|done].
  apply N.eqb_eq in E3, E4. subst d1 d2. injection H as <- <-.
  exists (mkHole (take_while is_space s1) (n0 :: nm)
            (take_while is_space (drop_while is_name_char s2))).
  split; [|split; [reflexivity|]].
  - unfold hole_ok, all_space, all_name. simpl.
    split; [apply take_while_Forall|]. split; [done|].
    split; [|apply take_while_Forall].
    rewrite <- En. apply take_while_Forall.
  - assert (E3 : drop_while is_name_char s2
                 = take_while is_space (drop_while is_name_char s2)
                   ++ rbrace :: rbrace :: r)
      by (rewrite <- Ed; symmetry; apply take_drop_while).
    assert (E2 : s2 = (n0 :: nm) ++ drop_while is_name_char s2)
      by (rewrite <- En; symmetry; apply take_drop_while).
    assert (E1 : s1 = take_while is_space s1 ++ s2)
      by (symmetry; apply take_drop_while).
    rewrite hole_text_app. simpl. do 2 f_equal.
    rewrite E3 in E2. clearbody s2. rewrite E2 in E1. exact E1.
Qed.

Lemma opens_hole_stops p F :
  p lbrace = false → opens_hole F → stops p F.
Proof. intros Hp [->|[F' ->]]; simpl; done. Qed.

(** A match that starts before a text [F] which is empty or opens a
    placeholder ends before [F]. *)
Lemma placeholder_at_before u F :
  u ≠ [] → opens_hole F →
  placeholder_at (u ++ F) = (λ gr, (gr.1, gr.2 ++ F)) <$> placeholder_at u.
Proof.
  intros Hu HF.
  assert (Hsp : stops is_space F) by (by apply opens_hole_stops).
  assert (Hnm : stops is_name_char F) by (by apply opens_hole_stops).
  destruct u as [|c1 [|c2 u]]; [done| |].
  - (* one character before [F] *)
    simpl. destruct HF as [->|[F' ->]]; [done|].
    destruct (c1 =? lbrace); simpl; done.
  - simpl. destruct ((c1 =? lbrace) && (c2 =? lbrace)); [|done].
    rewrite (drop_while_app_stop is_space u F Hsp).
    rewrite (take_while_app_stop is_name_char _ F Hnm).
    destruct (take_while is_name_char (drop_while is_space u)); [done|].
    rewrite (drop_while_app_stop is_name_char _ F Hnm).
    rewrite (drop_while_app_stop is_space _ F Hsp).
    destruct (drop_while is_space (drop_while is_name_char
                (drop_while is_space u))) as [|d1 [|d2 rest]]; simpl.
    + destruct HF as [->|[F' ->]]; done.
    + destruct HF as [->|[F' ->]]; simpl; [done|].
      by rewrite andb_false_r.
    + by destruct ((d1 =? rbrace) && (d2 =? rbrace)).
Qed.

(** ** [re.sub] on [PLACEHOLDER] *)

Lemma re_sub_from_skip r f a b :
  re_sub_from r f (length a) (a ++ b) = re_sub_from r f 0 b.
Proof. induction a as [|c a IH]; simpl; [by destruct b|done]. Qed.

(** At a placeholder: substitute, and go on after it. *)
Lemma re_sub_hole variables h rest :
  hole_ok h →
  re_sub_from PLACEHOLDER (repl variables) 0 (hole_text h ++ rest)
  = fill variables h ++ re_sub_from PLACEHOLDER (repl variables) 0 rest.
Proof.
  intros Hh.
  pose proof (placeholder_at_hole h rest Hh) as Hm.
  rewrite <- re_match_placeholder in Hm.
  assert (Hlen : (length (hole_text h ++ rest) - length rest
                  = length (hole_text h))%nat)
    by (rewrite length_app; lia).
  destruct (hole_text h) as [|c t] eqn:Et; [done|].
  change ((c :: t) ++ rest) with (c :: (t ++ rest)) in *.
  cbn [re_sub_from]. rewrite Hm, Hlen.
  change (c :: t ++ rest) with ((c :: t) ++ rest).
  rewrite take_app_length. cbn [length]. rewrite Nat.sub_1_r. cbn [pred].
  rewrite re_sub_from_skip. f_equal.
  unfold repl, fill. rewrite Et. by destruct (variables !! hole_name h).
Qed.

Lemma placeholder_free_tail c t : placeholder_free (c :: t) → placeholder_free t.
Proof. intros H u h v Hh ->. by apply (H (c :: u) h v). Qed.

Lemma placeholder_free_no_match t :
  placeholder_free t → placeholder_at t = None.
Proof.
  intros H. destruct (placeholder_at t) as [[g rest]|] eqn:E; [|done].
  apply placeholder_at_inv in E as (h & Hh & _ & ->).
  by destruct (H [] h rest Hh).
Qed.

(** Over a stretch without placeholders: copy. *)
Lemma re_sub_plain variables t F :
  placeholder_free t → opens_hole F →
  re_sub_from PLACEHOLDER (repl variables) 0 (t ++ F)
  = t ++ re_sub_from PLACEHOLDER (repl variables) 0 F.
Proof.
  intros Ht HF. induction t as [|c t IH]; [done|].
  change ((c :: t) ++ F) with (c :: (t ++ F)).
  cbn [re_sub_from]. rewrite re_match_placeholder.
  change (c :: t ++ F) with ((c :: t) ++ F).
  rewrite placeholder_at_before by done.
  rewrite (placeholder_free_no_match _ Ht). simpl. f_equal.
  apply IH. by eapply placeholder_free_tail.
Qed.

Lemma hole_text_opens h rest : opens_hole (hole_text h ++ rest).
Proof. right. rewrite hole_text_app. eauto. Qed.

Lemma render_text_flatten variables t0 hs :
  cut_ok t0 hs →
  render_text (flatten t0 hs) variables = rendered variables t0 hs.
Proof.
  unfold render_text, re_sub, flatten, rendered, cut_ok.
  intros [Ht0 Hhs]. revert t0 Ht0.
  induction Hhs as [|[h t1] hs [Hh Ht1] _ IH]; intros t0 Ht0;
    cbn [flat_map fst snd] in *.
  - rewrite re_sub_plain by (done || by left). done.
  - rewrite re_sub_plain; [|done|].
    2:{ rewrite <- app_assoc. apply hole_text_opens. }
    f_equal. rewrite <- app_assoc, re_sub_hole by done.
    rewrite <- app_assoc. f_equal. by apply IH.
Qed.

(** ** Every text can be cut *)

Lemma hole_text_nonempty h u v : u ++ hole_text h ++ v ≠ [].
Proof. rewrite hole_text_app. by destruct u. Qed.

Lemma placeholder_free_cons c t :
  placeholder_at (c :: t) = None → placeholder_free t →
  placeholder_free (c :: t).
Proof.
  intros Hm Ht u h v Hh E. destruct u as [|d u].
  - rewrite app_nil_l in E. rewrite E, placeholder_at_hole in Hm; done.
  - injection E as -> E. by apply (Ht u h v).
Qed.

Lemma placeholder_freeb_sound t :
  placeholder_freeb t = true → placeholder_free t.
Proof.
  induction t as [|c t IH]; simpl.
  - intros _ u h v _ E. by apply (hole_text_nonempty h u v).
  - rewrite re_match_placeholder.
    destruct (placeholder_at (c :: t)) eqn:E; [done|].
    intros H. apply placeholder_free_cons; auto.
Qed.

(** Either no placeholder occurs, or there is a first one. *)
Lemma first_placeholder s :
  placeholder_free s
  ∨ ∃ t h rest, s = t ++ hole_text h ++ rest ∧ hole_ok h ∧ placeholder_free t.
Proof.
  induction s as [|c s IH].
  - left. intros u h v _ E. by apply (hole_text_nonempty h u v).
  - destruct (placeholder_at (c :: s)) as [[g rest]|] eqn:E.
    + apply placeholder_at_inv in E as (h & Hh & _ & E).
      right. exists [], h, rest. split_and!; [done|done|].
      intros u h' v _ E'. by apply (hole_text_nonempty h' u v).
    + destruct IH as [IH|(t & h & rest & -> & Hh & Ht)].
      * left. by apply placeholder_free_cons.
      * right. exists (c :: t), h, rest. split_and!; [done|done|].
        apply placeholder_free_cons; [|done].
        change (c :: t ++ hole_text h ++ rest)
          with ((c :: t) ++ hole_text h ++ rest) in E.
        rewrite placeholder_at_before in E; [|done|apply hole_text_opens].
        by destruct (placeholder_at (c :: t)).
Qed.

Lemma cut_exists_bounded n content :
  (length content ≤ n)%nat → ∃ t0 hs, content = flatten t0 hs ∧ cut_ok t0 hs.
Proof.
  revert content. induction n as [|n IH]; intros content Hlen.
  - destruct content; [|simpl in Hlen; lia].
    exists [], []. split; [done|]. split; [|constructor].
    intros u h v _ E. by apply (hole_text_nonempty h u v).
  - destruct (first_placeholder content)
      as [Hfree|(t & h & rest & -> & Hh & Ht)].
    + exists content, []. unfold flatten. simpl. rewrite app_nil_r.
      split; [done|]. split; [done|constructor].
    + destruct (IH rest) as (t1 & hs & -> & Ht1 & Hhs).
      { rewrite !length_app in Hlen.
        assert (length (hole_text h) ≠ 0)%nat
          by (unfold hole_text; simpl; lia).
        lia. }
      exists t, ((h, t1) :: hs). split.
      * unfold flatten. cbn [flat_map fst snd]. by rewrite <- app_assoc.
      * split; [done|]. constructor; [|done]. done.
Qed.

(** Every text is a sequence of placeholder-free stretches and
    placeholders. *)
Lemma cut_exists content :
  ∃ t0 hs, content = flatten t0 hs ∧ cut_ok t0 hs.
Proof. by apply (cut_exists_bounded (length content)). Qed.

(** [render_text] changes no length on a text without placeholders, and in
    particular never fails: it is a total function. *)
Lemma render_text_placeholder_free variables t :
  placeholder_free t → render_text t variables = t.
Proof.
  intros Ht. pose proof (render_text_flatten variables t []) as H.
  unfold flatten, rendered in H. simpl in H. rewrite !app_nil_r in H.
  apply H. split; [done|constructor].
Qed.

(** C4. For every text cut into placeholder-free stretches and well-formed
    placeholders [{{ NAME }}] (and every text can be cut so, [cut_exists]),
    and for every variable mapping, [render_text] returns the stretches
    unchanged, with every placeholder whose name is mapped replaced by the
    mapped value and every other placeholder kept character for
    character.  [render_text] is a total function: it cannot raise. *)
Theorem render_text_placeholders variables t0 hs :
  cut_ok t0 hs →
  render_text (flatten t0 hs) variables = rendered variables t0 hs.
Proof. apply render_text_flatten. Qed.

Lemma render_text_placeholders_witness :
  cut_ok (ustr "a")
    [(mkHole [] (ustr "X") [], ustr "b");
     (mkHole [32] (ustr "Y") [32; 9], ustr "{c}}")]
  ∧ render_text
      (flatten (ustr "a")
         [(mkHole [] (ustr "X") [], ustr "b");
          (mkHole [32] (ustr "Y") [32; 9], ustr "{c}}")])
      {[ ustr "X" := ustr "v" ]}
    = rendered {[ ustr "X" := ustr "v" ]} (ustr "a")
        [(mkHole [] (ustr "X") [], ustr "b");
         (mkHole [32] (ustr "Y") [32; 9], ustr "{c}}")].
Proof.
  assert (Hcut : cut_ok (ustr "a")
    [(mkHole [] (ustr "X") [], ustr "b");
     (mkHole [32] (ustr "Y") [32; 9], ustr "{c}}")]).
  { split; [by apply placeholder_freeb_sound|].
    constructor; [|constructor; [|constructor]];
      (split; [|by apply placeholder_freeb_sound]);
      unfold hole_ok, all_space, all_name; simpl;
      split_and!; (done || by repeat constructor). }
  split; [exact Hcut|].
  exact (render_text_placeholders _ _ _ Hcut).
Defined.

Example render_text_example_mapped :
  render_text (ustr "a{{X}}b") {[ ustr "X" := ustr "v" ]} = ustr "avb".
Proof. vm_compute. reflexivity. Qed.

Example render_text_example_unmapped :
  render_text (ustr "{{Y}}") {[ ustr "X" := ustr "v" ]} = ustr "{{Y}}".
Proof. vm_compute. reflexivity. Qed.

Example render_text_example_cut :
  render_text (ustr "a{{X}}b{{ Y }}{c}}") {[ ustr "X" := ustr "v" ]}
  = ustr "avb{{ Y }}{c}}".
Proof. vm_compute. reflexivity. Qed.

(** ** The UTF-8 codec *)

Ltac bool_hyps :=
  repeat match goal with
  | H : _ && _ = true |- _ => apply andb_prop in H; destruct H
  | H : negb _ = true |- _ => apply negb_true_iff in H
  | H : (_ <=? _) = true |- _ => apply N.leb_le in H
  | H : (_ <=? _) = false |- _ => apply N.leb_gt in H
  | H : (_ <? _) = true |- _ => apply N.ltb_lt in H
  | H : (_ <? _) = false |- _ => apply N.ltb_ge in H
  | H : (_ =? _) = true |- _ => apply N.eqb_eq in H
  | H : (_ =? _) = false |- _ => apply N.eqb_neq in H
  end.

Lemma is_surrogate_false c :
  is_surrogate c = false ↔ c < 55296 ∨ 57343 < c.
Proof.
  unfold is_surrogate. rewrite andb_false_iff, N.leb_gt, N.leb_gt. lia.
Qed.

Lemma is_cont_true b : is_cont b = true ↔ 128 ≤ b < 192.
Proof. unfold is_cont. rewrite andb_true_iff, N.leb_le, N.ltb_lt. lia. Qed.

Lemma utf8_encode_char_valid c :
  valid_char c ↔ is_Some (utf8_encode_char c).
Proof.
  unfold valid_char, utf8_encode_char. split.
  - intros [Hlt ->].
    destruct (c <? 128), (c <? 2048), (c <? 65536); eauto.
    by rewrite (proj2 (N.ltb_lt _ _) Hlt).
  - pose proof (proj2 (is_surrogate_false c)) as Hs.
    destruct (N.ltb_spec c 128); [intros _; split; [lia|apply Hs; lia]|].
    destruct (N.ltb_spec c 2048); [intros _; split; [lia|apply Hs; lia]|].
    destruct (N.ltb_spec c 65536).
    + destruct (is_surrogate c); [by intros [? ?]|]. intros _. split; [lia|done].
    + destruct (N.ltb_spec c 1114112); [|by intros [? ?]].
      intros _. split; [lia|apply Hs; lia].
Qed.

Lemma utf8_encode_valid s :
  Forall valid_char s ↔ is_Some (utf8_encode s).
Proof.
  induction s as [|c s IH]; simpl.
  - split; [eauto|constructor].
  - rewrite Forall_cons, IH, utf8_encode_char_valid.
    destruct (utf8_encode_char c), (utf8_encode s); split;
      try (intros [[? ?] [? ?]]; done); try (intros [? ?]; done); eauto.
Qed.

Lemma utf8_encode_app s t :
  utf8_encode (s ++ t)
  = match utf8_encode s, utf8_encode t with
    | Some a, Some b => Some (a ++ b)
    | _, _ => None
    end.
Proof.
  induction s as [|c s IH]; simpl.
  - by destruct (utf8_encode t).
  - rewrite IH. destruct (utf8_encode_char c), (utf8_encode s), (utf8_encode t);
      try done. by rewrite app_assoc.
Qed.

(** The digits of a code point in base 64. *)
Ltac gen_divmod :=
  repeat match goal with
  | |- context [?a / ?b] =>
      let q := fresh "q" in set (q := a / b) in *; clearbody q
  | |- context [?a mod ?b] =>
      let r := fresh "r" in set (r := a mod b) in *; clearbody r
  | H : context [?a / ?b] |- _ =>
      let q := fresh "q" in set (q := a / b) in *; clearbody q
  | H : context [?a mod ?b] |- _ =>
      let r := fresh "r" in set (r := a mod b) in *; clearbody r
  end.

Lemma digits2 c :
  c < 2048 →
  ∃ x y, c / 64 = x ∧ c mod 64 = y ∧ c = x * 64 + y ∧ x < 32 ∧ y < 64.
Proof.
  intros. exists (c / 64), (c mod 64).
  pose proof (N.div_mod c 64 ltac:(lia)).
  pose proof (N.mod_upper_bound c 64 ltac:(lia)).
  split_and!; [done|done|..]; gen_divmod; lia.
Qed.

Lemma digits3 c :
  c < 65536 →
  ∃ x y z, c / 4096 = x ∧ (c / 64) mod 64 = y ∧ c mod 64 = z
           ∧ c = x * 4096 + y * 64 + z ∧ x < 16 ∧ y < 64 ∧ z < 64.
Proof.
  intros. exists (c / 4096), ((c / 64) mod 64), (c mod 64).
  pose proof (N.div_mod c 64 ltac:(lia)).
  pose proof (N.mod_upper_bound c 64 ltac:(lia)).
  pose proof (N.div_mod (c / 64) 64 ltac:(lia)).
  pose proof (N.mod_upper_bound (c / 64) 64 ltac:(lia)).
  assert (c / 4096 = c / 64 / 64) as -> by (by rewrite N.Div0.div_div).
  split_and!; [done|done|done|..]; gen_divmod; lia.
Qed.

Lemma digits4 c :
  c < 1114112 →
  ∃ x y z u, c / 262144 = x ∧ (c / 4096) mod 64 = y ∧ (c / 64) mod 64 = z
             ∧ c mod 64 = u
             ∧ c = x * 262144 + y * 4096 + z * 64 + u
             ∧ x < 5 ∧ y < 64 ∧ z < 64 ∧ u < 64.
Proof.
  intros.
  exists (c / 262144), ((c / 4096) mod 64), ((c / 64) mod 64), (c mod 64).
  pose proof (N.div_mod c 64 ltac:(lia)).
  pose proof (N.mod_upper_bound c 64 ltac:(lia)).
  pose proof (N.div_mod (c / 64) 64 ltac:(lia)).
  pose proof (N.mod_upper_bound (c / 64) 64 ltac:(lia)).
  pose proof (N.div_mod (c / 64 / 64) 64 ltac:(lia)).
  pose proof (N.mod_upper_bound (c / 64 / 64) 64 ltac:(lia)).
  assert (c / 4096 = c / 64 / 64) as -> by (by rewrite N.Div0.div_div).
  assert (c / 262144 = c / 64 / 64 / 64) as ->
    by (by rewrite !N.Div0.div_div).
  split_and!; [done|done|done|done|..]; gen_divmod; lia.
Qed.

(** Settles the comparisons of the decoder once the bytes are known up to
    linear arithmetic. *)
Ltac decide_cmp :=
  repeat match goal with
  | |- context [?a <? ?b] => destruct (N.ltb_spec a b); try lia
  | |- context [?a <=? ?b] => destruct (N.leb_spec a b); try lia
  end.

(** Decoding what one character encodes to, in front of any bytes. *)
Lemma utf8_decode_encode_char c bs rest :
  utf8_encode_char c = Some bs →
  utf8_decode (bs ++ rest) = cons c <$> utf8_decode rest.
Proof.
  unfold utf8_encode_char.
  destruct (N.ltb_spec c 128) as [H1|H1].
  { intros [= <-]. simpl. by rewrite (proj2 (N.ltb_lt _ _) H1). }
  destruct (N.ltb_spec c 2048) as [H2|H2].
  { destruct (digits2 c H2) as (x & y & -> & -> & Hc & Hx & Hy).
    intros [= <-]. cbn [app utf8_decode]. unfold is_cont.
    replace ((192 + x - 192) * 64 + (128 + y - 128)) with c by lia.
    decide_cmp. done. }
  destruct (N.ltb_spec c 65536) as [H3|H3].
  { destruct (is_surrogate c) eqn:Hs; [done|].
    destruct (digits3 c H3) as (x & y & z & -> & -> & -> & Hc & Hx & Hy & Hz).
    intros [= <-]. cbn [app utf8_decode]. unfold is_cont.
    replace ((224 + x - 224) * 4096 + (128 + y - 128) * 64 + (128 + z - 128))
      with c by lia.
    rewrite Hs. decide_cmp. done. }
  destruct (N.ltb_spec c 1114112) as [H4|H4]; [|done].
  destruct (digits4 c H4)
    as (x & y & z & u & -> & -> & -> & -> & Hc & Hx & Hy & Hz & Hu).
  intros [= <-]. cbn [app utf8_decode]. unfold is_cont.
  replace ((240 + x - 240) * 262144 + (128 + y - 128) * 4096
           + (128 + z - 128) * 64 + (128 + u - 128)) with c by lia.
  decide_cmp. done.
Qed.

Lemma utf8_decode_encode s bs rest :
  utf8_encode s = Some bs →
  utf8_decode (bs ++ rest) = (s ++.) <$> utf8_decode rest.
Proof.
  revert bs. induction s as [|c s IH]; intros bs; simpl.
  - intros [= <-]. simpl. by destruct (utf8_decode rest).
  - destruct (utf8_encode_char c) as [b1|] eqn:E1; [|done].
    destruct (utf8_encode s) as [b2|] eqn:E2; [|done].
    intros [= <-]. rewrite <- app_assoc.
    rewrite (utf8_decode_encode_char _ _ _ E1), (IH _ eq_refl).
    by destruct (utf8_decode rest).
Qed.

Lemma undigits2 x y :
  y < 64 → (x * 64 + y) / 64 = x ∧ (x * 64 + y) mod 64 = y.
Proof.
  intros. split.
  - symmetry. apply (N.div_unique _ _ _ y); lia.
  - symmetry. apply (N.mod_unique _ _ x); lia.
Qed.

Lemma undigits3 x y z :
  y < 64 → z < 64 →
  (x * 4096 + y * 64 + z) / 4096 = x
  ∧ ((x * 4096 + y * 64 + z) / 64) mod 64 = y
  ∧ (x * 4096 + y * 64 + z) mod 64 = z.
Proof.
  intros. split_and!.
  - symmetry. apply (N.div_unique _ _ _ (y * 64 + z)); lia.
  - replace (x * 4096 + y * 64 + z) with ((x * 64 + y) * 64 + z) by lia.
    destruct (undigits2 (x * 64 + y) z) as [-> _]; [done|].
    by destruct (undigits2 x y) as [_ ->].
  - replace (x * 4096 + y * 64 + z) with ((x * 64 + y) * 64 + z) by lia.
    by destruct (undigits2 (x * 64 + y) z) as [_ ->].
Qed.

Lemma undigits4 x y z u :
  y < 64 → z < 64 → u < 64 →
  (x * 262144 + y * 4096 + z * 64 + u) / 262144 = x
  ∧ ((x * 262144 + y * 4096 + z * 64 + u) / 4096) mod 64 = y
  ∧ ((x * 262144 + y * 4096 + z * 64 + u) / 64) mod 64 = z
  ∧ (x * 262144 + y * 4096 + z * 64 + u) mod 64 = u.
Proof.
  intros. split_and!.
  - symmetry. apply (N.div_unique _ _ _ (y * 4096 + z * 64 + u)); lia.
  - replace (x * 262144 + y * 4096 + z * 64 + u)
      with ((x * 64 + y) * 4096 + z * 64 + u) by lia.
    destruct (undigits3 (x * 64 + y) z u) as (-> & _ & _); [done..|].
    by destruct (undigits2 x y) as [_ ->].
  - replace (x * 262144 + y * 4096 + z * 64 + u)
      with ((x * 64 + y) * 4096 + z * 64 + u) by lia.
    by destruct (undigits3 (x * 64 + y) z u) as (_ & -> & _).
  - replace (x * 262144 + y * 4096 + z * 64 + u)
      with ((x * 64 + y) * 4096 + z * 64 + u) by lia.
    by destruct (undigits3 (x * 64 + y) z u) as (_ & _ & ->).
Qed.

(** What decodes, encodes back to the same bytes: decoding is one-to-one. *)
Lemma utf8_encode_decode_bounded n bs s :
  (length bs ≤ n)%nat → utf8_decode bs = Some s → utf8_encode s = Some bs.
Proof.
  revert bs s. induction n as [|n IH]; intros bs s Hlen.
  { destruct bs; [|simpl in Hlen; lia]. by intros [= <-]. }
  destruct bs as [|b0 r0]; [by intros [= <-]|].
  cbn [utf8_decode]. simpl in Hlen.
  destruct (N.ltb_spec b0 128) as [H1|H1].
  { destruct (utf8_decode r0) as [s'|] eqn:E; [|done]. intros [= <-].
    simpl. unfold utf8_encode_char. rewrite (proj2 (N.ltb_lt _ _) H1).
    rewrite (IH r0 s') by (done || lia). done. }
  destruct (N.ltb_spec b0 192) as [H2|H2]; [done|].
  destruct (N.ltb_spec b0 224) as [H3|H3].
  { destruct r0 as [|b1 r1]; [done|].
    destruct (is_cont b1 && _) eqn:Hc; [|done].
    apply andb_prop in Hc as [Hb1 Hc]. apply is_cont_true in Hb1.
    apply N.leb_le in Hc.
    destruct (utf8_decode r1) as [s'|] eqn:E; [|done]. intros [= <-].
    simpl in Hlen. cbn [utf8_encode]. rewrite (IH r1 s') by (done || lia).
    unfold utf8_encode_char.
    destruct (undigits2 (b0 - 192) (b1 - 128)) as [Hq Hr]; [lia|].
    rewrite Hq, Hr. decide_cmp.
    simpl. do 3 f_equal; lia. }
  destruct (N.ltb_spec b0 240) as [H4|H4].
  { destruct r0 as [|b1 [|b2 r2]]; [done..|].
    destruct (is_cont b1 && _ && _ && _) eqn:Hc; [|done].
    apply andb_prop in Hc as [Hc Hsur]. apply negb_true_iff in Hsur.
    apply andb_prop in Hc as [Hc Hmin]. apply N.leb_le in Hmin.
    apply andb_prop in Hc as [Hb1 Hb2].
    apply is_cont_true in Hb1, Hb2.
    destruct (utf8_decode r2) as [s'|] eqn:E; [|done]. intros [= <-].
    simpl in Hlen. cbn [utf8_encode]. rewrite (IH r2 s') by (done || lia).
    unfold utf8_encode_char. rewrite Hsur.
    destruct (undigits3 (b0 - 224) (b1 - 128) (b2 - 128))
      as (Hx & Hy & Hz); [lia..|].
    rewrite Hx, Hy, Hz. decide_cmp.
    simpl. do 4 f_equal; lia. }
  destruct (N.ltb_spec b0 248) as [H5|H5]; [|done].
  destruct r0 as [|b1 [|b2 [|b3 r3]]]; [done..|].
  destruct (is_cont b1 && _ && _ && _ && _) eqn:Hc; [|done].
  apply andb_prop in Hc as [Hc Hmax]. apply N.ltb_lt in Hmax.
  apply andb_prop in Hc as [Hc Hmin]. apply N.leb_le in Hmin.
  apply andb_prop in Hc as [Hc Hb3]. apply andb_prop in Hc as [Hb1 Hb2].
  apply is_cont_true in Hb1, Hb2, Hb3.
  destruct (utf8_decode r3) as [s'|] eqn:E; [|done]. intros [= <-].
  simpl in Hlen. cbn [utf8_encode]. rewrite (IH r3 s') by (done || lia).
  unfold utf8_encode_char.
  destruct (undigits4 (b0 - 240) (b1 - 128) (b2 - 128) (b3 - 128))
    as (Hx & Hy & Hz & Hu); [lia..|].
  rewrite Hx, Hy, Hz, Hu. decide_cmp.
  simpl. do 5 f_equal; lia.
Qed.

Lemma utf8_encode_decode bs s :
  utf8_decode bs = Some s → utf8_encode s = Some bs.
Proof. by apply (utf8_encode_decode_bounded (length bs)). Qed.

Lemma utf8_decode_valid bs s :
  utf8_decode bs = Some s → Forall valid_char s.
Proof. intros H. apply utf8_encode_valid. rewrite (utf8_encode_decode _ _ H). eauto. Qed.

(** Decoding goes through a concatenation whose first part decodes. *)
Lemma utf8_decode_app a b s :
  utf8_decode a = Some s → utf8_decode (a ++ b) = (s ++.) <$> utf8_decode b.
Proof. intros H. apply utf8_decode_encode. by apply utf8_encode_decode. Qed.

(** ** [splitlines] *)

Lemma splitlines_plain c s :
  is_linebreak c = false →
  splitlines (c :: s)
  = match splitlines s with [] => [[c]] | l :: ls => (c :: l) :: ls end.
Proof. intros H. simpl. by rewrite H. Qed.

Lemma splitlines_crlf s : splitlines (13 :: 10 :: s) = [] :: splitlines s.
Proof. done. Qed.

Lemma splitlines_break c s :
  is_linebreak c = true → ¬ (c = 13 ∧ head s = Some 10) →
  splitlines (c :: s) = [] :: splitlines s.
Proof.
  intros H Hn. simpl. rewrite H. f_equal. destruct s as [|c2 s]; [done|].
  destruct (N.eqb_spec c 13), (N.eqb_spec c2 10); simpl; try done.
  destruct Hn. by subst.
Qed.

(** Induction along the way [splitlines] reads a text. *)
Lemma splitlines_ind (P : str → Prop) :
  P [] →
  (∀ c s, is_linebreak c = false → P s → P (c :: s)) →
  (∀ s, P s → P (13 :: 10 :: s)) →
  (∀ c s, is_linebreak c = true → ¬ (c = 13 ∧ head s = Some 10) →
          P s → P (c :: s)) →
  ∀ s, P s.
Proof.
  intros Hnil Hplain Hcrlf Hbreak s.
  assert (H : ∀ n s, (length s ≤ n)%nat → P s).
  { clear s. induction n as [|n IH]; intros s Hlen.
    { destruct s; [done|simpl in Hlen; lia]. }
    destruct s as [|c s]; [done|]. simpl in Hlen.
    destruct (is_linebreak c) eqn:Hc; [|apply Hplain; [done|apply IH; lia]].
    destruct (decide (c = 13 ∧ head s = Some 10)) as [[-> Hs]|Hn].
    - destruct s as [|c2 s]; [done|]. injection Hs as ->.
      apply Hcrlf, IH. simpl in Hlen. lia.
    - apply Hbreak; [done..|]. apply IH. lia. }
  by apply (H (length s)).
Qed.

Lemma splitlines_nil s : splitlines s = [] ↔ s = [].
Proof.
  split; [|by intros ->]. destruct s as [|c s]; [done|]. simpl.
  destruct (is_linebreak c); [done|]. by destruct (splitlines s).
Qed.

Lemma splitlines_break_free s : Forall break_free (splitlines s).
Proof.
  induction s as [|c s Hc IH|s IH|c s Hc Hn IH] using splitlines_ind.
  - constructor.
  - rewrite splitlines_plain by done.
    destruct (splitlines s) as [|l ls]; [by repeat constructor|].
    inversion IH; subst. constructor; [by constructor|done].
  - rewrite splitlines_crlf. constructor; [constructor|done].
  - rewrite splitlines_break by done. constructor; [constructor|done].
Qed.

Lemma splitlines_universal_newlines s :
  splitlines (universal_newlines s) = splitlines s.
Proof.
  induction s as [|c s Hc IH|s IH|c s Hc Hn IH] using splitlines_ind.
  - done.
  - assert (c ≠ 13) by (intros ->; done).
    cbn [universal_newlines]. rewrite (proj2 (N.eqb_neq _ _)) by done.
    by rewrite !splitlines_plain, IH.
  - cbn [universal_newlines]. simpl (_ =? _). cbn iota.
    rewrite splitlines_crlf, splitlines_break; [by rewrite IH|done|].
    intros [? _]. done.
  - rewrite (splitlines_break c s) by done. cbn [universal_newlines].
    destruct (N.eqb_spec c 13) as [->|Hc13].
    + destruct s as [|c2 s]; [done|].
      destruct (N.eqb_spec c2 10) as [->|Hc2]; [by destruct Hn|].
      rewrite splitlines_break; [by rewrite IH|done|]. by intros [? _].
    + rewrite splitlines_break; [by rewrite IH|done|]. by intros [? _].
Qed.

Lemma ends_with_break_cons (c : char) (s : str) :
  s ≠ [] → ends_with_break (c :: s) ↔ ends_with_break s.
Proof.
  intros Hs. split.
  - intros (x' & b & E & Hb). destruct x' as [|d x']; simplify_eq/=.
    by exists x', b.
  - intros (x' & b & -> & Hb). by exists (c :: x'), b.
Qed.

Lemma ends_with_break_singleton c :
  ends_with_break [c] ↔ is_linebreak c = true.
Proof.
  split.
  - intros (x' & b & E & Hb). destruct x' as [|d [|??]]; by simplify_eq/=.
  - intros H. by exists [], c.
Qed.

Lemma last_cons_ne {A} (c : A) s : s ≠ [] → last (c :: s) = last s.
Proof. by destruct s. Qed.

(** After a line boundary (other than a CR about to meet its LF) the lines
    of what follows are simply added. *)
Lemma splitlines_app_break (x y : str) :
  ends_with_break x → ¬ (last x = Some 13 ∧ head y = Some 10) →
  splitlines (x ++ y) = splitlines x ++ splitlines y.
Proof.
  induction x as [|c s Hc IH|s IH|c s Hc Hn IH] using splitlines_ind;
    intros Hend Hcr.
  - by destruct Hend as ([|??] & ? & ? & _).
  - destruct (decide (s = [])) as [->|Hs].
    { apply ends_with_break_singleton in Hend. congruence. }
    rewrite ends_with_break_cons in Hend by done.
    rewrite last_cons_ne in Hcr by done.
    cbn [app].
    rewrite !splitlines_plain, IH by done.
    destruct (splitlines s) eqn:E; [by apply splitlines_nil in E|done].
  - cbn [app].
    rewrite !splitlines_crlf. destruct (decide (s = [])) as [->|Hs]; [done|].
    rewrite IH; [done| |].
    + by rewrite !ends_with_break_cons in Hend.
    + by rewrite !last_cons_ne in Hcr.
  - cbn [app].
    destruct (decide (s = [])) as [->|Hs].
    + cbn [app last] in *. rewrite !splitlines_break; try done.
      intros [-> ?]. by apply Hcr.
    + rewrite ends_with_break_cons in Hend by done.
      rewrite last_cons_ne in Hcr by done.
      rewrite !splitlines_break; try done.
      * by rewrite IH.
      * intros [-> ?]. apply Hn. split; [done|]. by destruct s.
Qed.

(** An LF written after a text that ends in the middle of a line, or after a
    CR, closes that line and opens no other. *)
Lemma splitlines_app_lf (x y : str) :
  x ≠ [] → ¬ ends_with_break x ∨ last x = Some 13 →
  splitlines (x ++ 10 :: y) = splitlines x ++ splitlines y.
Proof.
  induction x as [|c s Hc IH|s IH|c s Hc Hn IH] using splitlines_ind;
    intros Hne Hend; [done|..].
  - cbn [app].
    rewrite !splitlines_plain by done.
    destruct (decide (s = [])) as [->|Hs].
    { cbn [app]. rewrite splitlines_break; [done|done|by intros [? _]]. }
    rewrite IH; [|done|].
    + destruct (splitlines s) eqn:E; [by apply splitlines_nil in E|done].
    + by rewrite ends_with_break_cons, last_cons_ne in Hend.
  - cbn [app].
    rewrite !splitlines_crlf. destruct (decide (s = [])) as [->|Hs].
    + destruct Hend as [Hend|Hend]; [|done].
      destruct Hend. by exists [13], 10.
    + rewrite IH; [done..|].
      by rewrite !ends_with_break_cons, !last_cons_ne in Hend.
  - cbn [app].
    destruct (decide (s = [])) as [->|Hs].
    + destruct Hend as [Hend|[= ->]].
      { destruct Hend. by apply ends_with_break_singleton. }
      done.
    + rewrite !splitlines_break; try done.
      * rewrite IH; [done..|].
        by rewrite ends_with_break_cons, last_cons_ne in Hend.
      * intros [-> ?]. apply Hn. split; [done|]. by destruct s.
Qed.

(** A last line that is empty comes from a line boundary at the end. *)
Lemma splitlines_last_empty (x : str) (ls : list str) :
  splitlines x = ls ++ [[]] → ends_with_break x.
Proof.
  revert ls.
  induction x as [|c s Hc IH|s IH|c s Hc Hn IH] using splitlines_ind;
    intros ls.
  - by destruct ls.
  - rewrite splitlines_plain by done.
    destruct (splitlines s) as [|l ls'] eqn:E.
    { by destruct ls as [|? [|??]]. }
    destruct ls as [|l0 ls]; [by destruct ls'|].
    intros [= <- ->].
    assert (s ≠ []) by (intros ->; done).
    apply ends_with_break_cons; [done|]. by apply (IH (l :: ls)).
  - rewrite splitlines_crlf. destruct (decide (s = [])) as [->|Hs].
    { intros _. by exists [13], 10. }
    destruct ls as [|l0 ls].
    { intros [= E]. by apply splitlines_nil in E. }
    intros [= <- E]. rewrite !ends_with_break_cons by done. by apply (IH ls).
  - rewrite splitlines_break by done. destruct (decide (s = [])) as [->|Hs].
    { intros _. by apply ends_with_break_singleton. }
    destruct ls as [|l0 ls].
    { intros [= E]. by apply splitlines_nil in E. }
    intros [= <- E]. rewrite ends_with_break_cons by done. by apply (IH ls).
Qed.

Lemma splitlines_line l b rest :
  break_free l → is_linebreak b = true → ¬ (b = 13 ∧ head rest = Some 10) →
  splitlines (l ++ b :: rest) = l :: splitlines rest.
Proof.
  intros Hl Hb Hn. induction Hl as [|c l Hc _ IH]; simpl app.
  - by apply splitlines_break.
  - by rewrite splitlines_plain, IH.
Qed.

(** Lines written one per line read back as they were. *)
Lemma splitlines_join ls :
  ls ≠ [] → Forall break_free ls → splitlines (join_lines ls ++ [10]) = ls.
Proof.
  intros Hne Hls. induction Hls as [|l ls Hl Hls IH]; [done|].
  destruct ls as [|l2 ls].
  - simpl. rewrite splitlines_line; [done..|]. by intros [? _].
  - cbn [join_lines].
    rewrite <- app_assoc. simpl app.
    rewrite splitlines_line; [|done..|by intros [? _]].
    f_equal. by apply IH.
Qed.

Lemma join_lines_head l ls :
  l ≠ [] → break_free l → head (join_lines (l :: ls) ++ [10]) ≠ Some 10.
Proof.
  intros Hne Hl. destruct l as [|c l]; [done|].
  inversion Hl; subst.
  assert (head (join_lines ((c :: l) :: ls) ++ [10]) = Some c) as ->
    by (by destruct ls).
  intros [= ->]. done.
Qed.

Lemma needs_newline_true existing :
  needs_newline existing = true
  ↔ ∃ ls l, existing = ls ++ [l] ∧ l ≠ [].
Proof.
  unfold needs_newline. split.
  - destruct existing as [|l0 ls0] using rev_ind; [done|].
    destruct (ls0 ++ [l0]) eqn:E; [by destruct ls0|]. rewrite <- E.
    rewrite List.last_last. intros H. exists ls0, l0. split; [done|].
    by destruct l0.
  - intros (ls & l & -> & Hl).
    destruct (ls ++ [l]) eqn:E; [by destruct ls|]. rewrite <- E.
    rewrite List.last_last. by destruct l.
Qed.

Lemma needs_newline_false existing :
  needs_newline existing = false
  ↔ existing = [] ∨ ∃ ls, existing = ls ++ [[]].
Proof.
  unfold needs_newline. split.
  - destruct existing as [|l0 ls0] using rev_ind; [by left|].
    destruct (ls0 ++ [l0]) eqn:E; [by destruct ls0|]. rewrite <- E.
    rewrite List.last_last. intros H. right. exists ls0. by destruct l0.
  - intros [->|(ls & ->)]; [done|].
    destruct (ls ++ [[]]) eqn:E; [by destruct ls|]. rewrite <- E.
    by rewrite List.last_last.
Qed.

(** What the destination reads as after a merge: the lines it had, in
    place; possibly one empty line; then the added lines. *)
Lemma splitlines_merge (x : str) (ls : list str) :
  ls ≠ [] → Forall break_free ls → Forall (λ l, l ≠ []) ls →
  ∃ blank,
    (blank = [] ∨ blank = [[]])
    ∧ splitlines (x ++ (if needs_newline (splitlines x) then [10] else [])
                    ++ join_lines ls ++ [10])
      = splitlines x ++ blank ++ ls.
Proof.
  intros Hne Hbf Hnn.
  pose proof (splitlines_join ls Hne Hbf) as HJ.
  assert (HJh : head (join_lines ls ++ [10]) ≠ Some 10).
  { destruct ls as [|l ls]; [done|]. inversion Hbf; inversion Hnn; subst.
    by apply join_lines_head. }
  destruct (decide (x = [])) as [->|Hx].
  { exists []. split; [by left|]. cbn [splitlines needs_newline app]. by rewrite HJ. }
  destruct (needs_newline (splitlines x)) eqn:Hnl.
  - destruct x as [|c0 x0] using rev_ind; [done|]. clear IHx0.
    cbn [app].
    destruct (is_linebreak c0) eqn:Hc0.
    + destruct (decide (c0 = 13)) as [->|Hc13].
      * exists []. split; [by left|].
        rewrite splitlines_app_lf, HJ; [done|by destruct x0|].
        right. by rewrite last_snoc.
      * exists [[]]. split; [by right|].
        rewrite splitlines_app_break.
        -- rewrite splitlines_break, HJ; [done..|]. by intros [? _].
        -- by exists x0, c0.
        -- rewrite last_snoc. by intros [[= ->] _].
    + exists []. split; [by left|].
      rewrite splitlines_app_lf, HJ; [done|by destruct x0|].
      left. intros (x' & b & E & Hb).
      apply app_inj_tail in E as [_ ->]. congruence.
  - apply needs_newline_false in Hnl as [E|[ls0 E]];
      [by apply splitlines_nil in E|].
    exists []. split; [by left|]. simpl app.
    rewrite splitlines_app_break, HJ; [done| |].
    + by eapply splitlines_last_empty.
    + by intros [_ ?].
Qed.

(** ** Blank lines and [to_add] *)

Lemma drop_while_nil p (s : str) :
  drop_while p s = [] ↔ Forall (λ c, p c = true) s.
Proof.
  induction s as [|c s IH]; simpl; [by split; [constructor|]|].
  destruct (p c) eqn:E.
  - rewrite IH. split; [by constructor|]. by inversion 1.
  - split; [done|]. inversion 1; congruence.
Qed.

(** [line.strip()] is true exactly for the lines that hold something other
    than whitespace. *)
Lemma non_blank_iff (l : str) :
  non_blank l ↔ ∃ c, c ∈ l ∧ is_space c = false.
Proof. unfold non_blank. rewrite Exists_exists. done. Qed.

Lemma strip_truthy (l : str) : str_truthy (strip l) = true ↔ non_blank l.
Proof.
  rewrite non_blank_iff. unfold strip.
  destruct (drop_while is_space l) as [|c s] eqn:E.
  - simpl. split; [done|]. intros (c & Hc & Hsp).
    apply drop_while_nil in E. rewrite Forall_forall in E.
    specialize (E c Hc). congruence.
  - assert (Hc : is_space c = false) by (by eapply drop_while_head).
    split.
    + intros _. exists c. split; [|done].
      rewrite <- (take_drop_while is_space l), E. set_solver.
    + intros _.
      destruct (drop_while is_space (rev (c :: s))) as [|d t] eqn:E2.
      * apply drop_while_nil in E2. rewrite Forall_forall in E2.
        assert (is_space c = true); [|congruence].
        apply E2. apply list_elem_of_In, in_rev. rewrite rev_involutive.
        by left.
      * destruct (rev (d :: t)) eqn:E3; [|done].
        apply (f_equal (@rev _)) in E3. rewrite rev_involutive in E3. done.
Qed.

Lemma to_add_elem_of snippet existing l :
  l ∈ to_add snippet existing ↔ l ∈ snippet ∧ non_blank l ∧ l ∉ existing.
Proof.
  unfold to_add. rewrite list_elem_of_filter, strip_truthy, elem_of_list_to_set.
  tauto.
Qed.

(** [to_add] keeps the order of the snippet. *)
Lemma to_add_sublist snippet existing : to_add snippet existing `sublist_of` snippet.
Proof. apply sublist_filter. Qed.

Lemma to_add_nil snippet existing :
  to_add snippet existing = []
  ↔ ∀ l, l ∈ snippet → non_blank l → l ∈ existing.
Proof.
  split.
  - intros H l Hl Hnb. destruct (decide (l ∈ existing)) as [|Hn]; [done|].
    assert (l ∈ to_add snippet existing) by (by apply to_add_elem_of).
    rewrite H in *. by apply not_elem_of_nil in H0.
  - intros H. destruct (to_add snippet existing) as [|l ls] eqn:E; [done|].
    assert (l ∈ to_add snippet existing) by (rewrite E; by left).
    apply to_add_elem_of in H0 as (? & ? & Hn). destruct Hn. by apply H.
Qed.

Lemma to_add_occurrences snippet existing l :
  non_blank l → l ∉ existing →
  occurrences l (to_add snippet existing) = occurrences l snippet.
Proof.
  intros Hnb Hn. unfold occurrences, to_add.
  induction snippet as [|x snippet IH]; [done|].
  rewrite !filter_cons. destruct (decide (x = l)) as [->|Hx].
  - rewrite decide_True.
    + rewrite filter_cons, decide_True by done. simpl. by rewrite IH.
    + split; [by apply strip_truthy|]. by rewrite elem_of_list_to_set.
  - case_decide; [|done]. by rewrite filter_cons, decide_False.
Qed.

Lemma non_blank_nonempty (l : str) : non_blank l → l ≠ [].
Proof. intros H ->. by inversion H. Qed.

(** [to_add] computes the missing lines of the specification. *)
Lemma to_add_missing_lines snippet existing :
  to_add snippet existing = missing_lines snippet existing.
Proof.
  unfold to_add, missing_lines. apply list_filter_iff. intros l.
  by rewrite strip_truthy, elem_of_list_to_set.
Qed.

Lemma needs_newline_last existing :
  needs_newline existing = last_line_nonempty existing.
Proof.
  unfold needs_newline, last_line_nonempty.
  destruct existing as [|l0 ls0] using rev_ind; [done|].
  rewrite last_snoc. destruct (ls0 ++ [l0]) eqn:E; [by destruct ls0|].
  rewrite <- E, List.last_last. by destruct l0.
Qed.

Lemma join_lines_cons l l2 ls :
  join_lines (l :: l2 :: ls) = l ++ 10 :: join_lines (l2 :: ls).
Proof. done. Qed.

Lemma join_lines_snoc ls :
  ls ≠ [] → join_lines ls ++ [10] = flat_map (λ l, l ++ [10]) ls.
Proof.
  intros Hne. induction ls as [|l ls IH]; [done|].
  destruct ls as [|l2 ls]; [by cbn; rewrite app_nil_r|].
  rewrite join_lines_cons. cbn [flat_map] in *.
  rewrite <- IH by done. rewrite <- !app_assoc. done.
Qed.

Lemma to_add_lines (s : str) existing :
  Forall break_free (to_add (splitlines s) existing)
  ∧ Forall (λ l, l ≠ []) (to_add (splitlines s) existing).
Proof.
  split; apply Forall_forall; intros l Hl;
    apply to_add_elem_of in Hl as (Hl & Hnb & _).
  - pose proof (splitlines_break_free s) as H. rewrite Forall_forall in H. auto.
  - by apply non_blank_nonempty.
Qed.

(** Merging again finds nothing to add. *)
Lemma to_add_again snippet existing blank :
  blank = [] ∨ blank = [[]] →
  to_add snippet (existing ++ blank ++ to_add snippet existing) = [].
Proof.
  intros _. apply to_add_nil. intros l Hl Hnb.
  destruct (decide (l ∈ existing)); [set_solver|].
  assert (l ∈ to_add snippet existing) by (by apply to_add_elem_of).
  set_solver.
Qed.

(** ** Valid characters *)

Lemma universal_newlines_valid (s : str) :
  Forall valid_char s → Forall valid_char (universal_newlines s).
Proof.
  revert s.
  assert (H : ∀ n s, (length s ≤ n)%nat → Forall valid_char s →
                     Forall valid_char (universal_newlines s)).
  { induction n as [|n IH]; intros s Hlen Hs.
    { destruct s; [constructor|simpl in Hlen; lia]. }
    destruct s as [|c s]; [constructor|]. simpl in Hlen.
    inversion Hs as [|?? Hc Hs']; subst. cbn [universal_newlines].
    destruct (c =? 13).
    - constructor; [done|]. destruct s as [|c2 s]; [constructor|].
      inversion Hs'; subst. simpl in Hlen.
      destruct (c2 =? 10); apply IH; (done || simpl; lia).
    - constructor; [done|]. apply IH; [lia|done]. }
  intros s. by apply (H (length s)).
Qed.

Lemma splitlines_valid (s : str) :
  Forall valid_char s → Forall (Forall valid_char) (splitlines s).
Proof.
  induction s as [|c s Hc IH|s IH|c s Hc Hn IH] using splitlines_ind; intros Hs.
  - constructor.
  - inversion Hs; subst. rewrite splitlines_plain by done.
    specialize (IH ltac:(done)).
    destruct (splitlines s); [by constructor; [constructor|]|].
    inversion IH; subst. constructor; [by constructor|done].
  - inversion Hs as [|?? _ Hs']; inversion Hs'; subst.
    rewrite splitlines_crlf. constructor; [constructor|auto].
  - inversion Hs; subst. rewrite splitlines_break by done.
    constructor; [constructor|auto].
Qed.

Lemma join_lines_valid ls :
  Forall (Forall valid_char) ls → Forall valid_char (join_lines ls).
Proof.
  induction 1 as [|l ls Hl Hls IH]; [constructor|].
  destruct ls as [|l2 ls]; [done|]. cbn [join_lines].
  apply Forall_app. split; [done|]. constructor; [done|apply IH].
Qed.

Lemma to_add_valid (s : str) existing :
  Forall valid_char s →
  Forall valid_char (join_lines (to_add (splitlines s) existing) ++ [10]).
Proof.
  intros Hs. apply Forall_app. split; [|by repeat constructor].
  apply join_lines_valid. apply Forall_forall. intros l Hl.
  apply to_add_elem_of in Hl as (Hl & _).
  pose proof (splitlines_valid s Hs) as H. rewrite Forall_forall in H. auto.
Qed.

(** The same, with the empty line told exactly: there is one when the
    newline written first comes after a line boundary that is not a lone
    carriage return. *)
Lemma splitlines_merge_exact (x : str) (ls : list str) :
  ls ≠ [] → Forall break_free ls → Forall (λ l, l ≠ []) ls →
  splitlines (x ++ (if needs_newline (splitlines x) then [10] else [])
                ++ join_lines ls ++ [10])
  = splitlines x
    ++ (if needs_newline (splitlines x) && ends_in_newline x
        then [[]] else [])
    ++ ls.
Proof.
  intros Hne Hbf Hnn.
  pose proof (splitlines_join ls Hne Hbf) as HJ.
  assert (HJh : head (join_lines ls ++ [10]) ≠ Some 10).
  { destruct ls as [|l ls]; [done|]. inversion Hbf; inversion Hnn; subst.
    by apply join_lines_head. }
  destruct (decide (x = [])) as [->|Hx].
  { cbn [splitlines needs_newline app andb]. by rewrite HJ. }
  destruct (needs_newline (splitlines x)) eqn:Hnl; cbn [andb].
  - destruct x as [|c0 x0] using rev_ind; [done|]. clear IHx0.
    unfold ends_in_newline. rewrite last_snoc.
    cbn [app].
    destruct (is_linebreak c0) eqn:Hc0; cbn [andb].
    + destruct (decide (c0 = 13)) as [->|Hc13].
      * cbn [N.eqb Pos.eqb negb app].
        rewrite splitlines_app_lf, HJ; [done|by destruct x0|].
        right. by rewrite last_snoc.
      * rewrite (proj2 (N.eqb_neq c0 13) Hc13). cbn [negb].
        rewrite splitlines_app_break.
        -- rewrite splitlines_break, HJ; [done..|]. by intros [? _].
        -- by exists x0, c0.
        -- rewrite last_snoc. by intros [[= ->] _].
    + cbn [app]. rewrite splitlines_app_lf, HJ; [done|by destruct x0|].
      left. intros (x' & b & E & Hb).
      apply app_inj_tail in E as [_ ->]. congruence.
  - apply needs_newline_false in Hnl as [E|[ls0 E]];
      [by apply splitlines_nil in E|].
    simpl app.
    rewrite splitlines_app_break, HJ; [done| |].
    + by eapply splitlines_last_empty.
    + by intros [_ ?].
Qed.

(** ** [sorted] *)

Lemma str_leb_total a b : str_leb a b = true ∨ str_leb b a = true.
Proof.
  revert b. induction a as [|x a IH]; intros [|y b]; simpl; auto.
  destruct (N.ltb_spec x y), (N.ltb_spec y x); auto; try lia.
  assert (x = y) as -> by lia. rewrite N.eqb_refl. apply IH.
Qed.

Global Instance str_le_total : Total str_le.
Proof. intros a b. apply str_leb_total. Qed.

Lemma str_leb_antisym a b : str_leb a b = true → str_leb b a = true → a = b.
Proof.
  revert b. induction a as [|x a IH]; intros [|y b]; simpl; try done.
  destruct (N.ltb_spec x y), (N.ltb_spec y x),
    (N.eqb_spec x y), (N.eqb_spec y x); try done; try lia.
  subst. intros. f_equal. auto.
Qed.

Lemma str_leb_trans a b c :
  str_leb a b = true → str_leb b c = true → str_leb a c = true.
Proof.
  revert b c. induction a as [|x a IH]; intros [|y b] [|z c]; simpl; try done.
  destruct (N.ltb_spec x y), (N.ltb_spec y z), (N.ltb_spec x z),
    (N.eqb_spec x y), (N.eqb_spec y z), (N.eqb_spec x z);
    try done; try lia.
  apply IH.
Qed.

Global Instance str_le_trans : Transitive str_le.
Proof. intros a b c. apply str_leb_trans. Qed.

Global Instance str_le_antisym : AntiSymm (=) str_le.
Proof. intros a b. apply str_leb_antisym. Qed.

(** [sorted l] is [l] rearranged in ascending order. *)
Lemma sorted_Sorted l : Sorted str_le (sorted l).
Proof. apply Sorted_merge_sort. apply _. Qed.

Lemma sorted_Permutation l : sorted l ≡ₚ l.
Proof. apply merge_sort_Permutation. Qed.

Lemma keys_NoDup (m : gmap str yaml) : NoDup (keys m).
Proof. apply NoDup_fst_map_to_list. Qed.

Lemma elem_of_keys (m : gmap str yaml) a : a ∈ keys m ↔ is_Some (m !! a).
Proof.
  unfold keys. rewrite list_elem_of_fmap. split.
  - intros ([k v] & -> & H). apply elem_of_map_to_list in H. eauto.
  - intros [v H]. exists (a, v). split; [done|]. by apply elem_of_map_to_list.
Qed.

Lemma elem_of_sorted_keys (m : gmap str yaml) a :
  a ∈ sorted (keys m) ↔ is_Some (m !! a).
Proof. by rewrite sorted_Permutation, elem_of_keys. Qed.

Lemma sorted_names_keys (agents : gmap str yaml) :
  sorted_names agents (sorted (keys agents)).
Proof.
  split_and!.
  - apply sorted_Sorted.
  - rewrite sorted_Permutation. apply keys_NoDup.
  - apply elem_of_sorted_keys.
Qed.

Lemma sorted_names_unique (agents : gmap str yaml) l :
  sorted_names agents l → l = sorted (keys agents).
Proof.
  intros (Hs & Hn & He).
  destruct (sorted_names_keys agents) as (Hs' & Hn' & He').
  apply (Sorted_unique str_le); [done..|].
  apply NoDup_Permutation; [done..|]. intros a. by rewrite He, He'.
Qed.

Section Plan.

Context (py_repr : yaml → str) (kit_root dest_root : path).

Local Abbreviation parses :=
  (λ e it, parse_copy_item py_repr kit_root dest_root e = Ok it).

(** ** The loops of [build_copy_plan] *)

Lemma result_bind_Ok {A B} (x : A) (f : A → result B) : (Ok x ≫= f) = f x.
Proof. done. Qed.

Lemma for_each_cons {A S} (x : A) l (body : A → S → result S) s :
  for_each (x :: l) body s
  = match body x s with
    | Ok s' => for_each l body s'
    | Raise e => Raise e
    | Timeout => Timeout
    end.
Proof. done. Qed.

Lemma append_item_ok e acc r :
  append_item py_repr kit_root dest_root e acc = Ok r
  ↔ ∃ it, parses e it ∧ r = acc ++ [it].
Proof.
  unfold append_item.
  destruct (parse_copy_item py_repr kit_root dest_root e); simpl; naive_solver.
Qed.

Lemma Forall2_parses_inj es its its' :
  Forall2 parses es its → Forall2 parses es its' → its = its'.
Proof.
  intros H. revert its'. induction H as [|e it es its He _ IH];
    intros its' H'; inversion H'; subst; [done|].
  f_equal; [congruence|auto].
Qed.

(** The inner loop appends, in order, the item of each entry. *)
Lemma for_each_append_item es acc r :
  for_each es (append_item py_repr kit_root dest_root) acc = Ok r
  ↔ ∃ its, Forall2 parses es its ∧ r = acc ++ its.
Proof.
  revert acc. induction es as [|e es IH]; intros acc.
  - simpl. split.
    + intros [= <-]. exists []. split; [constructor|by rewrite app_nil_r].
    + intros (its & H & ->). inversion H. by rewrite app_nil_r.
  - rewrite for_each_cons.
    destruct (append_item py_repr kit_root dest_root e acc) as [r1|x|] eqn:E.
    + apply append_item_ok in E as (it & Hit & ->). rewrite IH. split.
      * intros (its & H & ->). exists (it :: its).
        split; [by constructor|by rewrite <- app_assoc].
      * intros (its & H & ->). inversion H as [|? it' ? its' E' H']; subst.
        rewrite Hit in E'. injection E' as <-.
        exists its'. split; [done|by rewrite <- app_assoc].
    + split; [done|]. intros (its & H & _).
      inversion H as [|? it' ? its' E' H']; subst.
      assert (append_item py_repr kit_root dest_root e acc = Ok (acc ++ [it']))
        by (apply append_item_ok; eauto). congruence.
    + split; [done|]. intros (its & H & _).
      inversion H as [|? it' ? its' E' H']; subst.
      assert (append_item py_repr kit_root dest_root e acc = Ok (acc ++ [it']))
        by (apply append_item_ok; eauto). congruence.
Qed.

Lemma agent_step_ok agents a acc r :
  agent_step py_repr kit_root dest_root agents a acc = Ok r
  ↔ ∃ es its, agent_entries agents a es ∧ Forall2 parses es its
              ∧ r = acc ++ its.
Proof.
  unfold agent_step, agent_entries. split.
  - destruct (agents !! a) as [block|] eqn:Ea; [|done].
    destruct block as [| | | | |b]; try done. simpl.
    destruct (b !! ustr "copy") as [c|] eqn:Ec; simpl.
    + destruct c; try done. intros H.
      apply for_each_append_item in H as (its & H & ->).
      eexists _, its. split_and!; [|done..].
      eexists. split; [done|]. simpl. by rewrite Ec.
    + intros [= <-]. exists [], []. split_and!; [|constructor|].
      * eexists. split; [done|]. simpl. by rewrite Ec.
      * by rewrite app_nil_r.
  - intros (es & its & (block & -> & Hc) & Hp & ->).
    destruct block as [| | | | |b]; try done. simpl in *.
    destruct (b !! ustr "copy") as [c|] eqn:Ec; simpl.
    + destruct c; try done. injection Hc as <-.
      apply for_each_append_item. eauto.
    + injection Hc as <-. inversion Hp. by rewrite app_nil_r.
Qed.

Lemma for_each_agents agents chosen acc r :
  for_each chosen (agent_step py_repr kit_root dest_root agents) acc = Ok r
  ↔ ∃ ess its, Forall2 (agent_entries agents) chosen ess
               ∧ Forall2 parses (concat ess) its ∧ r = acc ++ its.
Proof.
  revert acc. induction chosen as [|a chosen IH]; intros acc.
  - simpl. split.
    + intros [= <-]. exists [], []. split_and!; [constructor..|].
      by rewrite app_nil_r.
    + intros (ess & its & H & H' & ->). inversion H; subst.
      inversion H'. by rewrite app_nil_r.
  - rewrite for_each_cons.
    destruct (agent_step py_repr kit_root dest_root agents a acc)
      as [r1|x|] eqn:E.
    + apply agent_step_ok in E as (es & its1 & Hes & Hp & ->).
      rewrite IH. split.
      * intros (ess & its & H & H' & ->). exists (es :: ess), (its1 ++ its).
        split_and!; [by constructor| |by rewrite <- app_assoc].
        simpl. by apply Forall2_app.
      * intros (ess & its & H & H' & ->).
        inversion H as [|? es' ? ess' Hes' Hess]; subst. simpl in H'.
        destruct Hes as (b & Hb & Hc), Hes' as (b' & Hb' & Hc').
        rewrite Hb in Hb'. injection Hb' as <-. rewrite Hc in Hc'.
        injection Hc' as <-.
        apply Forall2_app_inv_l in H' as (i1 & i2 & H1 & H2 & ->).
        rewrite (Forall2_parses_inj _ _ _ H1 Hp).
        exists ess', i2. split_and!; [done|done|by rewrite <- app_assoc].
    + split; [done|]. intros (ess & its & H & H' & _).
      inversion H as [|? es' ? ess' Hes' Hess]; subst. simpl in H'.
      apply Forall2_app_inv_l in H' as (i1 & i2 & H1 & H2 & ->).
      assert (agent_step py_repr kit_root dest_root agents a acc
              = Ok (acc ++ i1)) as E' by (apply agent_step_ok; eauto).
      congruence.
    + split; [done|]. intros (ess & its & H & H' & _).
      inversion H as [|? es' ? ess' Hes' Hess]; subst. simpl in H'.
      apply Forall2_app_inv_l in H' as (i1 & i2 & H1 & H2 & ->).
      assert (agent_step py_repr kit_root dest_root agents a acc
              = Ok (acc ++ i1)) as E' by (apply agent_step_ok; eauto).
      congruence.
Qed.

(** ** [build_copy_plan] *)

Lemma render_extensions_ok_iff manifest :
  render_extensions_ok manifest
  ↔ ∃ l, default (YList []) (manifest !! ustr "render_extensions") = YList l.
Proof.
  unfold render_extensions_ok.
  destruct (manifest !! ustr "render_extensions") as [[]|]; simpl;
    split; try done; eauto; by intros [? ?].
Qed.

Lemma agents_of_iff manifest agents :
  agents_of manifest = Some agents
  ↔ default (YMap ∅) (manifest !! ustr "agents") = YMap agents.
Proof.
  unfold agents_of.
  destruct (manifest !! ustr "agents") as [[]|]; simpl;
    split; try done; congruence.
Qed.

(** What is left of [build_copy_plan] once the manifest has passed the two
    shape checks and the selection is resolved. *)
Lemma build_items_ok manifest agents chosen items :
  (let common := default (YMap ∅) (manifest !! ustr "common") in
   common_copy ← py_get common (ustr "copy") (YList []);
   match common_copy with
   | YList common_copy =>
       items ← for_each common_copy
                 (append_item py_repr kit_root dest_root) [];
       for_each chosen (agent_step py_repr kit_root dest_root agents) items
   | _ => Raise (ValueError CommonCopyMustBeList)
   end) = Ok items
  ↔ ∃ cs ess, common_entries manifest = Some cs
              ∧ Forall2 (agent_entries agents) chosen ess
              ∧ Forall2 parses (cs ++ concat ess) items.
Proof.
  unfold common_entries, copy_entries. cbn zeta.
  destruct (manifest !! ustr "common") as [common|] eqn:Ecommon; simpl.
  - destruct common as [| | | | |b]; simpl;
      try (split; [done|by intros (? & ? & ? & _)]).
    destruct (b !! ustr "copy") as [c|] eqn:Ec; simpl.
    + destruct c as [| | | |l|]; simpl;
        try (split; [done|by intros (? & ? & ? & _)]).
      destruct (for_each l _ []) as [r1|x|] eqn:E1; simpl.
      * apply for_each_append_item in E1 as (its1 & H1 & ->). simpl.
        rewrite for_each_agents. split.
        -- intros (ess & its & H & H' & ->). exists l, ess.
           split_and!; [done..|]. by apply Forall2_app.
        -- intros (cs & ess & [= <-] & H & H').
           apply Forall2_app_inv_l in H' as (i1 & i2 & Hi1 & Hi2 & ->).
           rewrite (Forall2_parses_inj _ _ _ Hi1 H1). eauto.
      * split; [done|]. intros (cs & ess & [= <-] & H & H').
        apply Forall2_app_inv_l in H' as (i1 & i2 & Hi1 & Hi2 & ->).
        assert (for_each l (append_item py_repr kit_root dest_root) []
                = Ok ([] ++ i1)) by (apply for_each_append_item; eauto).
        congruence.
      * split; [done|]. intros (cs & ess & [= <-] & H & H').
        apply Forall2_app_inv_l in H' as (i1 & i2 & Hi1 & Hi2 & ->).
        assert (for_each l (append_item py_repr kit_root dest_root) []
                = Ok ([] ++ i1)) by (apply for_each_append_item; eauto).
        congruence.
    + rewrite for_each_agents. split.
      * intros (ess & its & H & H' & ->). exists [], ess. by split_and!.
      * intros (cs & ess & [= <-] & H & H'). eauto.
  - rewrite lookup_empty. simpl. rewrite for_each_agents. split.
    + intros (ess & its & H & H' & ->). exists [], ess. by split_and!.
    + intros (cs & ess & [= <-] & H & H'). eauto.
Qed.

Lemma build_copy_plan_unfold manifest agents_selected :
  build_copy_plan py_repr kit_root dest_root manifest agents_selected
  = match default (YList []) (manifest !! ustr "render_extensions") with
    | YList _ =>
        match default (YMap ∅) (manifest !! ustr "agents") with
        | YMap agents_map =>
            chosen ←
              (if bool_decide (agents_selected = [ustr "all"])
               then Ok (sorted (keys agents_map))
               else
                 let unknown :=
                   filter (λ a, agents_map !! a = None) agents_selected in
                 match unknown with
                 | _ :: _ =>
                     Raise (ValueError
                              (UnknownAgents unknown (sorted (keys agents_map))))
                 | [] => Ok agents_selected
                 end);
            items ←
              (let common := default (YMap ∅) (manifest !! ustr "common") in
               common_copy ← py_get common (ustr "copy") (YList []);
               match common_copy with
               | YList common_copy =>
                   items ← for_each common_copy
                             (append_item py_repr kit_root dest_root) [];
                   for_each chosen
                     (agent_step py_repr kit_root dest_root agents_map) items
               | _ => Raise (ValueError CommonCopyMustBeList)
               end);
            Ok (items, sorted (keys agents_map))
        | _ => Raise (ValueError AgentsMustBeMapping)
        end
    | _ => Raise (ValueError RenderExtensionsMustBeList)
    end.
Proof.
  unfold build_copy_plan.
  destruct (default (YList []) (manifest !! ustr "render_extensions")); try done.
  destruct (default (YMap ∅) (manifest !! ustr "agents")) as [| | | | |am];
    try done.
  match goal with
  | |- mbind _ ?c = _ => destruct c as [chosen|x|]; [|done..]
  end.
  cbn [mbind result_bind].
  destruct (py_get _ _ _) as [cc|x|]; [|done..]. cbn [mbind result_bind].
  destruct cc as [| | | |cl|]; try done.
  destruct (for_each cl (append_item py_repr kit_root dest_root) [])
    as [r1|x|]; [|done..].
  cbn [mbind result_bind].
  by destruct (for_each chosen _ r1).
Qed.

Lemma agent_entries_known agents chosen ess :
  Forall2 (agent_entries agents) chosen ess →
  filter (λ a, agents !! a = None) chosen = [].
Proof.
  induction 1 as [|a es chosen ess (b & Hb & _) _ IH]; [done|].
  rewrite filter_cons_False; [done|]. by rewrite Hb.
Qed.

(** [build_copy_plan] returns exactly when the manifest has the shape its
    checks ask for and every chosen agent is known, and then the plan is the
    items of [common.copy] followed by those of the chosen agents. *)
Lemma build_copy_plan_ok_iff manifest agents_selected items available :
  build_copy_plan py_repr kit_root dest_root manifest agents_selected
  = Ok (items, available)
  ↔ render_extensions_ok manifest
    ∧ ∃ agents chosen cs ess,
        agents_of manifest = Some agents
        ∧ sorted_names agents available
        ∧ chosen_for agents agents_selected chosen
        ∧ common_entries manifest = Some cs
        ∧ Forall2 (agent_entries agents) chosen ess
        ∧ Forall2 parses (cs ++ concat ess) items.
Proof.
  rewrite build_copy_plan_unfold, render_extensions_ok_iff. split.
  - destruct (default (YList []) (manifest !! ustr "render_extensions"))
      as [| | | |exts|] eqn:Eexts; try done.
    destruct (default (YMap ∅) (manifest !! ustr "agents"))
      as [| | | | |agents] eqn:Eagents; try done.
    apply agents_of_iff in Eagents. intros H. split; [eauto|].
    exists agents.
    destruct (bool_decide (agents_selected = [ustr "all"])) eqn:Eall.
    + apply bool_decide_eq_true in Eall. cbn [mbind result_bind] in H.
      match type of H with
      | mbind _ ?c = _ => destruct c as [its|x|] eqn:Eits; [|done..]
      end.
      injection H as -> <-.
      apply build_items_ok in Eits as (cs & ess & Hcs & Hess & Hits).
      exists (sorted (keys agents)), cs, ess.
      split_and!; try done; [apply sorted_names_keys|].
      left. split; [done|apply sorted_names_keys].
    + apply bool_decide_eq_false in Eall. cbn zeta in H.
      destruct (filter (λ a, agents !! a = None) agents_selected); [|done].
      cbn [mbind result_bind] in H.
      match type of H with
      | mbind _ ?c = _ => destruct c as [its|x|] eqn:Eits; [|done..]
      end.
      injection H as -> <-.
      apply build_items_ok in Eits as (cs & ess & Hcs & Hess & Hits).
      exists agents_selected, cs, ess.
      split_and!; try done; [apply sorted_names_keys|]. by right.
  - intros ([exts ->] & agents & chosen & cs & ess
            & Hagents & Hav & Hchosen & Hcs & Hess & Hits).
    apply agents_of_iff in Hagents. rewrite Hagents.
    apply sorted_names_unique in Hav as ->.
    assert (Hitems := proj2 (build_items_ok manifest agents chosen items)
                        (ex_intro _ cs (ex_intro _ ess
                           (conj Hcs (conj Hess Hits))))).
    destruct Hchosen as [[Hall Hch]|[Hall ->]].
    + rewrite bool_decide_eq_true_2 by done.
      apply sorted_names_unique in Hch as ->.
      rewrite result_bind_Ok. cbv beta. by rewrite Hitems.
    + rewrite bool_decide_eq_false_2 by done. cbv zeta.
      rewrite (agent_entries_known _ _ _ Hess).
      rewrite result_bind_Ok. cbv beta.
      cbv zeta in Hitems. by rewrite Hitems.
Qed.

(** C1. [build_copy_plan] returns a plan and the available agents exactly
    when the manifest passes its shape checks and every chosen agent is
    known; the available agents are all agent names in ascending order; the
    chosen agents are those for the sentinel [["all"]] and the selection as
    given otherwise; and the plan holds, in order, one item for each entry of
    [common.copy] as declared, then one for each entry of each chosen
    agent's [copy] list, agent after agent in the order they were chosen. *)
Theorem build_copy_plan_order manifest agents_selected items available :
  build_copy_plan py_repr kit_root dest_root manifest agents_selected
  = Ok (items, available)
  ↔ render_extensions_ok manifest
    ∧ ∃ agents chosen cs ess,
        agents_of manifest = Some agents
        ∧ sorted_names agents available
        ∧ chosen_for agents agents_selected chosen
        ∧ common_entries manifest = Some cs
        ∧ Forall2 (agent_entries agents) chosen ess
        ∧ Forall2 parses (cs ++ concat ess) items.
Proof. apply build_copy_plan_ok_iff. Qed.

(** ** Unknown agents *)

Lemma for_each_raise {A S} (P : exn → Prop) (body : A → S → result S) l s e :
  (∀ x s e, body x s = Raise e → P e) →
  for_each l body s = Raise e → P e.
Proof.
  intros Hbody. revert s. induction l as [|x l IH]; intros s; [done|].
  rewrite for_each_cons. destruct (body x s) as [s'|e'|] eqn:E; [apply IH| |done].
  intros [= <-]. eauto.
Qed.

Lemma component_error_cases c e :
  component_error c = Some e →
  e = UnicodeEncodeError ∨ e = ValueError EmbeddedNullByte.
Proof.
  unfold component_error. destruct (_ || _); [done|].
  destruct (negb _); [intros [= <-]; by left|].
  destruct (existsb _ _); [intros [= <-]; by right|done].
Qed.

Lemma resolve_steps_raise acc cs e :
  resolve_steps acc cs = Raise e →
  e = UnicodeEncodeError ∨ e = ValueError EmbeddedNullByte.
Proof.
  revert acc. induction cs as [|c cs IH]; intros acc; [done|].
  cbn [resolve_steps]. destruct (component_error c) as [e'|] eqn:E.
  - intros [= <-]. by eapply component_error_cases.
  - apply IH.
Qed.

Lemma resolve_under_raise root s e :
  resolve_under root s = Raise e →
  e = UnicodeEncodeError ∨ e = ValueError EmbeddedNullByte.
Proof. apply resolve_steps_raise. Qed.

Lemma append_item_raise it acc e :
  append_item py_repr kit_root dest_root it acc = Raise e →
  ¬ unknown_agents_error e.
Proof.
  unfold append_item, parse_copy_item.
  destruct it as [| | | | |o]; simpl; try (intros [= <-] (? & ? & ?); done).
  destruct (default YNull (o !! ustr "src")) as [| | |s0| |],
    (default YNull (o !! ustr "dst")) as [| | |d0| |];
    simpl; try (intros [= <-] (? & ? & ?); done).
  destruct (resolve_under kit_root s0) as [p1|e1|] eqn:E1; simpl; [| |done].
  - destruct (resolve_under dest_root d0) as [p2|e2|] eqn:E2; simpl; try done.
    intros [= <-] (? & ? & ->).
    by destruct (resolve_under_raise _ _ _ E2).
  - intros [= <-] (? & ? & ->).
    by destruct (resolve_under_raise _ _ _ E1).
Qed.

Lemma agent_step_raise agents a acc e :
  agent_step py_repr kit_root dest_root agents a acc = Raise e →
  ¬ unknown_agents_error e.
Proof.
  unfold agent_step.
  destruct (agents !! a) as [block|]; [|intros [= <-] (? & ? & ?); done].
  destruct block as [| | | | |b]; simpl; try (intros [= <-] (? & ? & ?); done).
  destruct (default (YList []) (b !! ustr "copy")); simpl;
    try (intros [= <-] (? & ? & ?); done).
  apply (for_each_raise (λ e, ¬ unknown_agents_error e)).
  intros ???. apply append_item_raise.
Qed.

Lemma filter_unknown_nil (agents : gmap str yaml) sel :
  Forall (λ a, is_Some (agents !! a)) sel →
  filter (λ a, agents !! a = None) sel = [].
Proof.
  induction 1 as [|a sel [b Hb] _ IH]; [done|].
  rewrite filter_cons_False; [done|]. by rewrite Hb.
Qed.

Lemma collect_raise (manifest : gmap str yaml) agents chosen e :
  (let common := default (YMap ∅) (manifest !! ustr "common") in
   common_copy ← py_get common (ustr "copy") (YList []);
   match common_copy with
   | YList common_copy =>
       items ← for_each common_copy
                 (append_item py_repr kit_root dest_root) [];
       for_each chosen (agent_step py_repr kit_root dest_root agents) items
   | _ => Raise (ValueError CommonCopyMustBeList)
   end) = Raise e →
  ¬ unknown_agents_error e.
Proof.
  cbv zeta.
  destruct (default (YMap ∅) (manifest !! ustr "common")) as [| | | | |b];
    simpl; try (intros [= <-] (? & ? & ?); done).
  destruct (default (YList []) (b !! ustr "copy")) as [| | | |l|]; simpl;
    try (intros [= <-] (? & ? & ?); done).
  destruct (for_each l _ []) as [r1|x|] eqn:E1; simpl; [| |done].
  - apply (for_each_raise (λ e, ¬ unknown_agents_error e)).
    intros ???. apply agent_step_raise.
  - intros [= <-]. revert E1.
    apply (for_each_raise (λ e, ¬ unknown_agents_error e)).
    intros ???. apply append_item_raise.
Qed.

(** C5. For a manifest that passes the two shape checks made before the
    selection is looked at, and a selection other than the sentinel: if some
    selected name is not an agent of the manifest, [build_copy_plan] raises
    the unknown-agents error, which carries all the selected names that are
    not agents, in the order selected, and the list of all agent names in
    ascending order; if every selected name is an agent, it does not raise
    that error. *)
Theorem build_copy_plan_unknown manifest agents agents_selected :
  render_extensions_ok manifest →
  agents_of manifest = Some agents →
  ¬ is_all agents_selected →
  (Exists (λ a, agents !! a = None) agents_selected →
   ∃ available,
     sorted_names agents available
     ∧ build_copy_plan py_repr kit_root dest_root manifest agents_selected
       = Raise (ValueError
                  (UnknownAgents
                     (filter (λ a, agents !! a = None) agents_selected)
                     available)))
  ∧ (Forall (λ a, is_Some (agents !! a)) agents_selected →
     ∀ e, build_copy_plan py_repr kit_root dest_root manifest agents_selected
          = Raise e → ¬ unknown_agents_error e).
Proof.
  intros Hexts Hagents Hall.
  apply render_extensions_ok_iff in Hexts as [exts Hexts].
  apply agents_of_iff in Hagents.
  rewrite build_copy_plan_unfold, Hexts, Hagents.
  rewrite bool_decide_eq_false_2 by done. cbv zeta. split.
  - intros Hex. exists (sorted (keys agents)).
    split; [apply sorted_names_keys|].
    destruct (filter (λ a, agents !! a = None) agents_selected) eqn:Ef; [|done].
    exfalso. apply Exists_exists in Hex as (a & Ha & Hnone).
    assert (a ∈ filter (λ a, agents !! a = None) agents_selected)
      by (by apply list_elem_of_filter).
    rewrite Ef in *. by eapply not_elem_of_nil.
  - intros Hknown e. rewrite (filter_unknown_nil _ _ Hknown).
    rewrite result_bind_Ok. cbv beta.
    match goal with
    | |- mbind _ ?c = _ → _ => destruct c as [its|x|] eqn:Eits; [done| |done]
    end.
    intros [= <-]. by apply collect_raise in Eits.
Qed.

Lemma split_on_subseteq sep (s w : str) c :
  w ∈ split_on sep s → c ∈ w → c ∈ s.
Proof.
  revert w. induction s as [|x s IH]; intros w; simpl.
  { intros Hw%list_elem_of_singleton. subst. by intros ?%not_elem_of_nil. }
  destruct (x =? sep).
  - intros [->|Hw]%elem_of_cons; [by intros ?%not_elem_of_nil|].
    intros Hc. right. by eapply IH.
  - destruct (split_on sep s) as [|w0 ws].
    + intros Hw%list_elem_of_singleton. subst.
      intros Hc%list_elem_of_singleton. subst. by left.
    + intros [->|Hw]%elem_of_cons.
      * intros [->|Hc]%elem_of_cons; [by left|].
        right. apply (IH w0); [by left|done].
      * intros Hc. right. apply (IH w); [by right|done].
Qed.

Lemma component_error_ok c : path_text_ok c → component_error c = None.
Proof.
  intros Hc. unfold component_error. destruct (_ || _); [done|].
  assert (forallb fs_encodable c = true) as ->.
  { apply forallb_forall. intros x Hx%list_elem_of_In.
    unfold path_text_ok in Hc. rewrite Forall_forall in Hc.
    by apply Hc. }
  cbn [negb].
  destruct (existsb (N.eqb 0) c) eqn:E; [|done].
  apply existsb_exists in E as (x & Hx%list_elem_of_In & Hx0%N.eqb_eq).
  unfold path_text_ok in Hc. rewrite Forall_forall in Hc.
  by destruct (Hc x Hx).
Qed.

Lemma resolve_steps_ok acc cs :
  Forall path_text_ok cs → ∃ p, resolve_steps acc cs = Ok p.
Proof.
  intros H. revert acc. induction H as [|c cs Hc _ IH]; intros acc.
  - by exists acc.
  - cbn [resolve_steps]. rewrite (component_error_ok _ Hc). apply IH.
Qed.

(** A text without U+0000 and without a stray surrogate resolves. *)
Lemma resolve_under_ok root s :
  path_text_ok s → ∃ p, resolve_under root s = Ok p.
Proof.
  intros Hs. apply resolve_steps_ok. apply Forall_forall. intros w Hw.
  apply Forall_forall. intros c Hc. unfold path_text_ok in Hs.
  rewrite Forall_forall in Hs. apply Hs. by eapply split_on_subseteq.
Qed.

Lemma wf_entries_parse es :
  Forall wf_entry es → ∃ its, Forall2 parses es its.
Proof.
  induction 1 as [|e es (o & s & d & -> & Hs & Hd & Hsok & Hdok) _ [its IH]].
  - exists []. constructor.
  - destruct (resolve_under_ok kit_root s Hsok) as [p1 E1].
    destruct (resolve_under_ok dest_root d Hdok) as [p2 E2].
    eexists (_ :: its). constructor; [|done].
    unfold parse_copy_item. rewrite Hs, Hd. simpl. rewrite E1, E2. done.
Qed.

Lemma wf_agents_entries (agents : gmap str yaml) chosen :
  map_Forall (λ _ block, wf_block block) agents →
  Forall (λ a, is_Some (agents !! a)) chosen →
  ∃ ess, Forall2 (agent_entries agents) chosen ess
         ∧ Forall (Forall wf_entry) ess.
Proof.
  intros Hwf. induction 1 as [|a chosen [b Hb] _ (ess & IH1 & IH2)].
  - exists []. split; constructor.
  - destruct (Hwf a b Hb) as (es & Hes & Hwfes).
    exists (es :: ess). split; constructor; try done. by exists b.
Qed.

(** A manifest that follows the schema yields a plan for every selection of
    known agents. *)
Lemma build_copy_plan_wf manifest agents_selected :
  wf_manifest manifest →
  (is_all agents_selected
   ∨ ∃ agents, agents_of manifest = Some agents
               ∧ Forall (λ a, is_Some (agents !! a)) agents_selected) →
  ∃ items available,
    build_copy_plan py_repr kit_root dest_root manifest agents_selected
    = Ok (items, available).
Proof.
  intros (Hexts & (cs & Hcs & Hwfcs) & (agents & Hagents & Hwf)) Hsel.
  assert (∃ chosen, chosen_for agents agents_selected chosen
                    ∧ Forall (λ a, is_Some (agents !! a)) chosen)
    as (chosen & Hchosen & Hknown).
  { destruct (decide (is_all agents_selected)) as [Hall|Hall].
    - exists (sorted (keys agents)). split.
      + left. split; [done|apply sorted_names_keys].
      + apply Forall_forall. intros a. by rewrite elem_of_sorted_keys.
    - exists agents_selected. split; [by right|].
      destruct Hsel as [?|(agents' & Hagents' & ?)]; [done|].
      rewrite Hagents in Hagents'. by injection Hagents' as <-. }
  destruct (wf_agents_entries agents chosen Hwf Hknown) as (ess & Hess & Hwfess).
  destruct (wf_entries_parse (cs ++ concat ess)) as [items Hitems].
  { apply Forall_app. split; [done|]. by apply Forall_concat. }
  exists items, (sorted (keys agents)). apply build_copy_plan_ok_iff.
  split; [done|]. exists agents, chosen, cs, ess.
  split_and!; try done. apply sorted_names_keys.
Qed.

(** C9. For every manifest that follows the schema, the [src] and [dst] of
    its entries being texts that can name a path (without U+0000 and
    without a stray surrogate, for which resolving the path raises),
    [build_copy_plan] with the empty selection returns; its plan holds one
    item for each entry of [common.copy], in order, and nothing else; and it
    returns with it the list of all agent names in ascending order. *)
Theorem build_copy_plan_empty_selection manifest :
  wf_manifest manifest →
  ∃ agents cs items available,
    agents_of manifest = Some agents
    ∧ common_entries manifest = Some cs
    ∧ Forall2 parses cs items
    ∧ sorted_names agents available
    ∧ build_copy_plan py_repr kit_root dest_root manifest []
      = Ok (items, available).
Proof.
  intros Hwf.
  destruct (build_copy_plan_wf manifest [] Hwf) as (items & available & Hok).
  { right. destruct Hwf as (_ & _ & agents & Hagents & _).
    exists agents. split; [done|constructor]. }
  pose proof Hok as Hok'.
  apply build_copy_plan_ok_iff
    in Hok' as (_ & agents & chosen & cs & ess
                & Hagents & Hav & Hchosen & Hcs & Hess & Hits).
  destruct Hchosen as [[Hall _]|[_ ->]]; [done|].
  inversion Hess; subst. simpl in Hits. rewrite app_nil_r in Hits.
  exists agents, cs, items, available. by split_and!.
Qed.

End Plan.

Lemma example_manifest_wf : wf_manifest example_manifest.
Proof.
  assert (Hentry : ∀ s d,
            path_text_ok (ustr s) → path_text_ok (ustr d) →
            wf_entry (example_entry s d)).
  { intros s d Hs Hd. eexists _, _, _.
    split_and!; [reflexivity|by vm_compute|by vm_compute|done|done]. }
  split_and!.
  - by vm_compute.
  - exists [example_entry "AGENT.md" "AGENT.md"].
    split; [by vm_compute|]. repeat constructor.
    apply Hentry; by apply (bool_decide_unpack _).
  - exists example_agents. split; [by vm_compute|].
    apply map_Forall_insert_2; [|apply map_Forall_insert_2;
                                  [|apply map_Forall_empty]].
    + exists [example_entry "trae/rules.md" ".trae/rules.md"].
      split; [by vm_compute|]. repeat constructor.
      apply Hentry; by apply (bool_decide_unpack _).
    + eexists [example_entry "ag/a.md" ".ag/a.md"; YMap _].
      split; [by vm_compute|].
      constructor; [apply Hentry; by apply (bool_decide_unpack _)|].
      constructor; [|constructor].
      eexists _, _, _.
      split_and!; [reflexivity|by vm_compute|by vm_compute|..];
        by apply (bool_decide_unpack _).
Qed.

Lemma build_copy_plan_unknown_witness :
  render_extensions_ok example_manifest
  ∧ agents_of example_manifest = Some example_agents
  ∧ ¬ is_all [ustr "trae"; ustr "nope"; ustr "antigravity"; ustr "zz"]
  ∧ (Exists (λ a, example_agents !! a = None)
       [ustr "trae"; ustr "nope"; ustr "antigravity"; ustr "zz"] →
     ∃ available,
       sorted_names example_agents available
       ∧ build_copy_plan example_repr [ustr "kit"] [ustr "dest"]
           example_manifest
           [ustr "trae"; ustr "nope"; ustr "antigravity"; ustr "zz"]
         = Raise (ValueError
                    (UnknownAgents
                       (filter (λ a, example_agents !! a = None)
                          [ustr "trae"; ustr "nope"; ustr "antigravity";
                           ustr "zz"])
                       available))).
Proof.
  assert (H1 : render_extensions_ok example_manifest) by (by vm_compute).
  assert (H2 : agents_of example_manifest = Some example_agents)
    by (by vm_compute).
  assert (H3 : ¬ is_all [ustr "trae"; ustr "nope"; ustr "antigravity";
                         ustr "zz"]) by (by vm_compute).
  split_and!; [exact H1|exact H2|exact H3|].
  exact (proj1 (build_copy_plan_unknown example_repr [ustr "kit"] [ustr "dest"]
                  example_manifest example_agents _ H1 H2 H3)).
Defined.

Lemma build_copy_plan_empty_selection_witness :
  wf_manifest example_manifest
  ∧ ∃ agents cs items available,
      agents_of example_manifest = Some agents
      ∧ common_entries example_manifest = Some cs
      ∧ Forall2 (λ e it, parse_copy_item example_repr [ustr "kit"]
                           [ustr "dest"] e = Ok it) cs items
      ∧ sorted_names agents available
      ∧ build_copy_plan example_repr [ustr "kit"] [ustr "dest"]
          example_manifest [] = Ok (items, available).
Proof.
  split; [exact example_manifest_wf|].
  exact (build_copy_plan_empty_selection example_repr [ustr "kit"]
           [ustr "dest"] example_manifest example_manifest_wf).
Defined.

Example build_copy_plan_example_all :
  build_copy_plan example_repr [ustr "kit"] [ustr "dest"] example_manifest
    [ustr "all"]
  = Ok ([mkCopyItem [ustr "kit"; ustr "AGENT.md"]
           [ustr "dest"; ustr "AGENT.md"] (ustr "copy") false;
         mkCopyItem [ustr "kit"; ustr "ag"; ustr "a.md"]
           [ustr "dest"; ustr ".ag"; ustr "a.md"] (ustr "copy") false;
         mkCopyItem [ustr "kit"; ustr "gi"]
           [ustr "dest"; ustr ".gitignore"] (ustr "merge_gitignore") true;
         mkCopyItem [ustr "kit"; ustr "trae"; ustr "rules.md"]
           [ustr "dest"; ustr ".trae"; ustr "rules.md"] (ustr "copy") false],
        [ustr "antigravity"; ustr "trae"]).
Proof. by vm_compute. Qed.

Example build_copy_plan_example_explicit :
  build_copy_plan example_repr [ustr "kit"] [ustr "dest"] example_manifest
    [ustr "trae"; ustr "antigravity"]
  = Ok ([mkCopyItem [ustr "kit"; ustr "AGENT.md"]
           [ustr "dest"; ustr "AGENT.md"] (ustr "copy") false;
         mkCopyItem [ustr "kit"; ustr "trae"; ustr "rules.md"]
           [ustr "dest"; ustr ".trae"; ustr "rules.md"] (ustr "copy") false;
         mkCopyItem [ustr "kit"; ustr "ag"; ustr "a.md"]
           [ustr "dest"; ustr ".ag"; ustr "a.md"] (ustr "copy") false;
         mkCopyItem [ustr "kit"; ustr "gi"]
           [ustr "dest"; ustr ".gitignore"] (ustr "merge_gitignore") true],
        [ustr "antigravity"; ustr "trae"]).
Proof. by vm_compute. Qed.

Example build_copy_plan_example_unknown :
  build_copy_plan example_repr [ustr "kit"] [ustr "dest"] example_manifest
    [ustr "trae"; ustr "nope"; ustr "antigravity"; ustr "zz"]
  = Raise (ValueError (UnknownAgents [ustr "nope"; ustr "zz"]
                         [ustr "antigravity"; ustr "trae"])).
Proof. by vm_compute. Qed.

(** An entry whose [src] holds U+0000 stops the plan, whatever is selected. *)
Example build_copy_plan_example_null :
  build_copy_plan example_repr [ustr "kit"] [ustr "dest"]
    {[ ustr "common" :=
         YMap {[ ustr "copy" :=
                   YList [YMap {[ ustr "src" := YStr [97; 0];
                                  ustr "dst" := YStr [98] ]}] ]} ]}
    []
  = Raise (ValueError EmbeddedNullByte).
Proof. by vm_compute. Qed.

(** ** The monad *)

Lemma bind_Ok {A B} (m : M A) (f : A → M B) w a w' :
  m w = (Ok a, w') → (m ≫= f) w = f a w'.
Proof. unfold mbind, M_bind. by intros ->. Qed.

Lemma bind_Raise {A B} (m : M A) (f : A → M B) w e w' :
  m w = (Raise e, w') → (m ≫= f) w = (Raise e, w').
Proof. unfold mbind, M_bind. by intros ->. Qed.

Lemma set_root_id w : set_root (root w) w = w.
Proof. by destruct w. Qed.

(** ** Looking up *)

Lemma fs_lookup_File_inv p d st x :
  fs_lookup p (File d st) = Some x → p = [] ∧ x = File d st.
Proof. destruct p; [by intros [= <-]|done]. Qed.

Lemma fs_lookup_cons c p es :
  fs_lookup (c :: p) (Dir es) = es !! c ≫= fs_lookup p.
Proof. done. Qed.

(** What exists lies in a directory. *)
Lemma fs_lookup_parent p n x :
  fs_lookup p n = Some x → p ≠ [] →
  ∃ es, fs_lookup (removelast p) n = Some (Dir es).
Proof.
  revert n. induction p as [|c p IH]; intros n Hx Hne; [done|].
  destruct n as [d st|es]; [done|]. rewrite fs_lookup_cons in Hx.
  destruct (es !! c) as [n1|] eqn:Ec; [|done]. simpl in Hx.
  destruct p as [|c' p]; [by exists es|].
  destruct (IH n1 Hx ltac:(done)) as [es1 H1].
  exists es1. change (removelast (c :: c' :: p)) with (c :: removelast (c' :: p)).
  by rewrite fs_lookup_cons, Ec.
Qed.

(** ** Creating directories *)

Lemma mkdirs_existing full p es es0 :
  fs_lookup p (Dir es) = Some (Dir es0) → mkdirs full p es = Ok es.
Proof.
  revert es. induction p as [|c p IH]; intros es H; [done|].
  rewrite fs_lookup_cons in H.
  destruct (es !! c) as [n1|] eqn:Ec; [|done]. simpl in H.
  destruct n1 as [d st|es1]; [by apply fs_lookup_File_inv in H as [_ ?]|].
  cbn [mkdirs]. rewrite Ec, (IH es1 H). simpl. by rewrite insert_id.
Qed.

Lemma ensure_parent_existing dst w n :
  lookup_path dst w = Some n → ensure_parent dst w = (Ok tt, w).
Proof.
  unfold lookup_path, ensure_parent, mkdir_parents, update_root, path_parent.
  intros H. destruct (decide (dst = [])) as [->|Hne].
  { simpl. by rewrite set_root_id. }
  destruct (fs_lookup_parent _ _ _ H Hne) as [es0 H0].
  by rewrite (mkdirs_existing _ _ _ _ H0), set_root_id.
Qed.

Lemma mkdirs_lookup full p es es' :
  mkdirs full p es = Ok es' → ∃ e, fs_lookup p (Dir es') = Some (Dir e).
Proof.
  revert es es'. induction p as [|c p IH]; intros es es'; [by eauto|].
  cbn [mkdirs]. destruct (es !! c) as [[d st|es1]|] eqn:Ec; [done|..].
  - destruct (mkdirs full p es1) as [es1'| |] eqn:E1; [|done..].
    intros [= <-]. rewrite fs_lookup_cons, lookup_insert_eq. simpl. eauto.
  - destruct (mkdirs full p ∅) as [es1'| |] eqn:E1; [|done..].
    intros [= <-]. rewrite fs_lookup_cons, lookup_insert_eq. simpl. eauto.
Qed.

Lemma fs_lookup_empty q d st : fs_lookup q (Dir ∅) ≠ Some (File d st).
Proof. destruct q; [done|]. by rewrite fs_lookup_cons, lookup_empty. Qed.

(** Creating directories neither adds, removes nor changes a regular file. *)
Lemma mkdirs_frame full p es es' q d st :
  mkdirs full p es = Ok es' →
  fs_lookup q (Dir es') = Some (File d st)
  ↔ fs_lookup q (Dir es) = Some (File d st).
Proof.
  revert es es' q. induction p as [|c p IH]; intros es es' q.
  { by intros [= <-]. }
  cbn [mkdirs]. destruct (es !! c) as [[d0 st0|es1]|] eqn:Ec; [done|..].
  - destruct (mkdirs full p es1) as [es1'| |] eqn:E1; [|done..].
    intros [= <-]. destruct q as [|k q]; [done|].
    rewrite !fs_lookup_cons. destruct (decide (c = k)) as [->|Hk].
    + rewrite lookup_insert_eq, Ec. simpl. by apply IH.
    + by rewrite lookup_insert_ne.
  - destruct (mkdirs full p ∅) as [es1'| |] eqn:E1; [|done..].
    intros [= <-]. destruct q as [|k q]; [done|].
    rewrite !fs_lookup_cons. destruct (decide (c = k)) as [->|Hk].
    + rewrite lookup_insert_eq, Ec. simpl. rewrite (IH _ _ q E1).
      split; [|done]. intros H. by apply fs_lookup_empty in H.
    + by rewrite lookup_insert_ne.
Qed.

(** ** Changing one node *)

Lemma option_bind_Some {A} (o : option A) : o ≫= Some = o.
Proof. by destruct o. Qed.

Lemma alter_in_lookup full c p f es es' :
  alter_in full c p f es = Ok es' →
  ∃ n, f (fs_lookup (c :: p) (Dir es)) = Ok n
       ∧ fs_lookup (c :: p) (Dir es') = Some n.
Proof.
  revert c es es'. induction p as [|c' p IH]; intros c es es'.
  - cbn [alter_in]. rewrite fs_lookup_cons.
    change (fs_lookup []) with (@Some node). rewrite option_bind_Some.
    destruct (f (es !! c)) as [n| |] eqn:Ef; [|done..].
    intros [= <-]. exists n. split; [done|].
    rewrite fs_lookup_cons, lookup_insert_eq. done.
  - cbn [alter_in]. destruct (es !! c) as [[d st|es1]|] eqn:Ec; [done| |done].
    destruct (alter_in full c' p f es1) as [es1'| |] eqn:E1; [|done..].
    intros [= <-]. destruct (IH _ _ _ E1) as (n & Hf & Hn).
    exists n. rewrite (fs_lookup_cons c), Ec. split; [done|].
    by rewrite (fs_lookup_cons c), lookup_insert_eq.
Qed.

Lemma alter_in_ok full c p f es entries n :
  fs_lookup (removelast (c :: p)) (Dir es) = Some (Dir entries) →
  f (fs_lookup (c :: p) (Dir es)) = Ok n →
  ∃ es', alter_in full c p f es = Ok es'.
Proof.
  revert c es. induction p as [|c' p IH]; intros c es Hpar Hf.
  - cbn [alter_in]. rewrite fs_lookup_cons in Hf.
    change (fs_lookup []) with (@Some node) in Hf.
    rewrite option_bind_Some in Hf. rewrite Hf. simpl. eauto.
  - change (removelast (c :: c' :: p)) with (c :: removelast (c' :: p)) in Hpar.
    rewrite fs_lookup_cons in Hpar, Hf.
    destruct (es !! c) as [n1|] eqn:Ec; [|done]. simpl in Hpar, Hf.
    destruct n1 as [d st|es1].
    { by apply fs_lookup_File_inv in Hpar as [_ ?]. }
    destruct (IH c' es1 Hpar Hf) as [es1' E1].
    cbn [alter_in]. rewrite Ec, E1. simpl. eauto.
Qed.

(** A change of the node at [c :: p] that keeps directories neither adds,
    removes nor changes a regular file elsewhere. *)
Lemma alter_in_frame full c p f es es' q d st :
  keeps_dirs f →
  alter_in full c p f es = Ok es' → q ≠ c :: p →
  fs_lookup q (Dir es') = Some (File d st)
  ↔ fs_lookup q (Dir es) = Some (File d st).
Proof.
  intros Hf. revert c es es' q. induction p as [|c' p IH]; intros c es es' q.
  - cbn [alter_in].
    destruct (f (es !! c)) as [n| |] eqn:Ef; [|done..].
    intros [= <-] Hq. destruct q as [|k q]; [done|].
    rewrite !fs_lookup_cons. destruct (decide (c = k)) as [->|Hk].
    + rewrite lookup_insert_eq. simpl.
      assert (q ≠ []) by (intros ->; done).
      specialize (Hf _ _ Ef).
      destruct (es !! k) as [[d0 st0|e]|]; simpl.
      * destruct Hf as (d1 & st1 & ->). by destruct q.
      * by subst.
      * destruct Hf as (d1 & st1 & ->). by destruct q.
    + by rewrite lookup_insert_ne.
  - cbn [alter_in]. destruct (es !! c) as [[d0 st0|es1]|] eqn:Ec; [done| |done].
    destruct (alter_in full c' p f es1) as [es1'| |] eqn:E1; [|done..].
    intros [= <-] Hq. destruct q as [|k q]; [done|].
    rewrite !fs_lookup_cons. destruct (decide (c = k)) as [->|Hk].
    + rewrite lookup_insert_eq, Ec. simpl. apply (IH _ _ _ _ E1). congruence.
    + by rewrite lookup_insert_ne.
Qed.

(** A change of the node at [p], run on the world: it goes through when the
    directory of [p] is there and the change accepts the node, and then
    nothing but that node is different. *)
Lemma update_alter_run p f w n :
  p ≠ [] → keeps_dirs f →
  (∃ e, lookup_path (path_parent p) w = Some (Dir e)) →
  f (lookup_path p w) = Ok n →
  ∃ w', update_root (fs_alter p f) w = (Ok tt, w') ∧ touched p n w w'.
Proof.
  intros Hne Hkd [e Hpar] Hfn. unfold update_root, lookup_path in *.
  destruct p as [|c p]; [done|]. cbn [fs_alter].
  destruct (alter_in_ok (c :: p) c p f (root w) e n Hpar Hfn) as [es' E].
  rewrite E. eexists. split; [done|].
  destruct (alter_in_lookup _ _ _ _ _ _ E) as (n' & Hf' & Hn').
  rewrite Hfn in Hf'. injection Hf' as <-.
  split_and!; try done.
  intros q d st Hq. unfold file_at, lookup_path. simpl.
  by apply (alter_in_frame (c :: p) c p f).
Qed.

Lemma touched_parent p n w w' :
  p ≠ [] → touched p n w w' →
  ∃ e, lookup_path (path_parent p) w' = Some (Dir e).
Proof. intros Hne (H & _). by eapply fs_lookup_parent. Qed.

Lemma touched_trans p n1 n2 w w1 w2 :
  touched p n1 w w1 → touched p n2 w1 w2 → touched p n2 w w2.
Proof.
  intros (_ & Hf1 & Ho1 & Hc1 & Hu1) (Hn2 & Hf2 & Ho2 & Hc2 & Hu2).
  split_and!; try congruence.
  intros q d st Hq. by rewrite (Hf2 q d st Hq), (Hf1 q d st Hq).
Qed.

(** ** Reading *)

Lemma fs_read_file full p n d st :
  fs_lookup p n = Some (File d st) → fs_read full p n = Ok (d, st).
Proof.
  revert n. induction p as [|c p IH]; intros n.
  - intros [= ->]. done.
  - destruct n as [d0 st0|es]; [done|]. rewrite fs_lookup_cons. simpl.
    destruct (es !! c) as [n1|]; [|done]. simpl. apply IH.
Qed.

Lemma read_bytes_file p w d st :
  file_at p w d st → read_bytes p w = (Ok d, w).
Proof.
  unfold file_at, lookup_path, read_bytes. intros H.
  by rewrite (fs_read_file p p _ d st H).
Qed.

Lemma read_text_file p w d st txt :
  file_at p w d st → utf8_decode d = Some txt →
  read_text p w = (Ok (universal_newlines txt), w).
Proof.
  intros H Hd. unfold read_text.
  rewrite (bind_Ok _ _ _ _ _ (read_bytes_file _ _ _ _ H)). by rewrite Hd.
Qed.

Lemma read_text_undecodable p w d st :
  file_at p w d st → utf8_decode d = None →
  read_text p w = (Raise UnicodeDecodeError, w).
Proof.
  intros H Hd. unfold read_text.
  rewrite (bind_Ok _ _ _ _ _ (read_bytes_file _ _ _ _ H)). by rewrite Hd.
Qed.

Lemma path_exists_Some p w n :
  lookup_path p w = Some n → path_exists p w = (Ok true, w).
Proof.
  unfold path_exists. intros ->. by rewrite bool_decide_eq_true_2.
Qed.

Lemma path_exists_None p w :
  lookup_path p w = None → path_exists p w = (Ok false, w).
Proof.
  unfold path_exists. intros ->. rewrite bool_decide_eq_false_2; [done|].
  by intros [? ?].
Qed.

Lemma file_at_nonroot p w d st : file_at p w d st → p ≠ [].
Proof. by intros H ->. Qed.

Lemma ensure_parent_dir dst w w1 :
  ensure_parent dst w = (Ok tt, w1) →
  (∃ e, lookup_path (path_parent dst) w1 = Some (Dir e))
  ∧ stdout w1 = stdout w ∧ clock w1 = clock w ∧ umask w1 = umask w
  ∧ ∀ q d st, file_at q w1 d st ↔ file_at q w d st.
Proof.
  unfold ensure_parent, mkdir_parents, update_root.
  destruct (mkdirs _ _ (root w)) as [es'| |] eqn:E; [|done..].
  intros [= <-]. split_and!; try done.
  - by apply mkdirs_lookup in E.
  - intros q d st. by apply (mkdirs_frame _ _ _ _ q d st) in E.
Qed.

(** ** Writing *)

Lemma open_append_run p w :
  (∃ e, lookup_path (path_parent p) w = Some (Dir e)) →
  (lookup_path p w = None ∨ ∃ d st, file_at p w d st) →
  ∃ w' d st,
    open_append p w = (Ok tt, w') ∧ touched p (File d st) w w'
    ∧ match lookup_path p w with
      | Some (File d0 st0) => d = d0 ∧ st = st0
      | _ => d = []
      end.
Proof.
  intros Hpar Hp. unfold open_append.
  assert (Hne : p ≠ []).
  { destruct Hp as [Hp|(d & st & Hp)]; intros ->; done. }
  set (f := λ o : option node, _).
  assert (Hkd : keeps_dirs f).
  { intros [[]|] n; simpl; intros [= <-]; eauto. }
  destruct Hp as [Hp|(d & st & Hp)].
  - destruct (update_alter_run p f w
                (File [] (mkStat (N.ldiff 438 (umask w)) (clock w)))
                Hne Hkd Hpar) as (w' & E & T).
    { by rewrite Hp. }
    exists w'. eexists _, _. split_and!; [done|exact T|]. by rewrite Hp.
  - destruct (update_alter_run p f w (File d st) Hne Hkd Hpar) as (w' & E & T).
    { unfold file_at in Hp. by rewrite Hp. }
    exists w', d, st. split_and!; [done|done|].
    unfold file_at in Hp. by rewrite Hp.
Qed.

Lemma open_trunc_run p w :
  (∃ e, lookup_path (path_parent p) w = Some (Dir e)) →
  (lookup_path p w = None ∨ ∃ d st, file_at p w d st) →
  ∃ w' st, open_trunc p w = (Ok tt, w') ∧ touched p (File [] st) w w'.
Proof.
  intros Hpar Hp. unfold open_trunc.
  assert (Hne : p ≠ []).
  { destruct Hp as [Hp|(d & st & Hp)]; intros ->; done. }
  set (f := λ o : option node, _).
  assert (Hkd : keeps_dirs f).
  { intros [[]|] n; simpl; intros [= <-]; eauto. }
  destruct Hp as [Hp|(d & st & Hp)].
  - destruct (update_alter_run p f w
                (File [] (mkStat (N.ldiff 438 (umask w)) (clock w)))
                Hne Hkd Hpar) as (w' & E & T).
    { by rewrite Hp. }
    exists w'. eexists. split; [done|exact T].
  - destruct (update_alter_run p f w (File [] (mkStat (st_mode st) (clock w)))
                Hne Hkd Hpar) as (w' & E & T).
    { unfold file_at in Hp. by rewrite Hp. }
    exists w'. eexists. split; [done|exact T].
Qed.

Lemma write_bytes_run p bs w d st :
  file_at p w d st →
  ∃ w', write_bytes p bs w = (Ok tt, w')
        ∧ touched p (File (d ++ bs) (mkStat (st_mode st) (clock w))) w w'.
Proof.
  intros Hp. unfold write_bytes.
  set (f := λ o : option node, _).
  assert (Hkd : keeps_dirs f).
  { intros [[]|] n; simpl; intros [= <-]; eauto. }
  apply (update_alter_run p f w); [by eapply file_at_nonroot|done| |].
  - eapply fs_lookup_parent; [exact Hp|by eapply file_at_nonroot].
  - unfold file_at in Hp. by rewrite Hp.
Qed.

Lemma write_str_run p s bs w d st :
  file_at p w d st → utf8_encode s = Some bs →
  ∃ w', write_str p s w = (Ok tt, w')
        ∧ touched p (File (d ++ bs) (mkStat (st_mode st) (clock w))) w w'.
Proof. intros Hp Hs. unfold write_str. rewrite Hs. by apply write_bytes_run. Qed.

Lemma copystat_run src dst w sd sst d st :
  file_at src w sd sst → file_at dst w d st →
  ∃ w', copystat src dst w = (Ok tt, w') ∧ touched dst (File d sst) w w'.
Proof.
  intros Hs Hd. unfold copystat. unfold file_at in Hs. rewrite Hs.
  set (f := λ o : option node, _).
  assert (Hkd : keeps_dirs f).
  { intros [[]|] n; simpl; intros [= <-]; eauto. }
  apply (update_alter_run dst f w); [by eapply file_at_nonroot|done| |].
  - eapply fs_lookup_parent; [exact Hd|by eapply file_at_nonroot].
  - unfold file_at in Hd. by rewrite Hd.
Qed.

(** ** [merge_gitignore] *)

Lemma existing_bytes_nondir dst w ob :
  existing_bytes dst w ob →
  lookup_path dst w = None ∨ ∃ d st, file_at dst w d st.
Proof. intros [[? _]|[st ?]]; eauto. Qed.

Lemma read_existing {B} dst w ob otxt (K : list str → M B) :
  existing_bytes dst w ob → utf8_decode ob = Some otxt →
  (e ← path_exists dst;
   existing ←
     (if e : bool
      then txt ← read_text dst; mret (splitlines txt)
      else mret []);
   K existing) w = K (splitlines otxt) w.
Proof.
  intros [[Hnone ->]|[ost Hfile]] Hodec.
  - injection Hodec as <-.
    by rewrite (bind_Ok _ _ _ _ _ (path_exists_None _ _ Hnone)).
  - rewrite (bind_Ok _ _ _ _ _ (path_exists_Some _ _ _ Hfile)).
    cbn iota.
    rewrite (bind_Ok _ _ _ _ _
               (bind_Ok _ _ _ _ _ (read_text_file _ _ _ _ _ Hfile Hodec))).
    by rewrite splitlines_universal_newlines.
Qed.

(** One run of [merge_gitignore], once the directory of the destination is
    there, the snippet is a readable text file and the destination is
    absent or a readable text file. *)
Lemma merge_gitignore_run src dst force w w1 sb sst stxt ob otxt :
  ensure_parent dst w = (Ok tt, w1) →
  file_at src w1 sb sst → utf8_decode sb = Some stxt →
  existing_bytes dst w1 ob → utf8_decode ob = Some otxt →
  ∃ w',
    merge_gitignore src dst force w = (Ok tt, w')
    ∧ match to_add (splitlines stxt) (splitlines otxt) with
      | [] => w' = log LMergeNoChanges w1
      | _ :: _ =>
          ∃ added st',
            utf8_encode
              ((if needs_newline (splitlines otxt) then [10] else [])
               ++ join_lines (to_add (splitlines stxt) (splitlines otxt))
               ++ [10]) = Some added
            ∧ file_at dst w' (ob ++ added) st'
            ∧ same_files_except dst w1 w'
            ∧ stdout w'
              = stdout w1
                ++ [LMerge dst
                      (length (to_add (splitlines stxt) (splitlines otxt)))]
            ∧ clock w' = clock w1 ∧ umask w' = umask w1
      end.
Proof.
  intros Hpar Hsrc Hsdec Hdst Hodec.
  destruct (ensure_parent_dir _ _ _ Hpar) as (Hdir & _).
  unfold merge_gitignore.
  rewrite (bind_Ok _ _ _ _ _ Hpar).
  rewrite (bind_Ok _ _ _ _ _ (read_text_file _ _ _ _ _ Hsrc Hsdec)).
  rewrite splitlines_universal_newlines.
  rewrite (read_existing dst w1 ob otxt _ Hdst Hodec). cbv zeta.
  pose proof (utf8_decode_valid _ _ Hsdec) as Hvalid.
  destruct (to_add (splitlines stxt) (splitlines otxt)) as [|l ls] eqn:Emiss.
  { eexists. split; [done|done]. }
  rewrite <- Emiss.
  (* the file is opened for appending *)
  destruct (open_append_run dst w1 Hdir (existing_bytes_nondir _ _ _ Hdst))
    as (w2 & d2 & st2 & E2 & T2 & Hd2).
  rewrite (bind_Ok _ _ _ _ _ E2).
  assert (d2 = ob) as ->.
  { destruct Hdst as [[Hnone ->]|[ost Hfile]].
    - by rewrite Hnone in Hd2.
    - unfold file_at in Hfile. rewrite Hfile in Hd2. by destruct Hd2. }
  assert (F2 : file_at dst w2 ob st2) by (by destruct T2).
  (* the separating newline *)
  assert (∃ w3 st3 sepb,
            (if needs_newline (splitlines otxt)
             then write_str dst [10] else mret tt) w2 = (Ok tt, w3)
            ∧ utf8_encode (if needs_newline (splitlines otxt)
                           then [10] else []) = Some sepb
            ∧ touched dst (File (ob ++ sepb) st3) w2 w3)
    as (w3 & st3 & sepb & E3 & Hsep & T3).
  { destruct (needs_newline (splitlines otxt)).
    - destruct (write_str_run dst [10] [10] w2 ob st2 F2 eq_refl)
        as (w3 & E3 & T3). eauto 10.
    - exists w2, st2, []. split_and!; [done|done|]. rewrite app_nil_r.
      destruct T2 as (? & ? & ? & ? & ?). by split_and!. }
  rewrite (bind_Ok _ _ _ _ _ E3).
  assert (F3 : file_at dst w3 (ob ++ sepb) st3) by (by destruct T3).
  (* the lines *)
  destruct (proj1 (utf8_encode_valid _)
              (to_add_valid stxt (splitlines otxt) Hvalid)) as [lb Hlb].
  destruct (write_str_run dst _ lb w3 _ st3 F3 Hlb) as (w4 & E4 & T4).
  rewrite (bind_Ok _ _ _ _ _ E4).
  exists (log (LMerge dst (length (to_add (splitlines stxt) (splitlines otxt))))
            w4).
  split; [done|].
  pose proof (touched_trans _ _ _ _ _ _ T2 (touched_trans _ _ _ _ _ _ T3 T4))
    as (F4 & Hfr & Hout & Hclk & Hum).
  exists (sepb ++ lb). eexists.
  split_and!.
  - rewrite utf8_encode_app, Hlb.
    destruct (needs_newline (splitlines otxt)); by injection Hsep as <-.
  - unfold file_at, lookup_path. cbn [log root].
    rewrite app_assoc. exact F4.
  - exact Hfr.
  - cbn [log stdout]. by rewrite Hout.
  - done.
  - done.
Qed.

(** ** What a merge does *)

Lemma bind_inv {A B} (m : M A) (f : A → M B) w b w' :
  (m ≫= f) w = (Ok b, w') → ∃ a w1, m w = (Ok a, w1) ∧ f a w1 = (Ok b, w').
Proof.
  unfold mbind, M_bind. destruct (m w) as [[a| |] w1]; [eauto|done..].
Qed.

Lemma fs_read_inv full p n d st :
  fs_read full p n = Ok (d, st) → fs_lookup p n = Some (File d st).
Proof.
  revert n. induction p as [|c p IH]; intros [d0 st0|es]; cbn; try done.
  - by intros [= -> ->].
  - destruct (es !! c) as [n'|]; [|done]. cbn. apply IH.
Qed.

Lemma read_text_inv p w t w' :
  read_text p w = (Ok t, w') →
  w' = w ∧ ∃ d st s, file_at p w d st ∧ utf8_decode d = Some s
                     ∧ t = universal_newlines s.
Proof.
  unfold read_text. intros H.
  apply bind_inv in H as (bs & w1 & Hb & H).
  unfold read_bytes in Hb.
  destruct (fs_read p p (Dir (root w))) as [[d st]| |] eqn:E; [|done..].
  cbn in Hb. injection Hb as <- <-.
  destruct (utf8_decode d) as [s|] eqn:Ed; [|done].
  injection H as <- <-. split; [done|].
  exists d, st, s. split_and!; [|done..]. by apply fs_read_inv in E.
Qed.

(** A merge that returns had its preconditions. *)
Lemma merge_gitignore_inv src dst force w w' :
  merge_gitignore src dst force w = (Ok tt, w') →
  ∃ w1 sb sst stxt ob otxt,
    ensure_parent dst w = (Ok tt, w1)
    ∧ file_at src w1 sb sst ∧ utf8_decode sb = Some stxt
    ∧ existing_bytes dst w1 ob ∧ utf8_decode ob = Some otxt.
Proof.
  unfold merge_gitignore. intros H.
  apply bind_inv in H as ([] & w1 & Hpar & H).
  apply bind_inv in H as (txt & w2 & Hread & H).
  apply read_text_inv in Hread as (-> & sb & sst & stxt & Hsrc & Hsdec & _).
  apply bind_inv in H as (e & w3 & He & H).
  injection He as <- <-.
  apply bind_inv in H as (existing & w4 & Hex & _).
  exists w1, sb, sst, stxt.
  destruct (lookup_path dst w1) as [n|] eqn:El.
  - rewrite bool_decide_eq_true_2 in Hex by eauto.
    apply bind_inv in Hex as (otxt' & w5 & Hread & _).
    apply read_text_inv in Hread as (_ & ob & ost & otxt & Hdst & Hodec & _).
    exists ob, otxt. split_and!; try done. right. eauto.
  - exists [], []. split_and!; try done. by left.
Qed.

(** The text the code writes is the text of the specification. *)
Lemma appended_text_code existing missing :
  missing ≠ [] →
  (if needs_newline existing then [10] else []) ++ join_lines missing ++ [10]
  = appended_text existing missing.
Proof.
  intros Hne. unfold appended_text.
  by rewrite needs_newline_last, join_lines_snoc.
Qed.

(** One merge, in the terms of the specification. *)
Lemma merge_gitignore_effect src dst force w w1 sb sst stxt ob otxt :
  ensure_parent dst w = (Ok tt, w1) →
  file_at src w1 sb sst → utf8_decode sb = Some stxt →
  existing_bytes dst w1 ob → utf8_decode ob = Some otxt →
  let existing := splitlines otxt in
  let missing := missing_lines (splitlines stxt) existing in
  ∃ w',
    merge_gitignore src dst force w = (Ok tt, w')
    ∧ (missing = [] → w' = log LMergeNoChanges w1)
    ∧ (missing ≠ [] →
       ∃ added st' blank,
         utf8_decode added = Some (appended_text existing missing)
         ∧ file_at dst w' (ob ++ added) st'
         ∧ same_files_except dst w1 w'
         ∧ stdout w' = stdout w1 ++ [LMerge dst (length missing)]
         ∧ clock w' = clock w1 ∧ umask w' = umask w1
         ∧ (blank = [] ∨ blank = [[]])
         ∧ utf8_decode (ob ++ added)
           = Some (otxt ++ appended_text existing missing)
         ∧ splitlines (otxt ++ appended_text existing missing)
           = existing ++ blank ++ missing).
Proof.
  intros Hpar Hsrc Hsdec Hdst Hodec existing missing.
  destruct (merge_gitignore_run src dst force w w1 sb sst stxt ob otxt)
    as (w' & Hrun & Heff); try done.
  exists w'. split; [done|].
  rewrite to_add_missing_lines in Heff. fold existing missing in Heff.
  destruct missing as [|l ls] eqn:Em; [done|].
  split; [done|]. intros _.
  destruct Heff as (added & st' & Henc & Hfile & Hfr & Hout & Hclk & Hum).
  rewrite <- Em in *.
  assert (Hne : missing ≠ []) by (by rewrite Em).
  pose proof (to_add_lines stxt existing) as [Hbf Hnn].
  rewrite to_add_missing_lines in Hbf, Hnn. fold missing in Hbf, Hnn.
  destruct (splitlines_merge otxt missing Hne Hbf Hnn) as (blank & Hblank & Hsl).
  fold existing in Hsl.
  rewrite appended_text_code in Henc, Hsl by done.
  assert (Hdec : utf8_decode added = Some (appended_text existing missing)).
  { pose proof (utf8_decode_encode _ _ [] Henc) as H.
    rewrite app_nil_r in H. rewrite H. cbn. by rewrite app_nil_r. }
  exists added, st', blank. split_and!; try done.
  rewrite (utf8_decode_app _ _ _ Hodec), Hdec. done.
Qed.

(** What the destination reads as after the text of a merge has been
    added to it. *)
Lemma splitlines_appended (stxt otxt : str) :
  missing_lines (splitlines stxt) (splitlines otxt) ≠ [] →
  splitlines
    (otxt ++ appended_text (splitlines otxt)
               (missing_lines (splitlines stxt) (splitlines otxt)))
  = splitlines otxt
    ++ (if last_line_nonempty (splitlines otxt) && ends_in_newline otxt
        then [[]] else [])
    ++ missing_lines (splitlines stxt) (splitlines otxt).
Proof.
  intros Hne. rewrite <- appended_text_code by done.
  pose proof (to_add_lines stxt (splitlines otxt)) as [Hbf Hnn].
  rewrite to_add_missing_lines in Hbf, Hnn.
  rewrite splitlines_merge_exact by done.
  by rewrite needs_newline_last.
Qed.

(** C2.  Once the directory of the destination is there ([w1] is the world
    after [ensure_parent]), for a snippet that is a readable text file and a
    destination that is absent or a readable text file, [merge_gitignore]
    returns, and with [missing] the snippet lines that are not blank and not
    among the existing lines, in snippet order: when [missing] is empty
    nothing is written, only the no-changes line is printed; otherwise the
    destination keeps its bytes and gains the encoding of one newline
    character, written exactly when the last existing line is not empty,
    and of every missing line followed by a newline; every other file is as
    it was.  Read back, the destination has its former lines in place and
    in order, then the missing lines, with one empty line between the two
    exactly when the last existing line is not empty and the existing text
    ends with a line boundary (other than a lone carriage return); after a
    text that stops in the middle of its last line the newline only ends
    that line, and no empty line appears. *)
Theorem merge_gitignore_appends src dst force w w1 sb sst stxt ob otxt :
  ensure_parent dst w = (Ok tt, w1) →
  file_at src w1 sb sst → utf8_decode sb = Some stxt →
  existing_bytes dst w1 ob → utf8_decode ob = Some otxt →
  let snippet := splitlines stxt in
  let existing := splitlines otxt in
  let missing := filter (λ l, non_blank l ∧ l ∉ existing) snippet in
  ∃ w',
    merge_gitignore src dst force w = (Ok tt, w')
    ∧ (missing = [] → w' = log LMergeNoChanges w1)
    ∧ (missing ≠ [] →
       ∃ added st' ntxt,
         file_at dst w' (ob ++ added) st'
         ∧ utf8_decode added
           = Some ((if last_line_nonempty existing then [10] else [])
                   ++ flat_map (λ l, l ++ [10]) missing)
         ∧ same_files_except dst w1 w'
         ∧ stdout w' = stdout w1 ++ [LMerge dst (length missing)]
         ∧ utf8_decode (ob ++ added) = Some ntxt
         ∧ splitlines ntxt
           = existing
             ++ (if last_line_nonempty existing && ends_in_newline otxt
                 then [[]] else [])
             ++ missing).
Proof.
  intros Hpar Hsrc Hsdec Hdst Hodec snippet existing missing.
  destruct (merge_gitignore_effect src dst force w w1 sb sst stxt ob otxt)
    as (w' & Hrun & Hnil & Hcons); try done.
  exists w'. split_and!; [done|done|].
  intros Hne.
  destruct (Hcons Hne)
    as (added & st' & blank & Hdec & Hfile & Hfr & Hout & _ & _ & _ & Hall & _).
  exists added, st'. eexists. split_and!; [done..|].
  by apply splitlines_appended.
Qed.

Lemma ensure_parent_again dst w e :
  lookup_path (path_parent dst) w = Some (Dir e) →
  ensure_parent dst w = (Ok tt, w).
Proof.
  unfold lookup_path, ensure_parent, mkdir_parents, update_root. intros H.
  by rewrite (mkdirs_existing _ _ _ _ H), set_root_id.
Qed.

Lemma existing_bytes_inj p w a b :
  existing_bytes p w a → existing_bytes p w b → a = b.
Proof.
  unfold file_at.
  intros [[Ha ->]|[sa Ha]] [[Hb ->]|[sb Hb]]; congruence.
Qed.

(** A merge leaves behind a destination that lacks nothing of the snippet. *)
Lemma merge_gitignore_settles src dst force w w' :
  merge_gitignore src dst force w = (Ok tt, w') →
  ∃ sb sst stxt nb ntxt,
    ensure_parent dst w' = (Ok tt, w')
    ∧ file_at src w' sb sst ∧ utf8_decode sb = Some stxt
    ∧ existing_bytes dst w' nb ∧ utf8_decode nb = Some ntxt
    ∧ missing_lines (splitlines stxt) (splitlines ntxt) = [].
Proof.
  intros Hrun.
  destruct (merge_gitignore_inv _ _ _ _ _ Hrun)
    as (w1 & sb & sst & stxt & ob & otxt & Hpar & Hsrc & Hsdec & Hdst & Hodec).
  destruct (merge_gitignore_effect src dst force w w1 sb sst stxt ob otxt)
    as (w2 & Hrun2 & Hnil & Hcons); try done.
  rewrite Hrun in Hrun2. injection Hrun2 as <-.
  destruct (ensure_parent_dir _ _ _ Hpar) as ([e He] & _).
  destruct (decide (missing_lines (splitlines stxt) (splitlines otxt) = []))
    as [Hm|Hm].
  - rewrite (Hnil Hm).
    exists sb, sst, stxt, ob, otxt. split_and!; try done.
    by apply (ensure_parent_again _ _ e).
  - destruct (Hcons Hm) as (added & st' & blank & Hdec & Hfile & Hfr & _ & _
                            & _ & Hb & Hall & Hsl).
    assert (Hneq : src ≠ dst).
    { intros ->. apply Hm.
      assert (sb = ob) as -> by (eapply existing_bytes_inj; [right|]; eauto).
      assert (stxt = otxt) as -> by congruence.
      rewrite <- to_add_missing_lines. apply to_add_nil. auto. }
    exists sb, sst, stxt, (ob ++ added). eexists.
    split_and!; [|by apply Hfr|done|right; eauto|exact Hall|].
    + by eapply ensure_parent_existing.
    + rewrite Hsl, <- !to_add_missing_lines. by apply to_add_again.
Qed.

(** C3.  A merge that returned is followed by merges that change nothing:
    with either value of the overwrite flag, merging the same snippet again
    returns and leaves the world as it is, up to the no-changes line it
    prints.  The flag plays no part in the first merge either.  The merge
    only appends: the bytes the destination had are a prefix of those it
    has, and the lines it had a prefix of those it has.  And when every
    non-blank line of the snippet is among the existing lines, the merge
    writes nothing. *)
Theorem merge_gitignore_idempotent src dst force force' w w' :
  merge_gitignore src dst force w = (Ok tt, w') →
  merge_gitignore src dst force' w' = (Ok tt, log LMergeNoChanges w')
  ∧ merge_gitignore src dst force' w = (Ok tt, w')
  ∧ (∀ ob otxt,
       existing_bytes dst w ob → utf8_decode ob = Some otxt →
       ∃ added ntxt,
         existing_bytes dst w' (ob ++ added)
         ∧ utf8_decode (ob ++ added) = Some ntxt
         ∧ splitlines otxt `prefix_of` splitlines ntxt)
  ∧ (∀ w1 sb sst stxt ob otxt,
       ensure_parent dst w = (Ok tt, w1) →
       file_at src w1 sb sst → utf8_decode sb = Some stxt →
       existing_bytes dst w1 ob → utf8_decode ob = Some otxt →
       (∀ l, l ∈ splitlines stxt → non_blank l → l ∈ splitlines otxt) →
       w' = log LMergeNoChanges w1).
Proof.
  intros Hrun. split_and!.
  - destruct (merge_gitignore_settles _ _ _ _ _ Hrun)
      as (sb & sst & stxt & nb & ntxt & Hpar & Hsrc & Hsdec & Hdst & Hndec & Hm).
    destruct (merge_gitignore_effect src dst force' w' w' sb sst stxt nb ntxt)
      as (w2 & Hrun2 & Hnil & _); try done.
    by rewrite Hrun2, (Hnil Hm).
  - by rewrite <- Hrun.
  - intros ob otxt Hob Hodec.
    destruct (merge_gitignore_inv _ _ _ _ _ Hrun)
      as (w1 & sb & sst & stxt & ob1 & otxt1 & Hpar & Hsrc & Hsdec & Hdst
          & Hodec1).
    destruct (merge_gitignore_effect src dst force w w1 sb sst stxt ob1 otxt1)
      as (w2 & Hrun2 & Hnil & Hcons); try done.
    rewrite Hrun in Hrun2. injection Hrun2 as <-.
    assert (Hcase : (ob = [] ∧ otxt = []) ∨ (ob = ob1 ∧ otxt = otxt1)).
    { destruct Hob as [[_ ->]|[st Hfile]].
      - left. split; [done|]. by injection Hodec as <-.
      - right. rewrite (ensure_parent_existing _ _ _ Hfile) in Hpar.
        injection Hpar as <-.
        assert (ob = ob1) as -> by (eapply existing_bytes_inj; [right|]; eauto).
        split; congruence. }
    destruct (decide (missing_lines (splitlines stxt) (splitlines otxt1) = []))
      as [Hm|Hm].
    + assert (Hw' : existing_bytes dst w' ob1) by (by rewrite (Hnil Hm)).
      destruct Hcase as [[-> ->]|[-> ->]].
      * exists ob1, otxt1. split_and!; [done..|]. apply prefix_nil.
      * exists [], otxt1. rewrite app_nil_r. done.
    + destruct (Hcons Hm) as (added & st' & blank & _ & Hfile & _ & _ & _
                              & _ & _ & Hall & Hsl).
      destruct Hcase as [[-> ->]|[-> ->]].
      * exists (ob1 ++ added). eexists.
        split_and!; [right; eauto|exact Hall|apply prefix_nil].
      * exists added. eexists.
        split_and!; [right; eauto|exact Hall|].
        rewrite Hsl. by eexists.
  - intros w1 sb sst stxt ob otxt Hpar Hsrc Hsdec Hdst Hodec Hsub.
    destruct (merge_gitignore_effect src dst force w w1 sb sst stxt ob otxt)
      as (w2 & Hrun2 & Hnil & _); try done.
    rewrite Hrun in Hrun2. injection Hrun2 as <-.
    apply Hnil. rewrite <- to_add_missing_lines. by apply to_add_nil.
Qed.

Lemma occurrences_app l ls1 ls2 :
  occurrences l (ls1 ++ ls2) = (occurrences l ls1 + occurrences l ls2)%nat.
Proof. unfold occurrences. by rewrite filter_app, length_app. Qed.

Lemma occurrences_not_elem_of l ls : l ∉ ls → occurrences l ls = 0%nat.
Proof.
  unfold occurrences. induction ls as [|x ls IH]; [done|].
  intros [Hx Hls]%not_elem_of_cons.
  rewrite filter_cons_False by (by intros ->). auto.
Qed.

(** C10.  For a snippet that is a readable text file and a destination that
    is absent or a readable text file: a non-blank line of the snippet that
    is not among the existing lines occurs in the destination, after one
    merge, as often as it occurs in the snippet. *)
Theorem merge_gitignore_keeps_duplicates src dst force w w1 sb sst stxt ob otxt l :
  ensure_parent dst w = (Ok tt, w1) →
  file_at src w1 sb sst → utf8_decode sb = Some stxt →
  existing_bytes dst w1 ob → utf8_decode ob = Some otxt →
  non_blank l → l ∈ splitlines stxt → l ∉ splitlines otxt →
  ∃ w' nb st ntxt,
    merge_gitignore src dst force w = (Ok tt, w')
    ∧ file_at dst w' nb st ∧ utf8_decode nb = Some ntxt
    ∧ occurrences l (splitlines ntxt) = occurrences l (splitlines stxt).
Proof.
  intros Hpar Hsrc Hsdec Hdst Hodec Hnb Hin Hnotin.
  destruct (merge_gitignore_effect src dst force w w1 sb sst stxt ob otxt)
    as (w' & Hrun & _ & Hcons); try done.
  assert (Hm : missing_lines (splitlines stxt) (splitlines otxt) ≠ []).
  { intros Hm. rewrite <- to_add_missing_lines in Hm.
    apply Hnotin. by apply (proj1 (to_add_nil _ _) Hm). }
  destruct (Hcons Hm) as (added & st' & blank & _ & Hfile & _ & _ & _
                          & _ & Hb & Hall & Hsl).
  exists w', (ob ++ added), st'. eexists. split_and!; [done..|].
  rewrite Hsl, <- to_add_missing_lines.
  rewrite <- (to_add_occurrences (splitlines stxt) (splitlines otxt) l)
    by done.
  rewrite !occurrences_app, (occurrences_not_elem_of _ _ Hnotin).
  rewrite occurrences_not_elem_of; [done|].
  destruct Hb as [-> | ->]; [by apply not_elem_of_nil|].
  intros H. apply list_elem_of_singleton in H as ->.
  by apply non_blank_nonempty in Hnb.
Qed.

Lemma example_world_merge_ready :
  ensure_parent example_gitignore example_world = (Ok tt, example_world)
  ∧ file_at example_snippet example_world [120; 10; 121; 10; 10; 120; 10]
      (mkStat 420 5)
  ∧ utf8_decode [120; 10; 121; 10; 10; 120; 10]
    = Some [120; 10; 121; 10; 10; 120; 10]
  ∧ existing_bytes example_gitignore example_world [121]
  ∧ utf8_decode [121] = Some [121].
Proof.
  split_and!.
  - by apply (ensure_parent_existing _ _ (File [121] (mkStat 420 3))).
  - reflexivity.
  - reflexivity.
  - right. by exists (mkStat 420 3).
  - reflexivity.
Defined.

Lemma merge_gitignore_appends_witness :
  (ensure_parent example_gitignore example_world = (Ok tt, example_world)
   ∧ file_at example_snippet example_world [120; 10; 121; 10; 10; 120; 10]
       (mkStat 420 5)
   ∧ utf8_decode [120; 10; 121; 10; 10; 120; 10]
     = Some [120; 10; 121; 10; 10; 120; 10]
   ∧ existing_bytes example_gitignore example_world [121]
   ∧ utf8_decode [121] = Some [121])
  ∧ ∃ w' st,
      merge_gitignore example_snippet example_gitignore false example_world
      = (Ok tt, w')
      ∧ file_at example_gitignore w' [121; 10; 120; 10; 120; 10] st.
Proof.
  split; [exact example_world_merge_ready|].
  destruct example_world_merge_ready as (H1 & H2 & H3 & H4 & H5).
  destruct (merge_gitignore_appends example_snippet example_gitignore false
              example_world example_world _ _ _ _ _ H1 H2 H3 H4 H5)
    as (w' & Hrun & _ & Hcons).
  destruct Hcons as (added & st' & ntxt & Hfile & Hdec & _);
    [by vm_compute|].
  apply utf8_encode_decode in Hdec. vm_compute in Hdec.
  injection Hdec as <-. by exists w', st'.
Defined.

Lemma merge_gitignore_idempotent_witness :
  merge_gitignore example_snippet example_gitignore false example_world
  = (Ok tt, example_merged)
  ∧ merge_gitignore example_snippet example_gitignore true example_merged
    = (Ok tt, log LMergeNoChanges example_merged).
Proof.
  assert (H : merge_gitignore example_snippet example_gitignore false
                example_world = (Ok tt, example_merged)) by (by vm_compute).
  split; [exact H|].
  exact (proj1 (merge_gitignore_idempotent example_snippet example_gitignore
                  false true example_world example_merged H)).
Defined.

Lemma merge_gitignore_keeps_duplicates_witness :
  (non_blank [120]
   ∧ [120] ∈ splitlines [120; 10; 121; 10; 10; 120; 10]
   ∧ [120] ∉ splitlines [121])
  ∧ ∃ w' nb st ntxt,
      merge_gitignore example_snippet example_gitignore false example_world
      = (Ok tt, w')
      ∧ file_at example_gitignore w' nb st ∧ utf8_decode nb = Some ntxt
      ∧ occurrences [120] (splitlines ntxt) = 2%nat.
Proof.
  assert (Hnb : non_blank [120]) by (by apply Exists_cons_hd).
  assert (Hin : [120] ∈ splitlines [120; 10; 121; 10; 10; 120; 10])
    by (by apply (bool_decide_unpack _)).
  assert (Hout : [120] ∉ splitlines [121])
    by (by apply (bool_decide_unpack _)).
  split; [done|].
  destruct example_world_merge_ready as (H1 & H2 & H3 & H4 & H5).
  exact (merge_gitignore_keeps_duplicates example_snippet example_gitignore
           false example_world example_world _ _ _ _ _ [120]
           H1 H2 H3 H4 H5 Hnb Hin Hout).
Defined.

(** A destination that holds [y] without a final newline: its last line is
    not empty, and after the merge it reads [y], [x], [x], with no empty
    line between what it had and what was added. *)
Lemma merge_gitignore_blank_line_counterexample :
  existing_bytes example_gitignore example_world [121]
  ∧ utf8_decode [121] = Some [121]
  ∧ last_line_nonempty (splitlines [121]) = true
  ∧ merge_gitignore example_snippet example_gitignore false example_world
    = (Ok tt, example_merged)
  ∧ file_at example_gitignore example_merged [121; 10; 120; 10; 120; 10]
      (mkStat 420 9)
  ∧ utf8_decode [121; 10; 120; 10; 120; 10]
    = Some [121; 10; 120; 10; 120; 10]
  ∧ splitlines [121; 10; 120; 10; 120; 10] = [[121]; [120]; [120]].
Proof.
  split_and!; try by vm_compute.
  right. by exists (mkStat 420 3).
Qed.

(** The bytes of the example after the merge: [y], the newline that ends
    its line, and [x] twice. *)
Example merge_gitignore_example :
  file_at example_gitignore example_merged [121; 10; 120; 10; 120; 10]
    (mkStat 420 9)
  ∧ stdout example_merged = [LMerge example_gitignore 2].
Proof. by vm_compute. Qed.

(** ** [copy_file] *)

Lemma bind_ext {A B} (m : M A) (f g : A → M B) w :
  (∀ a w1, m w = (Ok a, w1) → f a w1 = g a w1) →
  (m ≫= f) w = (m ≫= g) w.
Proof.
  intros H. unfold mbind, M_bind.
  destruct (m w) as [[a| |] w1]; [by apply H|done..].
Qed.

Lemma is_dir_nondir p w :
  (lookup_path p w = None ∨ ∃ d st, file_at p w d st) →
  is_dir p w = (Ok false, w).
Proof.
  unfold is_dir, file_at. by intros [->|(d & st & ->)].
Qed.

Lemma path_exists_run p w :
  path_exists p w = (Ok (bool_decide (is_Some (lookup_path p w))), w).
Proof. done. Qed.

(** Reading a file that is not valid UTF-8 sends [copy_file] the way it goes
    without rendering. *)
Lemma try_render_undecodable src dst variables w sb sst :
  file_at src w sb sst → utf8_decode sb = None →
  try_except_UnicodeDecodeError
    (txt ← read_text src;
     write_text dst (render_text txt variables);;
     copystat src dst;;
     print (LRender dst);;
     mret true)
    (mret false) w
  = (Ok false, w).
Proof.
  intros Hsrc Hdec. unfold try_except_UnicodeDecodeError.
  by rewrite (bind_Raise _ _ _ _ _ (read_text_undecodable _ _ _ _ Hsrc Hdec)).
Qed.

(** [shutil.copy2] onto a path that is free or holds a regular file. *)
Lemma copy2_run src dst w sb sst :
  file_at src w sb sst → src ≠ dst →
  (∃ e, lookup_path (path_parent dst) w = Some (Dir e)) →
  (lookup_path dst w = None ∨ ∃ d st, file_at dst w d st) →
  ∃ w', copy2 src dst w = (Ok tt, w') ∧ touched dst (File sb sst) w w'.
Proof.
  intros Hsrc Hneq Hpar Hdst. unfold copy2.
  rewrite (bind_Ok _ _ _ _ _ (is_dir_nondir _ _ Hdst)). cbv zeta iota.
  rewrite (bind_Ok _ _ _ _ _ (path_exists_run _ _)).
  rewrite (bool_decide_eq_false_2 (src = dst)), andb_false_r by done.
  rewrite (bind_Ok _ _ _ _ _ (read_bytes_file _ _ _ _ Hsrc)).
  destruct (open_trunc_run dst w Hpar Hdst) as (w2 & st2 & E2 & T2).
  rewrite (bind_Ok _ _ _ _ _ E2).
  assert (F2 : file_at dst w2 [] st2) by (by destruct T2).
  destruct (write_bytes_run dst sb w2 [] st2 F2) as (w3 & E3 & T3).
  rewrite (bind_Ok _ _ _ _ _ E3).
  pose proof (touched_trans _ _ _ _ _ _ T2 T3) as T23.
  assert (F3 : file_at dst w3 sb (mkStat (st_mode st2) (clock w2)))
    by (by destruct T3).
  assert (S3 : file_at src w3 sb sst).
  { destruct T23 as (_ & Hfr & _). by apply Hfr. }
  destruct (copystat_run src dst w3 sb sst _ _ S3 F3) as (w4 & E4 & T4).
  exists w4. split; [done|]. by eapply touched_trans.
Qed.

(** C7.  When something is at the destination and the overwrite flag is
    off, [copy_file] returns without an error, whatever the source and the
    render flag are, and the world is as it was, but for the skip line
    printed: the node at the destination, content and metadata, is the one
    that was there. *)
Theorem copy_file_skips_existing src dst render variables w n :
  lookup_path dst w = Some n →
  copy_file src dst false render variables w = (Ok tt, log (LSkip dst) w)
  ∧ lookup_path dst (log (LSkip dst) w) = Some n
  ∧ root (log (LSkip dst) w) = root w.
Proof.
  intros H. split; [|done]. unfold copy_file.
  rewrite (bind_Ok _ _ _ _ _ (ensure_parent_existing _ _ _ H)).
  by rewrite (bind_Ok _ _ _ _ _ (path_exists_Some _ _ _ H)).
Qed.

(** C8.  For a source that is a regular file whose bytes are not valid
    UTF-8 ([w1] is the world once the directory of the destination is
    there): [copy_file] asked to render does what it does when not asked
    to render; and when the destination is another path that is free, or
    holds a regular file and the overwrite flag is on, it returns without
    an error, the destination holds the bytes and the metadata of the
    source, every other file is as it was, and the line printed is the one
    of a copy. *)
Theorem copy_file_undecodable src dst force variables w w1 sb sst :
  ensure_parent dst w = (Ok tt, w1) →
  file_at src w1 sb sst → utf8_decode sb = None →
  copy_file src dst force true variables w
  = copy_file src dst force false variables w
  ∧ (src ≠ dst →
     lookup_path dst w1 = None ∨ (force = true ∧ ∃ d st, file_at dst w1 d st) →
     ∃ w',
       copy_file src dst force true variables w = (Ok tt, w')
       ∧ file_at dst w' sb sst
       ∧ same_files_except dst w1 w'
       ∧ stdout w' = stdout w1 ++ [LCopy dst]).
Proof.
  intros Hpar Hsrc Hdec.
  assert (Hsame : copy_file src dst force true variables w
                  = copy_file src dst force false variables w).
  { unfold copy_file. rewrite !(bind_Ok _ _ _ _ _ Hpar).
    apply bind_ext. intros e w2 [= <- <-].
    destruct (_ && _); [done|].
    by rewrite !(bind_Ok _ _ _ _ _
                   (try_render_undecodable _ _ _ _ _ _ Hsrc Hdec)). }
  split; [exact Hsame|].
  intros Hneq Hdst. rewrite Hsame. unfold copy_file.
  rewrite (bind_Ok _ _ _ _ _ Hpar).
  rewrite (bind_Ok _ _ _ _ _ (path_exists_run _ _)).
  assert (bool_decide (is_Some (lookup_path dst w1)) && negb force = false)
    as ->.
  { destruct Hdst as [->|[-> _]]; [|by rewrite andb_false_r].
    rewrite bool_decide_eq_false_2; [done|]. by intros [? ?]. }
  assert (Hfree : lookup_path dst w1 = None ∨ ∃ d st, file_at dst w1 d st).
  { destruct Hdst as [?|[_ ?]]; eauto. }
  destruct (ensure_parent_dir _ _ _ Hpar) as (Hdir & _).
  destruct (copy2_run src dst w1 sb sst Hsrc Hneq Hdir Hfree)
    as (w' & Hcp & Hn & Hfr & Hout & _).
  unfold mret at 1, M_ret at 1.
  rewrite (bind_Ok _ _ w1 false w1 eq_refl).
  rewrite (bind_Ok _ _ _ _ _ Hcp).
  exists (log (LCopy dst) w'). split_and!; try done.
  cbn [log stdout]. by rewrite Hout.
Qed.

Lemma copy_file_skips_existing_witness :
  lookup_path [ustr "repo"; ustr "keep.md"] example_world
  = Some (File [107] (mkStat 384 2))
  ∧ copy_file [ustr "kit"; ustr "logo.md"] [ustr "repo"; ustr "keep.md"]
      false true ∅ example_world
    = (Ok tt, log (LSkip [ustr "repo"; ustr "keep.md"]) example_world).
Proof.
  assert (H : lookup_path [ustr "repo"; ustr "keep.md"] example_world
              = Some (File [107] (mkStat 384 2))) by reflexivity.
  split; [exact H|].
  exact (proj1 (copy_file_skips_existing [ustr "kit"; ustr "logo.md"]
                  [ustr "repo"; ustr "keep.md"] true ∅ example_world _ H)).
Defined.

Lemma copy_file_undecodable_witness :
  (ensure_parent [ustr "repo"; ustr "logo.md"] example_world
   = (Ok tt, example_world)
   ∧ file_at [ustr "kit"; ustr "logo.md"] example_world [255; 254]
       (mkStat 493 7)
   ∧ utf8_decode [255; 254] = None)
  ∧ ∃ w',
      copy_file [ustr "kit"; ustr "logo.md"] [ustr "repo"; ustr "logo.md"]
        false true ∅ example_world = (Ok tt, w')
      ∧ file_at [ustr "repo"; ustr "logo.md"] w' [255; 254] (mkStat 493 7)
      ∧ stdout w' = [LCopy [ustr "repo"; ustr "logo.md"]].
Proof.
  assert (H1 : ensure_parent [ustr "repo"; ustr "logo.md"] example_world
               = (Ok tt, example_world)) by (by vm_compute).
  assert (H2 : file_at [ustr "kit"; ustr "logo.md"] example_world [255; 254]
                 (mkStat 493 7)) by reflexivity.
  assert (H3 : utf8_decode [255; 254] = None) by reflexivity.
  split; [done|].
  destruct (proj2 (copy_file_undecodable [ustr "kit"; ustr "logo.md"]
                     [ustr "repo"; ustr "logo.md"] false ∅ example_world
                     example_world _ _ H1 H2 H3))
    as (w' & Hrun & Hfile & _ & Hout); [done|by left|].
  exists w'. by split_and!.
Defined.

Example copy_file_example_fallback :
  ∃ w',
    copy_file [ustr "kit"; ustr "logo.md"] [ustr "repo"; ustr "keep.md"]
      true true ∅ example_world = (Ok tt, w')
    ∧ file_at [ustr "repo"; ustr "keep.md"] w' [255; 254] (mkStat 493 7)
    ∧ stdout w' = [LCopy [ustr "repo"; ustr "keep.md"]].
Proof. eexists. split_and!; by vm_compute. Qed.

(** ** [apply_plan] *)

Lemma for_eachM_app {A} (l1 l2 : list A) (body : A → M unit) w w1 :
  for_eachM l1 body w = (Ok tt, w1) →
  for_eachM (l1 ++ l2) body w = for_eachM l2 body w1.
Proof.
  revert w. induction l1 as [|x l1 IH]; intros w; cbn [for_eachM app].
  { by intros [= <-]. }
  intros H. apply bind_inv in H as ([] & w2 & Hx & H).
  rewrite (bind_Ok _ _ _ _ _ Hx). by apply IH.
Qed.

(** The loop body on an item whose source is not there. *)
Lemma apply_item_missing str_lower fuel force render_exts variables item w :
  lookup_path (src item) w = None →
  apply_item str_lower fuel force render_exts variables item w
  = missing item
      (if bool_decide (mode item = ustr "merge_gitignore")
       then MissingSnippet else MissingFile) w.
Proof.
  intros Hnone. unfold apply_item.
  destruct (bool_decide (mode item = ustr "merge_gitignore")).
  - by rewrite (bind_Ok _ _ _ _ _ (path_exists_None _ _ Hnone)).
  - rewrite (bind_Ok _ _ _ _ _ (is_dir_nondir _ _ (or_introl Hnone))).
    by rewrite (bind_Ok _ _ _ _ _ (path_exists_None _ _ Hnone)).
Qed.

(** C6.  When the loop of [apply_plan] reaches, in world [w1], an item whose
    source is not there, its path being one the file system accepts (no
    name longer than [NAME_MAX], the whole shorter than [PATH_MAX]; for
    other paths [exists()] and [is_dir()] raise [OSError] instead of
    answering): if the item is optional the run prints the
    optional-missing line, changes nothing else, and goes on with the
    remaining items; if not, the run ends there with [FileNotFoundError],
    "missing snippet" for a merge item and "missing file" otherwise, and the
    remaining items are not looked at. *)
Theorem apply_plan_missing_source str_lower fuel force render_exts variables
    pre item rest w w1 :
  apply_plan str_lower fuel pre force render_exts variables w = (Ok tt, w1) →
  valid_path (src item) →
  lookup_path (src item) w1 = None →
  apply_plan str_lower fuel (pre ++ item :: rest) force render_exts variables w
  = if optional item
    then apply_plan str_lower fuel rest force render_exts variables
           (log (LOptionalMissing (src item)) w1)
    else (Raise (FileNotFoundError
                   ((if bool_decide (mode item = ustr "merge_gitignore")
                     then MissingSnippet else MissingFile) (src item))),
          w1).
Proof.
  intros Hpre _ Hnone. unfold apply_plan in *.
  rewrite (for_eachM_app _ _ _ _ _ Hpre). cbn [for_eachM].
  unfold mbind at 1, M_bind at 1.
  rewrite (apply_item_missing _ _ _ _ _ _ _ Hnone). unfold missing.
  by destruct (optional item).
Qed.

Lemma apply_plan_missing_source_witness :
  (apply_plan (λ s, s) 8 [] false [] ∅ example_world = (Ok tt, example_world)
   ∧ valid_path [ustr "kit"; ustr "nope"]
   ∧ lookup_path [ustr "kit"; ustr "nope"] example_world = None)
  ∧ apply_plan (λ s, s) 8
      [mkCopyItem [ustr "kit"; ustr "nope"] [ustr "repo"; ustr "nope"]
         (ustr "copy") true;
       mkCopyItem [ustr "kit"; ustr "nope"] [ustr "repo"; ustr "nope"]
         (ustr "copy") false;
       mkCopyItem [ustr "kit"; ustr "gi"] [ustr "repo"; ustr "gi"]
         (ustr "copy") false]
      false [] ∅ example_world
    = (Raise (FileNotFoundError (MissingFile [ustr "kit"; ustr "nope"])),
       log (LOptionalMissing [ustr "kit"; ustr "nope"]) example_world).
Proof.
  assert (H1 : apply_plan (λ s, s) 8 [] false [] ∅ example_world
               = (Ok tt, example_world)) by reflexivity.
  assert (H2 : lookup_path [ustr "kit"; ustr "nope"] example_world = None)
    by reflexivity.
  assert (H3 : valid_path [ustr "kit"; ustr "nope"]).
  { unfold valid_path. by apply (bool_decide_unpack _). }
  split; [done|].
  etrans;
    [exact (apply_plan_missing_source (λ s, s) 8 false [] ∅ []
              (mkCopyItem [ustr "kit"; ustr "nope"]
                 [ustr "repo"; ustr "nope"] (ustr "copy") true)
              _ example_world example_world H1 H3 H2)|].
  reflexivity.
Defined.

Example apply_plan_example_missing_snippet :
  apply_plan (λ s, s) 8
    [mkCopyItem [ustr "kit"; ustr "nope"] example_gitignore
       (ustr "merge_gitignore") false]
    false [] ∅ example_world
  = (Raise (FileNotFoundError (MissingSnippet [ustr "kit"; ustr "nope"])),
     example_world).
Proof. reflexivity. Qed.

(** * Further properties of the script *)

(** ** [render_text] *)

(** X1.  A mapping without a key that a placeholder can name, such as one whose
    keys are in lower case, leaves every text as it is. *)
Theorem render_text_no_usable_key content variables :
  (∀ k, k ≠ [] → all_name k → variables !! k = None) →
  render_text content variables = content.
Proof.
  intros Hkeys. destruct (cut_exists content) as (t0 & hs & -> & Hcut).
  rewrite render_text_flatten by done.
  unfold rendered, flatten. f_equal.
  destruct Hcut as [_ Hhs].
  induction Hhs as [|[h t] hs [(_ & Hne & Hn & _) _] _ IH]; [done|].
  cbn [flat_map fst snd]. rewrite IH. f_equal. f_equal.
  unfold fill. by rewrite Hkeys.
Qed.

Lemma render_text_no_usable_key_witness :
  (∀ k, k ≠ [] → all_name k → ({[ ustr "org" := ustr "x" ]} : gmap str str) !! k = None)
  ∧ render_text (ustr "{{org}} {{ORG}}") {[ ustr "org" := ustr "x" ]}
    = ustr "{{org}} {{ORG}}".
Proof.
  assert (H : ∀ k, k ≠ [] → all_name k
                   → ({[ ustr "org" := ustr "x" ]} : gmap str str) !! k = None).
  { intros k _ Hk. apply lookup_singleton_None. intros <-.
    inversion Hk as [|c l Hc _]. vm_compute in Hc. discriminate Hc. }
  split; [exact H|].
  exact (render_text_no_usable_key _ _ H).
Defined.

(** X2.  A text in which no two opening braces follow each other is left as it
    is, whatever the mapping. *)
Theorem render_text_without_braces content variables :
  (∀ u v, content ≠ u ++ lbrace :: lbrace :: v) →
  render_text content variables = content.
Proof.
  intros H. apply render_text_placeholder_free. intros u h v _ E.
  apply (H u (ws_before h ++ hole_name h ++ ws_after h
              ++ [rbrace; rbrace] ++ v)).
  rewrite E. unfold hole_text. by rewrite <- !app_assoc.
Qed.

Lemma render_text_without_braces_witness :
  (∀ u v, ustr "a {b} c" ≠ u ++ lbrace :: lbrace :: v)
  ∧ render_text (ustr "a {b} c") {[ ustr "B" := ustr "x" ]} = ustr "a {b} c".
Proof.
  assert (H : ∀ u v, ustr "a {b} c" ≠ u ++ lbrace :: lbrace :: v).
  { intros u v E.
    destruct u as [|c0 [|c1 [|c2 [|c3 [|c4 [|c5 [|c6 [|c7 u]]]]]]]];
      vm_compute in E; discriminate E. }
  split; [exact H|].
  exact (render_text_without_braces _ _ H).
Defined.

(** ** [norm_agents_arg] *)

Lemma drop_while_all p s : Forall (λ c, p c = true) s → drop_while p s = [].
Proof. induction 1 as [|c s Hc _ IH]; [done|]. simpl. by rewrite Hc. Qed.

Lemma drop_while_stop p c s : p c = false → drop_while p (c :: s) = c :: s.
Proof. intros H. simpl. by rewrite H. Qed.

Lemma drop_while_suffix p s : drop_while p s `suffix_of` s.
Proof.
  induction s as [|c s IH]; [done|]. simpl. destruct (p c); [|done].
  by apply suffix_cons_r.
Qed.

(** What [strip] returns is empty, or begins and ends outside whitespace. *)
Lemma strip_ends s :
  strip s = []
  ∨ ∃ c m d, is_space c = false ∧ is_space d = false
             ∧ rev (strip s) = d :: m ∧ head (strip s) = Some c.
Proof.
  unfold strip. destruct (drop_while is_space s) as [|c a] eqn:Ea.
  { by left. }
  assert (Hc : is_space c = false) by (by eapply drop_while_head).
  destruct (drop_while is_space (rev (c :: a))) as [|d m] eqn:Eb.
  { by left. }
  assert (Hd : is_space d = false) by (by eapply drop_while_head).
  right. exists c, m, d. rewrite rev_involutive. split_and!; [done..|].
  destruct (drop_while_suffix is_space (rev (c :: a))) as [k Hk].
  rewrite Eb in Hk. apply (f_equal (@rev _)) in Hk.
  rewrite rev_involutive, rev_app_distr in Hk.
  destruct (rev (d :: m)) as [|x r] eqn:Er.
  { apply (f_equal (@rev _)) in Er. rewrite rev_involutive in Er. done. }
  simpl in Hk. by injection Hk as -> _.
Qed.

Lemma strip_fixed (x : str) c m d :
  is_space c = false → is_space d = false →
  rev x = d :: m → head x = Some c → strip x = x.
Proof.
  intros Hc Hd Hr Hh. unfold strip.
  destruct x as [|c' x']; [done|]. injection Hh as ->.
  rewrite (drop_while_stop _ _ _ Hc), Hr, (drop_while_stop _ _ _ Hd), <- Hr.
  apply rev_involutive.
Qed.

Lemma strip_idemp s : strip (strip s) = strip s.
Proof.
  destruct (strip_ends s) as [->|(c & m & d & Hc & Hd & Hr & Hh)]; [done|].
  exact (strip_fixed _ c m d Hc Hd Hr Hh).
Qed.

Lemma elem_of_rev_iff {A} (l : list A) x : x ∈ rev l ↔ x ∈ l.
Proof. rewrite !list_elem_of_In. symmetry. apply in_rev. Qed.

Lemma strip_subseteq (s : str) c : c ∈ strip s → c ∈ s.
Proof.
  unfold strip. rewrite elem_of_rev_iff. intros H.
  destruct (drop_while_suffix is_space (rev (drop_while is_space s)))
    as [k1 E1].
  assert (H1 : c ∈ rev (drop_while is_space s)) by (rewrite E1; set_solver).
  rewrite elem_of_rev_iff in H1.
  destruct (drop_while_suffix is_space s) as [k2 E2].
  rewrite E2. set_solver.
Qed.

Lemma split_on_sep_free sep s : Forall (λ w, sep ∉ w) (split_on sep s).
Proof.
  induction s as [|c s IH]; simpl.
  { repeat constructor. apply not_elem_of_nil. }
  destruct (N.eqb_spec c sep) as [->|Hne].
  - constructor; [apply not_elem_of_nil|done].
  - destruct (split_on sep s) as [|w ws]; inversion IH; subst.
    + repeat constructor. set_solver.
    + constructor; [|done]. set_solver.
Qed.

Lemma dedup_step_pair seen out p :
  dedup_step (seen, out) p
  = if bool_decide (p ∈ seen) then (seen, out) else ({[p]} ∪ seen, out ++ [p]).
Proof. done. Qed.

(** The loop that drops repeated names. *)
Lemma dedup_loop parts seen out :
  (∀ x, x ∈ seen ↔ x ∈ out) → NoDup out →
  NoDup (fold_left dedup_step parts (seen, out)).2
  ∧ (∀ x, x ∈ (fold_left dedup_step parts (seen, out)).2 ↔ x ∈ out ∨ x ∈ parts)
  ∧ ∃ kept, (fold_left dedup_step parts (seen, out)).2 = out ++ kept
            ∧ kept `sublist_of` parts.
Proof.
  revert seen out. induction parts as [|p parts IH]; intros seen out Hseen Hnd.
  { cbn. split_and!; [done|set_solver|]. exists []. by rewrite app_nil_r. }
  cbn [fold_left]. rewrite dedup_step_pair.
  destruct (bool_decide_reflect (p ∈ seen)) as [Hin|Hout].
  - destruct (IH seen out Hseen Hnd) as (H1 & H2 & kept & H3 & H4).
    split_and!; [done| |].
    + intros x. rewrite H2. apply Hseen in Hin. set_solver.
    + exists kept. split; [done|]. by apply sublist_cons.
  - destruct (IH ({[p]} ∪ seen) (out ++ [p])) as (H1 & H2 & kept & H3 & H4).
    + intros x. rewrite elem_of_union, elem_of_singleton, Hseen. set_solver.
    + apply NoDup_app. split_and!; [done| |apply NoDup_singleton].
      intros x Hx Hxp. apply list_elem_of_singleton in Hxp as ->.
      apply Hout. by apply Hseen.
    + split_and!; [done| |].
      * intros x. rewrite H2. set_solver.
      * exists (p :: kept). split; [by rewrite H3, <- app_assoc|].
        by apply sublist_skip.
Qed.

Lemma clean_name_all : clean_name (ustr "all").
Proof.
  split_and!; [done|reflexivity|]. by apply (bool_decide_unpack _).
Qed.

Section Names.
Context (str_lower : str → str).

(** The parts [norm_agents_arg] works on when its argument is not the
    sentinel: the stripped pieces between commas that are not empty. *)
Lemma norm_agents_arg_parts raw :
  strip raw ≠ [] → str_lower (strip raw) ≠ ustr "all" →
  norm_agents_arg str_lower raw
  = (fold_left dedup_step
       (filter (λ p, str_truthy p = true)
          (strip <$> split_on comma (strip raw))) (∅, [])).2.
Proof.
  intros Hne Hall. unfold norm_agents_arg.
  destruct (strip raw) as [|c s] eqn:E; [done|]. cbn [str_truthy negb].
  by rewrite bool_decide_eq_false_2.
Qed.

Lemma part_clean (raw p : str) :
  p ∈ filter (λ p, str_truthy p = true) (strip <$> split_on comma raw) →
  clean_name p.
Proof.
  rewrite list_elem_of_filter, list_elem_of_fmap.
  intros [Ht (piece & -> & Hpiece)]. split_and!.
  - by destruct (strip piece).
  - apply strip_idemp.
  - intros Hc%strip_subseteq.
    pose proof (split_on_sep_free comma raw) as H.
    rewrite Forall_forall in H. by apply (H piece).
Qed.

(** X3.  Whatever the argument, the names handed on are pairwise different, not
    empty, without whitespace at either end and without a comma. *)
Theorem norm_agents_arg_clean raw :
  NoDup (norm_agents_arg str_lower raw)
  ∧ Forall clean_name (norm_agents_arg str_lower raw).
Proof.
  destruct (decide (strip raw = [])) as [E|Hne].
  { unfold norm_agents_arg. rewrite E. cbn. split; constructor. }
  destruct (decide (str_lower (strip raw) = ustr "all")) as [E|Hall].
  { unfold norm_agents_arg.
    destruct (strip raw) as [|c s] eqn:Es; [done|]. cbn [str_truthy negb].
    rewrite bool_decide_eq_true_2 by done. split.
    - apply NoDup_singleton.
    - apply Forall_cons. split; [exact clean_name_all|constructor]. }
  rewrite norm_agents_arg_parts by done.
  destruct (dedup_loop
              (filter (λ p, str_truthy p = true)
                 (strip <$> split_on comma (strip raw))) ∅ [])
    as (Hnd & Hel & _); [set_solver|constructor|].
  split; [done|]. apply Forall_forall. intros x Hx.
  apply Hel in Hx as [Hx|Hx]; [by apply not_elem_of_nil in Hx|].
  by eapply part_clean.
Qed.

(** X4.  When the stripped argument is neither empty nor, in lower case, [all]:
    the names handed on are exactly the stripped pieces between commas that
    are not empty, in the order these have in the argument. *)
Theorem norm_agents_arg_names raw :
  strip raw ≠ [] → str_lower (strip raw) ≠ ustr "all" →
  let parts := filter (λ p, p ≠ []) (strip <$> split_on comma (strip raw)) in
  (∀ x, x ∈ norm_agents_arg str_lower raw ↔ x ∈ parts)
  ∧ norm_agents_arg str_lower raw `sublist_of` parts.
Proof.
  intros Hne Hall parts.
  assert (Hparts : parts = filter (λ p, str_truthy p = true)
                             (strip <$> split_on comma (strip raw))).
  { unfold parts. apply list_filter_iff. intros [|??]; by cbn. }
  rewrite norm_agents_arg_parts, Hparts by done.
  destruct (dedup_loop
              (filter (λ p, str_truthy p = true)
                 (strip <$> split_on comma (strip raw))) ∅ [])
    as (_ & Hel & kept & Hk & Hsub); [set_solver|constructor|].
  split.
  - intros x. rewrite Hel. set_solver.
  - by rewrite Hk.
Qed.

End Names.

Lemma norm_agents_arg_names_witness :
  (strip (ustr " b, a,,b ,c ") ≠ [] ∧ strip (ustr " b, a,,b ,c ") ≠ ustr "all")
  ∧ (∀ x, x ∈ norm_agents_arg (λ s, s) (ustr " b, a,,b ,c ")
          ↔ x ∈ [ustr "b"; ustr "a"; ustr "b"; ustr "c"])
  ∧ norm_agents_arg (λ s, s) (ustr " b, a,,b ,c ")
    `sublist_of` [ustr "b"; ustr "a"; ustr "b"; ustr "c"].
Proof.
  assert (H1 : strip (ustr " b, a,,b ,c ") ≠ []) by (by vm_compute).
  assert (H2 : strip (ustr " b, a,,b ,c ") ≠ ustr "all") by (by vm_compute).
  split; [done|].
  exact (norm_agents_arg_names (λ s, s) (ustr " b, a,,b ,c ") H1 H2).
Defined.

Example norm_agents_arg_example :
  norm_agents_arg (λ s, s) (ustr " b, a,,b ,c ") = [ustr "b"; ustr "a"; ustr "c"]
  ∧ norm_agents_arg (λ s, s) (ustr "  ") = []
  ∧ norm_agents_arg (λ s, s) (ustr " all ") = [ustr "all"]
  ∧ norm_agents_arg (λ s, s) (ustr "all,b") = [ustr "all"; ustr "b"].
Proof. by vm_compute. Qed.

(** ** [build_copy_plan] *)

(** X5.  For a manifest whose [agents] is a mapping, the sentinel selection and
    the explicit selection of every agent in ascending order give the same
    result, plan or error. *)
Theorem build_copy_plan_all_explicit py_repr kit_root dest_root manifest
    agents available :
  agents_of manifest = Some agents → sorted_names agents available →
  build_copy_plan py_repr kit_root dest_root manifest [ustr "all"]
  = build_copy_plan py_repr kit_root dest_root manifest available.
Proof.
  intros Hag Hav. apply sorted_names_unique in Hav as ->.
  rewrite !build_copy_plan_unfold. apply agents_of_iff in Hag. rewrite Hag.
  destruct (default (YList []) (manifest !! ustr "render_extensions"));
    try done.
  rewrite bool_decide_eq_true_2 by done.
  destruct (bool_decide (sorted (keys agents) = [ustr "all"])); [done|].
  cbv zeta. rewrite filter_unknown_nil; [done|].
  apply Forall_forall. intros a. by rewrite elem_of_sorted_keys.
Qed.

Lemma build_copy_plan_all_explicit_witness :
  (agents_of example_manifest = Some example_agents
   ∧ sorted_names example_agents [ustr "antigravity"; ustr "trae"])
  ∧ build_copy_plan example_repr [ustr "kit"] [ustr "dest"] example_manifest
      [ustr "all"]
    = build_copy_plan example_repr [ustr "kit"] [ustr "dest"] example_manifest
        [ustr "antigravity"; ustr "trae"].
Proof.
  assert (H1 : agents_of example_manifest = Some example_agents)
    by reflexivity.
  assert (H2 : sorted_names example_agents [ustr "antigravity"; ustr "trae"]).
  { change [ustr "antigravity"; ustr "trae"]
      with (sorted (keys example_agents)).
    apply sorted_names_keys. }
  split; [done|].
  exact (build_copy_plan_all_explicit example_repr [ustr "kit"] [ustr "dest"]
           example_manifest example_agents _ H1 H2).
Defined.

(** ** [is_renderable] *)

Section Renderable.
Context (str_lower : str → str).

Lemma lower_set_loop (render_exts : list yaml) (acc : gset str) :
  match ext_strings render_exts with
  | Some es =>
      ∃ S, for_each render_exts
             (λ e (acc : gset str),
                match e with
                | YStr e => Ok ({[str_lower e]} ∪ acc)
                | _ => Raise AttributeError
                end) acc = Ok S
           ∧ ∀ x, x ∈ S ↔ x ∈ acc ∨ x ∈ str_lower <$> es
  | None =>
      for_each render_exts
        (λ e (acc : gset str),
           match e with
           | YStr e => Ok ({[str_lower e]} ∪ acc)
           | _ => Raise AttributeError
           end) acc = Raise AttributeError
  end.
Proof.
  revert acc. induction render_exts as [|e l IH]; intros acc.
  { cbn. exists acc. split; [done|]. set_solver. }
  destruct e as [| | |e| |]; try done.
  cbn [ext_strings]. rewrite for_each_cons.
  specialize (IH ({[str_lower e]} ∪ acc)).
  destruct (ext_strings l) as [es|]; cbn [fmap option_fmap option_map].
  - destruct IH as (S & -> & HS). exists S. split; [done|].
    intros x. rewrite HS, fmap_cons. set_solver.
  - done.
Qed.

Lemma is_renderable_set p render_exts :
  is_renderable str_lower p render_exts
  = match ext_strings render_exts with
    | Some es =>
        Ok (bool_decide (str_lower (path_suffix p) ∈ str_lower <$> es))
    | None => Raise AttributeError
    end.
Proof.
  unfold is_renderable. pose proof (lower_set_loop render_exts ∅) as H.
  destruct (ext_strings render_exts) as [es|].
  - destruct H as (S & -> & HS). cbn. f_equal. apply bool_decide_ext.
    rewrite HS. set_solver.
  - by rewrite H.
Qed.


End Renderable.

(** ** [ensure_parent] *)

Lemma mkdirs_blocked full p es d st :
  fs_lookup p (Dir es) = Some (File d st) →
  mkdirs full p es = Raise (FileExistsError full).
Proof.
  revert es. induction p as [|c p IH]; intros es; [done|].
  rewrite fs_lookup_cons. cbn [mkdirs].
  destruct (es !! c) as [[d0 st0|es1]|]; [| |done]; cbn.
  - intros H. by apply fs_lookup_File_inv in H as [-> _].
  - intros H. by rewrite (IH _ H).
Qed.

(** X7.  When [ensure_parent] returns, the parent of the path is a directory, the
    regular files are the ones there were, with their bytes and metadata,
    nothing is printed, and doing it again changes nothing. *)
Theorem ensure_parent_effect dst w w1 :
  ensure_parent dst w = (Ok tt, w1) →
  (∃ e, lookup_path (path_parent dst) w1 = Some (Dir e))
  ∧ (∀ q d st, file_at q w1 d st ↔ file_at q w d st)
  ∧ stdout w1 = stdout w
  ∧ ensure_parent dst w1 = (Ok tt, w1).
Proof.
  intros H. destruct (ensure_parent_dir _ _ _ H) as ([e He] & Hout & _ & _ & Hfr).
  split_and!; [by exists e|done|done|]. by apply (ensure_parent_again _ _ e).
Qed.

Lemma ensure_parent_effect_witness :
  ensure_parent [ustr "repo"; ustr "a"; ustr "b"; ustr "f"] example_world
  = (Ok tt,
     (ensure_parent [ustr "repo"; ustr "a"; ustr "b"; ustr "f"]
        example_world).2)
  ∧ ∃ e, lookup_path [ustr "repo"; ustr "a"; ustr "b"]
           (ensure_parent [ustr "repo"; ustr "a"; ustr "b"; ustr "f"]
              example_world).2 = Some (Dir e).
Proof.
  assert (H : ensure_parent [ustr "repo"; ustr "a"; ustr "b"; ustr "f"]
                example_world
              = (Ok tt,
                 (ensure_parent [ustr "repo"; ustr "a"; ustr "b"; ustr "f"]
                    example_world).2)) by (by vm_compute).
  split; [exact H|].
  exact (proj1 (ensure_parent_effect _ _ _ H)).
Defined.

(** X8.  When the parent of the destination is a regular file, [ensure_parent],
    and with it [copy_file] and [merge_gitignore], fail with
    [FileExistsError] and change nothing. *)
Theorem parent_is_a_file src dst force render variables w d st :
  lookup_path (path_parent dst) w = Some (File d st) →
  ensure_parent dst w = (Raise (FileExistsError (path_parent dst)), w)
  ∧ copy_file src dst force render variables w
    = (Raise (FileExistsError (path_parent dst)), w)
  ∧ merge_gitignore src dst force w
    = (Raise (FileExistsError (path_parent dst)), w).
Proof.
  intros H.
  assert (E : ensure_parent dst w
              = (Raise (FileExistsError (path_parent dst)), w)).
  { unfold ensure_parent, mkdir_parents, update_root.
    by rewrite (mkdirs_blocked _ _ _ _ _ H). }
  split_and!; [done|..].
  - unfold copy_file. by rewrite (bind_Raise _ _ _ _ _ E).
  - unfold merge_gitignore. by rewrite (bind_Raise _ _ _ _ _ E).
Qed.

Lemma parent_is_a_file_witness :
  lookup_path (path_parent [ustr "repo"; ustr "keep.md"; ustr "x"])
    example_world = Some (File [107] (mkStat 384 2))
  ∧ copy_file [ustr "kit"; ustr "gi"] [ustr "repo"; ustr "keep.md"; ustr "x"]
      true false ∅ example_world
    = (Raise (FileExistsError [ustr "repo"; ustr "keep.md"]), example_world).
Proof.
  assert (H : lookup_path (path_parent [ustr "repo"; ustr "keep.md"; ustr "x"])
                example_world = Some (File [107] (mkStat 384 2)))
    by reflexivity.
  split; [exact H|].
  exact (proj1 (proj2 (parent_is_a_file [ustr "kit"; ustr "gi"]
                         [ustr "repo"; ustr "keep.md"; ustr "x"]
                         true false ∅ example_world _ _ H))).
Defined.

(** ** [copy_file] *)

Lemma fill_valid variables h :
  valid_values variables → Forall valid_char (hole_text h) →
  Forall valid_char (fill variables h).
Proof.
  intros Hv Hh. unfold fill.
  destruct (variables !! hole_name h) as [v|] eqn:E; [by eapply Hv|done].
Qed.

(** Rendering brings in no character that the text or the values do not
    have. *)
Lemma render_text_valid t variables :
  Forall valid_char t → valid_values variables →
  Forall valid_char (render_text t variables).
Proof.
  intros Ht Hv. destruct (cut_exists t) as (t0 & hs & -> & Hcut).
  rewrite render_text_flatten by done. clear Hcut.
  unfold flatten, rendered in *.
  apply Forall_app in Ht as [Ht0 Hhs]. apply Forall_app. split; [done|].
  induction hs as [|[h t1] hs IH]; [constructor|].
  cbn [flat_map fst snd] in *.
  rewrite <- app_assoc in Hhs.
  apply Forall_app in Hhs as [Hh Hhs]. apply Forall_app in Hhs as [Ht1 Hhs].
  rewrite <- app_assoc. apply Forall_app. split; [by apply fill_valid|].
  apply Forall_app. split; [done|]. by apply IH.
Qed.

Lemma try_except_Ok {A} (body handler : M A) w a w' :
  body w = (Ok a, w') →
  try_except_UnicodeDecodeError body handler w = (Ok a, w').
Proof. unfold try_except_UnicodeDecodeError. by intros ->. Qed.

Lemma try_except_Raise {A} (body handler : M A) w e w' :
  body w = (Raise e, w') → e ≠ UnicodeDecodeError →
  try_except_UnicodeDecodeError body handler w = (Raise e, w').
Proof.
  unfold try_except_UnicodeDecodeError. intros -> He. by destruct e.
Qed.

Lemma write_text_run p s bs w :
  (∃ e, lookup_path (path_parent p) w = Some (Dir e)) →
  (lookup_path p w = None ∨ ∃ d st, file_at p w d st) →
  utf8_encode s = Some bs →
  ∃ w' st, write_text p s w = (Ok tt, w') ∧ touched p (File bs st) w w'.
Proof.
  intros Hpar Hp Hs. unfold write_text.
  destruct (open_trunc_run p w Hpar Hp) as (w2 & st2 & E2 & T2).
  rewrite (bind_Ok _ _ _ _ _ E2).
  assert (F2 : file_at p w2 [] st2) by (by destruct T2).
  destruct (write_str_run p s bs w2 [] st2 F2 Hs) as (w3 & E3 & T3).
  exists w3. eexists. split; [done|]. by eapply touched_trans.
Qed.

(** What is not there cannot be opened. *)
Lemma fs_read_missing full p n :
  fs_lookup p n = None →
  fs_read full p n = Raise (FileNotFoundError (NoSuchFile full))
  ∨ fs_read full p n = Raise (NotADirectoryError full).
Proof.
  revert n. induction p as [|c p IH]; intros n; [done|].
  destruct n as [d st|es]; [by right|]. rewrite fs_lookup_cons. cbn [fs_read].
  destruct (es !! c) as [n1|]; [|by left]. cbn. apply IH.
Qed.

Lemma read_bytes_missing p w :
  lookup_path p w = None →
  ∃ e, read_bytes p w = (Raise e, w)
       ∧ (e = FileNotFoundError (NoSuchFile p) ∨ e = NotADirectoryError p).
Proof.
  unfold lookup_path, read_bytes. intros H.
  destruct (fs_read_missing p p _ H) as [-> | ->]; eauto.
Qed.

Lemma read_text_missing p w :
  lookup_path p w = None →
  ∃ e, read_text p w = (Raise e, w)
       ∧ (e = FileNotFoundError (NoSuchFile p) ∨ e = NotADirectoryError p).
Proof.
  intros H. destruct (read_bytes_missing p w H) as (e & E & He).
  exists e. split; [|done]. unfold read_text.
  by rewrite (bind_Raise _ _ _ _ _ E).
Qed.

Lemma is_dir_run p w :
  is_dir p w
  = (Ok (match lookup_path p w with Some (Dir _) => true | _ => false end), w).
Proof. done. Qed.

(** The way of [copy_file] past the test for an existing destination. *)
Lemma copy_file_proceeds src dst force render variables w w1 :
  ensure_parent dst w = (Ok tt, w1) →
  lookup_path dst w1 = None ∨ force = true →
  copy_file src dst force render variables w
  = (returned ←
       (if render then
          try_except_UnicodeDecodeError
            (txt ← read_text src;
             write_text dst (render_text txt variables);;
             copystat src dst;;
             print (LRender dst);;
             mret true)
            (mret false)
        else mret false);
     if returned : bool then mret tt
     else copy2 src dst;; print (LCopy dst)) w1.
Proof.
  intros Hpar Hdst. unfold copy_file.
  rewrite (bind_Ok _ _ _ _ _ Hpar).
  rewrite (bind_Ok _ _ _ _ _ (path_exists_run _ _)).
  assert (bool_decide (is_Some (lookup_path dst w1)) && negb force = false)
    as ->; [|done].
  destruct Hdst as [->| ->]; [|by rewrite andb_false_r].
  rewrite bool_decide_eq_false_2; [done|]. by intros [? ?].
Qed.

Lemma copy2_missing src dst w e :
  lookup_path src w = None → read_bytes src w = (Raise e, w) →
  copy2 src dst w = (Raise e, w).
Proof.
  intros Hsrc Eb. unfold copy2.
  rewrite (bind_Ok _ _ _ _ _ (is_dir_run _ _)). cbv zeta.
  generalize (if match lookup_path dst w with
                 | Some (Dir _) => true
                 | _ => false
                 end then dst ++ [path_name src] else dst).
  intros d. rewrite (bind_Ok _ _ _ _ _ (path_exists_run _ _)).
  assert (bool_decide (is_Some (lookup_path d w)) && bool_decide (src = d)
          = false) as ->.
  { destruct (decide (src = d)) as [<-|Hn].
    - rewrite Hsrc, bool_decide_eq_false_2; [done|]. by intros [? ?].
    - by rewrite (bool_decide_eq_false_2 (src = d)), andb_false_r. }
  by rewrite (bind_Raise _ _ _ _ _ Eb).
Qed.

(** X9.  A source that is valid UTF-8, copied with rendering to another path
    that is free, or holds a regular file with the overwrite flag on
    ([w1] is the world once the directory of the destination is there, and
    the values of the variables can be encoded): [copy_file] returns; the
    destination holds the encoding of the rendered text, read with
    universal newlines, and the metadata of the source; every other file is
    as it was; the line printed is the one of a rendering. *)
Theorem copy_file_renders src dst force variables w w1 sb sst txt :
  ensure_parent dst w = (Ok tt, w1) →
  file_at src w1 sb sst → utf8_decode sb = Some txt →
  valid_values variables → src ≠ dst →
  lookup_path dst w1 = None ∨ (force = true ∧ ∃ d st, file_at dst w1 d st) →
  ∃ w' out,
    copy_file src dst force true variables w = (Ok tt, w')
    ∧ utf8_encode (render_text (universal_newlines txt) variables) = Some out
    ∧ file_at dst w' out sst
    ∧ same_files_except dst w1 w'
    ∧ stdout w' = stdout w1 ++ [LRender dst].
Proof.
  intros Hpar Hsrc Hdec Hval Hneq Hdst.
  rewrite (copy_file_proceeds _ _ _ _ _ _ _ Hpar)
    by (destruct Hdst as [?|[? _]]; auto).
  assert (Hfree : lookup_path dst w1 = None ∨ ∃ d st, file_at dst w1 d st).
  { destruct Hdst as [?|[_ ?]]; eauto. }
  destruct (ensure_parent_dir _ _ _ Hpar) as (Hdir & _).
  destruct (proj1 (utf8_encode_valid
                     (render_text (universal_newlines txt) variables)))
    as [out Hout].
  { apply render_text_valid; [|done]. apply universal_newlines_valid.
    by eapply utf8_decode_valid. }
  destruct (write_text_run dst _ out w1 Hdir Hfree Hout)
    as (w2 & st2 & E2 & T2).
  assert (F2 : file_at dst w2 out st2) by (by destruct T2).
  assert (S2 : file_at src w2 sb sst).
  { destruct T2 as (_ & Hfr & _). by apply Hfr. }
  destruct (copystat_run src dst w2 sb sst out st2 S2 F2) as (w3 & E3 & T3).
  pose proof (touched_trans _ _ _ _ _ _ T2 T3) as (F3 & Hfr & Hlog & _).
  exists (log (LRender dst) w3), out.
  split_and!; [|done|exact F3|exact Hfr|by cbn [log stdout]; rewrite Hlog].
  assert (Hbody : (txt ← read_text src;
                   write_text dst (render_text txt variables);;
                   copystat src dst;;
                   print (LRender dst);;
                   mret true) w1 = (Ok true, log (LRender dst) w3)).
  { rewrite (bind_Ok _ _ _ _ _ (read_text_file _ _ _ _ _ Hsrc Hdec)).
    by rewrite (bind_Ok _ _ _ _ _ E2), (bind_Ok _ _ _ _ _ E3). }
  by rewrite (bind_Ok _ _ _ _ _ (try_except_Ok _ (mret false) _ _ _ Hbody)).
Qed.

(** X10.  Any source that is a regular file, copied without rendering to another
    path that is free, or holds a regular file with the overwrite flag on:
    [copy_file] returns; the destination holds the bytes and the metadata of
    the source; every other file is as it was; the line printed is the one
    of a copy. *)
Theorem copy_file_copies src dst force variables w w1 sb sst :
  ensure_parent dst w = (Ok tt, w1) →
  file_at src w1 sb sst → src ≠ dst →
  lookup_path dst w1 = None ∨ (force = true ∧ ∃ d st, file_at dst w1 d st) →
  ∃ w',
    copy_file src dst force false variables w = (Ok tt, w')
    ∧ file_at dst w' sb sst
    ∧ same_files_except dst w1 w'
    ∧ stdout w' = stdout w1 ++ [LCopy dst].
Proof.
  intros Hpar Hsrc Hneq Hdst.
  rewrite (copy_file_proceeds _ _ _ _ _ _ _ Hpar)
    by (destruct Hdst as [?|[? _]]; auto).
  assert (Hfree : lookup_path dst w1 = None ∨ ∃ d st, file_at dst w1 d st).
  { destruct Hdst as [?|[_ ?]]; eauto. }
  destruct (ensure_parent_dir _ _ _ Hpar) as (Hdir & _).
  destruct (copy2_run src dst w1 sb sst Hsrc Hneq Hdir Hfree)
    as (w' & Hcp & Hn & Hfr & Hout & _).
  exists (log (LCopy dst) w'). split_and!; try done.
  - rewrite (bind_Ok _ _ w1 false w1 eq_refl).
    by rewrite (bind_Ok _ _ _ _ _ Hcp).
  - cbn [log stdout]. by rewrite Hout.
Qed.

(** X11.  A source that is not there, with a destination that is free or with the
    overwrite flag on: [copy_file] fails with the error of opening the
    source, rendering or not, after the directory of the destination has
    been made; the destination is not touched. *)
Theorem copy_file_missing_source src dst force render variables w w1 :
  ensure_parent dst w = (Ok tt, w1) →
  lookup_path src w1 = None →
  lookup_path dst w1 = None ∨ force = true →
  ∃ e,
    copy_file src dst force render variables w = (Raise e, w1)
    ∧ (e = FileNotFoundError (NoSuchFile src) ∨ e = NotADirectoryError src).
Proof.
  intros Hpar Hsrc Hdst.
  rewrite (copy_file_proceeds _ _ _ _ _ _ _ Hpar) by done.
  destruct (read_bytes_missing src w1 Hsrc) as (e & Eb & He).
  exists e. split; [|done].
  assert (Hcopy : (copy2 src dst;; print (LCopy dst)) w1 = (Raise e, w1))
    by (by apply bind_Raise, copy2_missing).
  destruct render.
  - destruct (read_text_missing src w1 Hsrc) as (e' & Et & He').
    assert (e' = e) as ->.
    { unfold read_text in Et. rewrite (bind_Raise _ _ _ _ _ Eb) in Et.
      congruence. }
    apply bind_Raise. apply try_except_Raise.
    + by rewrite (bind_Raise _ _ _ _ _ Et).
    + by destruct He as [-> | ->].
  - by rewrite (bind_Ok _ _ w1 false w1 eq_refl).
Qed.

Lemma copy_file_renders_witness :
  (ensure_parent [ustr "repo"; ustr "gi.md"] example_world
   = (Ok tt, example_world)
   ∧ file_at example_snippet example_world [120; 10; 121; 10; 10; 120; 10]
       (mkStat 420 5)
   ∧ valid_values ∅)
  ∧ ∃ w' out,
      copy_file example_snippet [ustr "repo"; ustr "gi.md"] false true ∅
        example_world = (Ok tt, w')
      ∧ file_at [ustr "repo"; ustr "gi.md"] w' out (mkStat 420 5).
Proof.
  assert (H1 : ensure_parent [ustr "repo"; ustr "gi.md"] example_world
               = (Ok tt, example_world)) by (by vm_compute).
  assert (H2 : file_at example_snippet example_world
                 [120; 10; 121; 10; 10; 120; 10] (mkStat 420 5))
    by reflexivity.
  assert (H3 : valid_values ∅) by (intros k v Hk; by rewrite lookup_empty in Hk).
  split; [done|].
  destruct (copy_file_renders example_snippet [ustr "repo"; ustr "gi.md"]
              false ∅ example_world example_world _ _
              [120; 10; 121; 10; 10; 120; 10] H1 H2 eq_refl H3)
    as (w' & out & Hrun & _ & Hfile & _); [done|by left|].
  by exists w', out.
Defined.

Lemma copy_file_copies_witness :
  (ensure_parent [ustr "repo"; ustr "keep.md"] example_world
   = (Ok tt, example_world)
   ∧ file_at [ustr "kit"; ustr "logo.md"] example_world [255; 254]
       (mkStat 493 7))
  ∧ ∃ w',
      copy_file [ustr "kit"; ustr "logo.md"] [ustr "repo"; ustr "keep.md"]
        true false ∅ example_world = (Ok tt, w')
      ∧ file_at [ustr "repo"; ustr "keep.md"] w' [255; 254] (mkStat 493 7).
Proof.
  assert (H1 : ensure_parent [ustr "repo"; ustr "keep.md"] example_world
               = (Ok tt, example_world)) by (by vm_compute).
  assert (H2 : file_at [ustr "kit"; ustr "logo.md"] example_world [255; 254]
                 (mkStat 493 7)) by reflexivity.
  split; [done|].
  destruct (copy_file_copies [ustr "kit"; ustr "logo.md"]
              [ustr "repo"; ustr "keep.md"] true ∅ example_world
              example_world _ _ H1 H2)
    as (w' & Hrun & Hfile & _); [done| |].
  { right. split; [done|]. by exists [107], (mkStat 384 2). }
  by exists w'.
Defined.

Lemma copy_file_missing_source_witness :
  (ensure_parent [ustr "repo"; ustr "keep.md"] example_world
   = (Ok tt, example_world)
   ∧ lookup_path [ustr "kit"; ustr "nope"] example_world = None)
  ∧ ∃ e,
      copy_file [ustr "kit"; ustr "nope"] [ustr "repo"; ustr "keep.md"]
        true true ∅ example_world = (Raise e, example_world).
Proof.
  assert (H1 : ensure_parent [ustr "repo"; ustr "keep.md"] example_world
               = (Ok tt, example_world)) by (by vm_compute).
  assert (H2 : lookup_path [ustr "kit"; ustr "nope"] example_world = None)
    by reflexivity.
  split; [done|].
  destruct (copy_file_missing_source [ustr "kit"; ustr "nope"]
              [ustr "repo"; ustr "keep.md"] true true ∅ example_world
              example_world H1 H2 (or_intror eq_refl))
    as (e & Hrun & _).
  by exists e.
Defined.

(** ** [merge_gitignore] called on a snippet that cannot be read *)

(** X13.  Once the directory of the destination has been made ([w1]), a snippet
    that is not there makes [merge_gitignore] fail with the error of opening
    it, and a snippet that is not valid UTF-8 with [UnicodeDecodeError]:
    there is no fallback, and the destination is not touched. *)
Theorem merge_gitignore_bad_snippet src dst force w w1 :
  ensure_parent dst w = (Ok tt, w1) →
  (lookup_path src w1 = None →
   ∃ e, merge_gitignore src dst force w = (Raise e, w1)
        ∧ (e = FileNotFoundError (NoSuchFile src)
           ∨ e = NotADirectoryError src))
  ∧ (∀ sb sst, file_at src w1 sb sst → utf8_decode sb = None →
     merge_gitignore src dst force w = (Raise UnicodeDecodeError, w1)).
Proof.
  intros Hpar. unfold merge_gitignore. rewrite (bind_Ok _ _ _ _ _ Hpar).
  split.
  - intros Hsrc. destruct (read_text_missing src w1 Hsrc) as (e & Et & He).
    exists e. split; [|done]. by rewrite (bind_Raise _ _ _ _ _ Et).
  - intros sb sst Hsrc Hdec.
    by rewrite (bind_Raise _ _ _ _ _ (read_text_undecodable _ _ _ _ Hsrc Hdec)).
Qed.

Lemma merge_gitignore_bad_snippet_witness :
  ensure_parent example_gitignore example_world = (Ok tt, example_world)
  ∧ merge_gitignore [ustr "kit"; ustr "logo.md"] example_gitignore true
      example_world
    = (Raise UnicodeDecodeError, example_world).
Proof.
  assert (H : ensure_parent example_gitignore example_world
              = (Ok tt, example_world)) by (by vm_compute).
  split; [exact H|].
  exact (proj2 (merge_gitignore_bad_snippet [ustr "kit"; ustr "logo.md"]
                  example_gitignore true example_world example_world H)
           [255; 254] (mkStat 493 7) eq_refl eq_refl).
Defined.

(** ** [copy_tree] *)

Lemma scandir_run p w :
  scandir p w
  = (Ok (match lookup_path p w with
         | Some (Dir es) =>
             Some ((filter (λ kv : str * node,
                              match kv.2 with Dir _ => true | File _ _ => false end
                              = true) (map_to_list es)).*1,
                   (filter (λ kv : str * node,
                              match kv.2 with Dir _ => true | File _ _ => false end
                              = false) (map_to_list es)).*1)
         | _ => None
         end), w).
Proof. done. Qed.

(** X14.  Asked to copy a path that holds a regular file, [copy_tree] returns
    without an error and without having done anything. *)
Theorem copy_tree_regular_file str_lower fuel src_dir dst_dir force render_exts
    variables w d st :
  file_at src_dir w d st →
  copy_tree str_lower (S fuel) src_dir dst_dir force render_exts variables w
  = (Ok tt, w).
Proof.
  intros H. unfold copy_tree.
  rewrite (bind_Ok _ _ _ _ _ (path_exists_Some _ _ _ H)). cbn [negb].
  cbn [copy_tree_walk]. rewrite !app_nil_r.
  rewrite (bind_Ok _ _ _ _ _ (scandir_run _ _)).
  unfold file_at in H. by rewrite H.
Qed.

Lemma copy_tree_regular_file_witness :
  file_at example_snippet example_world [120; 10; 121; 10; 10; 120; 10]
    (mkStat 420 5)
  ∧ copy_tree (λ s, s) 1 example_snippet [ustr "repo"; ustr "out"] true [] ∅
      example_world
    = (Ok tt, example_world).
Proof.
  assert (H : file_at example_snippet example_world
                [120; 10; 121; 10; 10; 120; 10] (mkStat 420 5))
    by reflexivity.
  split; [exact H|].
  exact (copy_tree_regular_file (λ s, s) 0 example_snippet
           [ustr "repo"; ustr "out"] true [] ∅ example_world _ _ H).
Defined.

Lemma bind_ret_tt (m : M unit) w : (m ≫= λ _, mret tt) w = m w.
Proof. unfold mbind, M_bind. by destruct (m w) as [[[]| |] w1]. Qed.

Lemma filter_all {A} (P : A → Prop) `{∀ x, Decision (P x)} (l : list A) :
  Forall P l → filter P l = l.
Proof.
  induction 1 as [|x l Hx _ IH]; [done|].
  by rewrite filter_cons_True, IH.
Qed.

Lemma filter_none {A} (P : A → Prop) `{∀ x, Decision (P x)} (l : list A) :
  Forall (λ x, ¬ P x) l → filter P l = [].
Proof.
  induction 1 as [|x l Hx _ IH]; [done|].
  by rewrite filter_cons_False, IH.
Qed.

Lemma copy_tree_flat_run str_lower fuel src_dir dst_dir force render_exts
    variables w es :
  lookup_path src_dir w = Some (Dir es) →
  map_Forall (λ _ n, ∃ d st, n = File d st) es →
  copy_tree str_lower (S fuel) src_dir dst_dir force render_exts variables w
  = (mkdir_parents dst_dir;;
     for_eachM (sorted (map_to_list es).*1)
       (λ fn,
          render ← lift (is_renderable str_lower (src_dir ++ [fn]) render_exts);
          copy_file (src_dir ++ [fn]) (dst_dir ++ [fn]) force render
            variables)) w.
Proof.
  intros Hdir Hfiles. unfold copy_tree.
  rewrite (bind_Ok _ _ _ _ _ (path_exists_Some _ _ _ Hdir)). cbn [negb].
  cbn [copy_tree_walk]. rewrite !app_nil_r.
  rewrite (bind_Ok _ _ _ _ _ (scandir_run _ _)), Hdir.
  assert (Hall : Forall (λ kv : str * node, ∃ d st, kv.2 = File d st)
                   (map_to_list es)).
  { apply Forall_forall. intros [k n] Hkn.
    apply elem_of_map_to_list in Hkn. by apply (Hfiles k n). }
  rewrite filter_none, filter_all.
  2:{ eapply Forall_impl; [exact Hall|]. by intros [k n] (d & st & ->). }
  2:{ eapply Forall_impl; [exact Hall|]. by intros [k n] (d & st & ->). }
  change (sorted ([] : list (str * node)).*1) with (@nil str).
  cbn [for_eachM]. apply bind_ext. intros [] w1 _. apply bind_ret_tt.
Qed.

(** X15.  A source directory that holds regular files only: [copy_tree] makes the
    destination directory, then runs [copy_file] on the files, by name in
    ascending order, each to the same name in the destination and rendered
    when its own suffix asks for it; nothing else. *)
Theorem copy_tree_flat str_lower fuel src_dir dst_dir force render_exts
    variables w es :
  lookup_path src_dir w = Some (Dir es) →
  map_Forall (λ _ n, ∃ d st, n = File d st) es →
  copy_tree str_lower (S fuel) src_dir dst_dir force render_exts variables w
  = (mkdir_parents dst_dir;;
     for_eachM (sorted (map_to_list es).*1)
       (λ fn,
          render ← lift (is_renderable str_lower (src_dir ++ [fn]) render_exts);
          copy_file (src_dir ++ [fn]) (dst_dir ++ [fn]) force render
            variables)) w.
Proof. apply copy_tree_flat_run. Qed.

Lemma copy_tree_flat_witness :
  (lookup_path [ustr "kit"] example_world
   = Some (Dir {[ ustr "gi" := File [120; 10; 121; 10; 10; 120; 10] (mkStat 420 5);
                  ustr "logo.md" := File [255; 254] (mkStat 493 7) ]})
   ∧ map_Forall (λ _ n, ∃ d st, n = File d st)
       ({[ ustr "gi" := File [120; 10; 121; 10; 10; 120; 10] (mkStat 420 5);
           ustr "logo.md" := File [255; 254] (mkStat 493 7) ]}
        : gmap str node))
  ∧ ∃ w',
      copy_tree (λ s, s) 1 [ustr "kit"] [ustr "repo"; ustr "out"] false [] ∅
        example_world = (Ok tt, w')
      ∧ stdout w' = [LCopy [ustr "repo"; ustr "out"; ustr "gi"];
                     LCopy [ustr "repo"; ustr "out"; ustr "logo.md"]].
Proof.
  assert (H1 : lookup_path [ustr "kit"] example_world
               = Some (Dir {[ ustr "gi" := File [120; 10; 121; 10; 10; 120; 10]
                                             (mkStat 420 5);
                              ustr "logo.md" := File [255; 254] (mkStat 493 7) ]}))
    by reflexivity.
  assert (H2 : map_Forall (λ _ n, ∃ d st, n = File d st)
                 ({[ ustr "gi" := File [120; 10; 121; 10; 10; 120; 10]
                                    (mkStat 420 5);
                     ustr "logo.md" := File [255; 254] (mkStat 493 7) ]}
                  : gmap str node)).
  { apply map_Forall_insert_2; [by eauto|].
    apply map_Forall_insert_2; [by eauto|]. apply map_Forall_empty. }
  split; [done|].
  rewrite (copy_tree_flat (λ s, s) 0 [ustr "kit"] [ustr "repo"; ustr "out"]
             false [] ∅ example_world _ H1 H2).
  eexists. split; by vm_compute.
Defined.

(** ** [apply_plan] *)

(** X17.  A plan in two parts runs as the first part followed, when that one
    returns, by the second from the world it left; when the first part
    fails, the run ends with its error and with what it had done, and the
    second part is not started. *)
Theorem apply_plan_app str_lower fuel force render_exts variables a b w :
  apply_plan str_lower fuel (a ++ b) force render_exts variables w
  = match apply_plan str_lower fuel a force render_exts variables w with
    | (Ok _, w1) => apply_plan str_lower fuel b force render_exts variables w1
    | r => r
    end.
Proof.
  unfold apply_plan. revert w. induction a as [|x a IH]; intros w; [done|].
  cbn [app for_eachM]. unfold mbind at 1 2, M_bind at 1 2.
  destruct (apply_item _ _ _ _ _ x w) as [[[]| |] w1]; [apply IH|done..].
Qed.

(** ** The errors [apply_plan] can end with *)

Section Raises.
Context (Q : exn → Prop).

Lemma raises_only_bind {A B} (m : M A) (f : A → M B) :
  raises_only Q m → (∀ a, raises_only Q (f a)) → raises_only Q (m ≫= f).
Proof.
  intros Hm Hf w e w'. unfold mbind, M_bind.
  destruct (m w) as [[a|e1|] w1] eqn:E.
  - apply Hf.
  - intros [= <- <-]. by eapply Hm.
  - done.
Qed.

Lemma raises_only_ret {A} (a : A) : raises_only Q (mret a).
Proof. by intros w e w'. Qed.

Lemma raises_only_print l : raises_only Q (print l).
Proof. by intros w e w'. Qed.

Lemma raises_only_raise {A} e : Q e → raises_only Q (@raise A e).
Proof. intros He w e' w'. by intros [= <- <-]. Qed.

Lemma raises_only_lift {A} (x : result A) :
  (∀ e, x = Raise e → Q e) → raises_only Q (lift x).
Proof. intros H w e w'. unfold lift. intros [= -> <-]. by apply H. Qed.

Lemma raises_only_try {A} (body handler : M A) :
  raises_only Q body → raises_only Q handler →
  raises_only Q (try_except_UnicodeDecodeError body handler).
Proof.
  intros Hb Hh w e w'. unfold try_except_UnicodeDecodeError.
  destruct (body w) as [[a|e1|] w1] eqn:E; try done.
  - destruct e1; try (intros [= <- <-]; by eapply Hb). apply Hh.
Qed.

Lemma raises_only_for_eachM {A} (l : list A) (body : A → M unit) :
  (∀ x, raises_only Q (body x)) → raises_only Q (for_eachM l body).
Proof.
  intros Hb. induction l as [|x l IH]; cbn [for_eachM].
  - apply raises_only_ret.
  - apply raises_only_bind; [apply Hb|]. by intros _.
Qed.

Lemma raises_only_update_root f :
  (∀ es e, f es = Raise e → Q e) → raises_only Q (update_root f).
Proof.
  intros Hf w e w'. unfold update_root.
  destruct (f (root w)) as [es|e1|] eqn:E; try done.
  intros [= <- <-]. by eapply Hf.
Qed.

End Raises.

Lemma mkdirs_raises full p es e :
  mkdirs full p es = Raise e → not_about_dir e.
Proof.
  revert es. induction p as [|c p IH]; intros es; [done|]. cbn [mkdirs].
  destruct (es !! c) as [[d st|es1]|].
  - intros [= <-]. by destruct p.
  - destruct (mkdirs full p es1) as [es2|e1|] eqn:E; try done.
    intros [= <-]. by eapply IH.
  - destruct (mkdirs full p ∅) as [es2|e1|] eqn:E; try done.
    intros [= <-]. by eapply IH.
Qed.

Lemma alter_in_raises full c p f es e :
  (∀ o e, f o = Raise e → not_about_dir e) →
  alter_in full c p f es = Raise e → not_about_dir e.
Proof.
  intros Hf. revert c es. induction p as [|c' p IH]; intros c es;
    cbn [alter_in].
  - destruct (f (es !! c)) as [n|e1|] eqn:E; try done.
    intros [= <-]. by eapply Hf.
  - destruct (es !! c) as [[d st|es1]|]; try by intros [= <-].
    destruct (alter_in full c' p f es1) as [es2|e1|] eqn:E; try done.
    intros [= <-]. by eapply IH.
Qed.

Lemma fs_alter_raises p f es e :
  (∀ o e, f o = Raise e → not_about_dir e) →
  fs_alter p f es = Raise e → not_about_dir e.
Proof.
  intros Hf. destruct p as [|c p]; cbn [fs_alter].
  - destruct (f (Some (Dir es))) as [n|e1|] eqn:E; try done.
    intros [= <-]. by eapply Hf.
  - by apply alter_in_raises.
Qed.

Lemma fs_read_raises full p n e :
  fs_read full p n = Raise e → not_about_dir e.
Proof.
  revert n. induction p as [|c p IH]; intros [d st|es]; cbn [fs_read];
    try by intros [= <-].
  destruct (es !! c) as [n1|]; [apply IH|by intros [= <-]].
Qed.

Local Ltac raises_step :=
  first
    [ apply raises_only_bind; [|intros ?]
    | apply raises_only_ret
    | apply raises_only_print
    | apply raises_only_raise; exact I ].

Lemma ensure_parent_raises p : raises_only not_about_dir (ensure_parent p).
Proof. apply raises_only_update_root. intros es e. apply mkdirs_raises. Qed.

Lemma mkdir_parents_raises p : raises_only not_about_dir (mkdir_parents p).
Proof. apply raises_only_update_root. intros es e. apply mkdirs_raises. Qed.

Lemma path_exists_raises p : raises_only not_about_dir (path_exists p).
Proof. by intros w e w'. Qed.

Lemma is_dir_raises p : raises_only not_about_dir (is_dir p).
Proof. by intros w e w'. Qed.

Lemma scandir_raises p : raises_only not_about_dir (scandir p).
Proof. by intros w e w'. Qed.

Lemma read_bytes_raises p : raises_only not_about_dir (read_bytes p).
Proof.
  intros w e w'. unfold read_bytes.
  destruct (fs_read p p (Dir (root w))) as [x|e1|] eqn:E; try done.
  intros [= <- <-]. by eapply fs_read_raises.
Qed.

Lemma read_text_raises p : raises_only not_about_dir (read_text p).
Proof.
  unfold read_text. apply raises_only_bind; [apply read_bytes_raises|].
  intros bs. destruct (utf8_decode bs); raises_step.
Qed.

Lemma open_trunc_raises p : raises_only not_about_dir (open_trunc p).
Proof.
  intros w. unfold open_trunc. apply raises_only_update_root.
  intros es e. apply fs_alter_raises.
  intros [[]|] e1; try done. by intros [= <-].
Qed.

Lemma open_append_raises p : raises_only not_about_dir (open_append p).
Proof.
  intros w. unfold open_append. apply raises_only_update_root.
  intros es e. apply fs_alter_raises.
  intros [[]|] e1; try done. by intros [= <-].
Qed.

Lemma write_bytes_raises p bs : raises_only not_about_dir (write_bytes p bs).
Proof.
  intros w. unfold write_bytes. apply raises_only_update_root.
  intros es e. apply fs_alter_raises.
  intros [[]|] e1; try done; by intros [= <-].
Qed.

Lemma write_str_raises p s : raises_only not_about_dir (write_str p s).
Proof.
  unfold write_str. destruct (utf8_encode s);
    [apply write_bytes_raises|raises_step].
Qed.

Lemma write_text_raises p s : raises_only not_about_dir (write_text p s).
Proof.
  unfold write_text. apply raises_only_bind; [apply open_trunc_raises|].
  intros _. apply write_str_raises.
Qed.

Lemma copystat_raises src dst : raises_only not_about_dir (copystat src dst).
Proof.
  intros w. unfold copystat.
  destruct (lookup_path src w) as [[d st|es]|].
  - apply raises_only_update_root. intros es e. apply fs_alter_raises.
    intros [[]|] e1; try done. by intros [= <-].
  - apply raises_only_update_root. intros es0 e. apply fs_alter_raises.
    intros [n|] e1; try done. by intros [= <-].
  - intros e w'. by intros [= <- <-].
Qed.

Lemma copy2_raises src dst : raises_only not_about_dir (copy2 src dst).
Proof.
  unfold copy2. apply raises_only_bind; [apply is_dir_raises|]. intros d.
  cbv zeta. apply raises_only_bind; [apply path_exists_raises|]. intros e.
  destruct (_ && _); [raises_step|].
  apply raises_only_bind; [apply read_bytes_raises|]. intros bs.
  apply raises_only_bind; [apply open_trunc_raises|]. intros _.
  apply raises_only_bind; [apply write_bytes_raises|]. intros _.
  apply copystat_raises.
Qed.

Lemma copy_file_raises src dst force render variables :
  raises_only not_about_dir (copy_file src dst force render variables).
Proof.
  unfold copy_file.
  apply raises_only_bind; [apply ensure_parent_raises|]. intros _.
  apply raises_only_bind; [apply path_exists_raises|]. intros e.
  destruct (_ && _); [raises_step|].
  apply raises_only_bind.
  - destruct render; [|raises_step].
    apply raises_only_try; [|raises_step].
    apply raises_only_bind; [apply read_text_raises|]. intros txt.
    apply raises_only_bind; [apply write_text_raises|]. intros _.
    apply raises_only_bind; [apply copystat_raises|]. intros _.
    repeat raises_step.
  - intros [|]; [raises_step|].
    apply raises_only_bind; [apply copy2_raises|]. intros _. raises_step.
Qed.

Lemma merge_gitignore_raises src dst force :
  raises_only not_about_dir (merge_gitignore src dst force).
Proof.
  unfold merge_gitignore.
  apply raises_only_bind; [apply ensure_parent_raises|]. intros _.
  apply raises_only_bind; [apply read_text_raises|]. intros txt.
  apply raises_only_bind; [apply path_exists_raises|]. intros e.
  apply raises_only_bind.
  { destruct e; [|raises_step].
    apply raises_only_bind; [apply read_text_raises|]. intros ?. raises_step. }
  intros existing. cbv zeta.
  destruct (to_add _ _); [raises_step|].
  apply raises_only_bind; [apply open_append_raises|]. intros _.
  apply raises_only_bind.
  { destruct (needs_newline existing); [apply write_str_raises|raises_step]. }
  intros _. apply raises_only_bind; [apply write_str_raises|]. intros _.
  raises_step.
Qed.

Section Walk.
Context (str_lower : str → str).

Lemma is_renderable_raises p render_exts e :
  is_renderable str_lower p render_exts = Raise e → not_about_dir e.
Proof.
  rewrite is_renderable_set. destruct (ext_strings render_exts); [done|].
  by intros [= <-].
Qed.

Lemma copy_tree_walk_raises fuel src_dir dst_dir rel force render_exts
    variables :
  raises_only not_about_dir
    (copy_tree_walk str_lower fuel src_dir dst_dir rel force render_exts
       variables).
Proof.
  revert rel. induction fuel as [|fuel IH]; intros rel; cbn [copy_tree_walk].
  { by intros w e w'. }
  apply raises_only_bind; [apply scandir_raises|].
  intros [[dirs files]|]; [|raises_step].
  apply raises_only_bind; [apply mkdir_parents_raises|]. intros _.
  apply raises_only_bind.
  - apply raises_only_for_eachM. intros fn.
    apply raises_only_bind.
    + apply raises_only_lift. intros e. apply is_renderable_raises.
    + intros render. apply copy_file_raises.
  - intros _. apply raises_only_for_eachM. intros dn. apply IH.
Qed.

Lemma apply_item_raises fuel force render_exts variables item :
  raises_only not_about_dir
    (apply_item str_lower fuel force render_exts variables item).
Proof.
  intros w. unfold apply_item.
  destruct (bool_decide (mode item = ustr "merge_gitignore")).
  - rewrite (bind_Ok _ _ _ _ _ (path_exists_run _ _)).
    destruct (negb _); [|apply merge_gitignore_raises].
    unfold missing. destruct (optional item); [done|].
    by intros e w' [= <- <-].
  - rewrite (bind_Ok _ _ _ _ _ (is_dir_run _ _)).
    destruct (lookup_path (src item) w) as [[d st|es]|] eqn:El.
    + rewrite (bind_Ok _ _ _ _ _ (path_exists_Some _ _ _ El)). cbn [negb].
      apply raises_only_bind.
      * apply raises_only_lift. intros e. apply is_renderable_raises.
      * intros render. apply copy_file_raises.
    + rewrite (bind_Ok _ _ _ _ _ (path_exists_Some _ _ _ El)). cbn [negb].
      unfold copy_tree.
      rewrite (bind_Ok _ _ _ _ _ (path_exists_Some _ _ _ El)). cbn [negb].
      apply copy_tree_walk_raises.
    + rewrite (bind_Ok _ _ _ _ _ (path_exists_None _ _ El)). cbn [negb].
      unfold missing. destruct (optional item); [done|].
      by intros e w' [= <- <-].
Qed.

(** X18.  Whatever the plan and the tree, a run of [apply_plan] that ends with an
    error ends with one that is neither "missing dir" nor "source dir not
    found": the tests that lead to these two are never passed. *)
Theorem apply_plan_not_about_dir fuel force render_exts variables items w e w' :
  apply_plan str_lower fuel items force render_exts variables w = (Raise e, w') →
  ∀ p, e ≠ FileNotFoundError (MissingDir p)
       ∧ e ≠ FileNotFoundError (SourceDirNotFound p).
Proof.
  intros H p.
  assert (Hq : not_about_dir e).
  { revert H. apply raises_only_for_eachM. intros item.
    apply apply_item_raises. }
  split; intros ->; exact Hq.
Qed.

End Walk.

Lemma apply_plan_not_about_dir_witness :
  apply_plan (λ s, s) 8
    [mkCopyItem [ustr "kit"; ustr "nope"] [ustr "repo"; ustr "nope"]
       (ustr "copy") false]
    false [] ∅ example_world
  = (Raise (FileNotFoundError (MissingFile [ustr "kit"; ustr "nope"])),
     example_world)
  ∧ FileNotFoundError (MissingFile [ustr "kit"; ustr "nope"])
    ≠ FileNotFoundError (MissingDir [ustr "kit"; ustr "nope"]).
Proof.
  assert (H : apply_plan (λ s, s) 8
                [mkCopyItem [ustr "kit"; ustr "nope"] [ustr "repo"; ustr "nope"]
                   (ustr "copy") false]
                false [] ∅ example_world
              = (Raise (FileNotFoundError (MissingFile [ustr "kit"; ustr "nope"])),
                 example_world)) by reflexivity.
  split; [exact H|].
  exact (proj1 (apply_plan_not_about_dir (λ s, s) 8 false [] ∅ _ _ _ _ H
                  [ustr "kit"; ustr "nope"])).
Defined.

(** ** What a change of one node leaves to be seen elsewhere *)

Lemma alter_in_view full c p f es es' q :
  keeps_dirs f →
  alter_in full c p f es = Ok es' → q ≠ c :: p →
  node_view (fs_lookup q (Dir es')) = node_view (fs_lookup q (Dir es)).
Proof.
  intros Hf. revert c es es' q. induction p as [|c' p IH]; intros c es es' q.
  - cbn [alter_in].
    destruct (f (es !! c)) as [n| |] eqn:Ef; [|done..].
    intros [= <-] Hq. destruct q as [|k q]; [done|].
    rewrite !fs_lookup_cons. destruct (decide (c = k)) as [->|Hk].
    + rewrite lookup_insert_eq. simpl.
      assert (q ≠ []) by (intros ->; done).
      specialize (Hf _ _ Ef).
      destruct (es !! k) as [[d0 st0|e]|]; simpl.
      * destruct Hf as (d1 & st1 & ->). by destruct q.
      * by subst.
      * destruct Hf as (d1 & st1 & ->). by destruct q.
    + by rewrite lookup_insert_ne.
  - cbn [alter_in]. destruct (es !! c) as [[d0 st0|es1]|] eqn:Ec; [done| |done].
    destruct (alter_in full c' p f es1) as [es1'| |] eqn:E1; [|done..].
    intros [= <-] Hq. destruct q as [|k q]; [done|].
    rewrite !fs_lookup_cons. destruct (decide (c = k)) as [->|Hk].
    + rewrite lookup_insert_eq, Ec. simpl. apply (IH _ _ _ _ E1). congruence.
    + by rewrite lookup_insert_ne.
Qed.

Lemma update_alter_view p f w w' :
  keeps_dirs f →
  update_root (fs_alter p f) w = (Ok tt, w') →
  same_view (λ q, q ≠ p) w w' ∧ stdout w' = stdout w.
Proof.
  intros Hf. unfold update_root.
  destruct (fs_alter p f (root w)) as [es'| |] eqn:E; [|done..].
  intros [= <-]. split; [|done]. intros q Hq. unfold lookup_path. cbn.
  destruct p as [|c p]; cbn [fs_alter] in E.
  - destruct (f (Some (Dir (root w)))); [|done..]. by injection E as <-.
  - by apply (alter_in_view (c :: p) c p f).
Qed.

Lemma same_view_trans K w w1 w2 :
  same_view K w w1 → same_view K w1 w2 → same_view K w w2.
Proof. intros H1 H2 q Hq. by rewrite (H2 q Hq), (H1 q Hq). Qed.

Lemma same_view_refl K w : same_view K w w.
Proof. by intros q _. Qed.

Lemma same_view_log K l w w' : same_view K w w' → same_view K w (log l w').
Proof. done. Qed.

Lemma same_view_weaken (K K' : path → Prop) w w' :
  (∀ q, K' q → K q) → same_view K w w' → same_view K' w w'.
Proof. intros HK H q Hq. apply H. by apply HK. Qed.

Lemma node_view_file o d st :
  node_view o = Some (Some (d, st)) ↔ o = Some (File d st).
Proof. destruct o as [[]|]; cbn; split; congruence. Qed.

Lemma node_view_none o : node_view o = None ↔ o = None.
Proof. by destruct o as [[]|]. Qed.

Lemma node_view_dir o : node_view o = Some None ↔ ∃ e, o = Some (Dir e).
Proof.
  destruct o as [[]|]; cbn; split; try done; try (by intros [? ?]); eauto.
Qed.

Lemma same_view_file K w w' q d st :
  same_view K w w' → K q → file_at q w' d st ↔ file_at q w d st.
Proof.
  intros H Hq. unfold file_at.
  by rewrite <- !node_view_file, (H q Hq).
Qed.

Lemma same_view_dir K w w' q e :
  same_view K w w' → K q → lookup_path q w = Some (Dir e) →
  ∃ e', lookup_path q w' = Some (Dir e').
Proof.
  intros H Hq Hd. apply node_view_dir. rewrite (H q Hq).
  apply node_view_dir. eauto.
Qed.

Lemma same_view_writable K force w w' q :
  same_view K w w' → K q → writable force q w → writable force q w'.
Proof.
  intros H Hq [Hn|[Hf (d & st & Hd)]].
  - left. apply node_view_none. rewrite (H q Hq). by apply node_view_none.
  - right. split; [done|]. exists d, st. by apply (same_view_file K w w').
Qed.

Lemma open_trunc_view p w w' :
  open_trunc p w = (Ok tt, w') →
  same_view (λ q, q ≠ p) w w' ∧ stdout w' = stdout w.
Proof.
  unfold open_trunc. apply update_alter_view.
  intros [[]|] n; simpl; intros [= <-]; eauto.
Qed.

Lemma write_bytes_view p bs w w' :
  write_bytes p bs w = (Ok tt, w') →
  same_view (λ q, q ≠ p) w w' ∧ stdout w' = stdout w.
Proof.
  unfold write_bytes. apply update_alter_view.
  intros [[]|] n; simpl; intros [= <-]; eauto.
Qed.

Lemma write_str_view p s w w' :
  write_str p s w = (Ok tt, w') →
  same_view (λ q, q ≠ p) w w' ∧ stdout w' = stdout w.
Proof.
  unfold write_str. destruct (utf8_encode s); [apply write_bytes_view|done].
Qed.

Lemma write_text_view p s w w' :
  write_text p s w = (Ok tt, w') →
  same_view (λ q, q ≠ p) w w' ∧ stdout w' = stdout w.
Proof.
  unfold write_text. intros H.
  apply bind_inv in H as ([] & w1 & H1 & H2).
  apply open_trunc_view in H1 as [V1 O1].
  apply write_str_view in H2 as [V2 O2].
  split; [by eapply same_view_trans|congruence].
Qed.

Lemma copystat_view src dst w w' :
  copystat src dst w = (Ok tt, w') →
  same_view (λ q, q ≠ dst) w w' ∧ stdout w' = stdout w.
Proof.
  unfold copystat. destruct (lookup_path src w) as [[d st|es]|]; [| |done].
  - apply update_alter_view. intros [[]|] n; simpl; intros [= <-]; eauto.
  - apply update_alter_view. intros [[]|] n; simpl; intros [= <-]; eauto.
Qed.

Lemma read_bytes_world p w r w' : read_bytes p w = (r, w') → w' = w.
Proof. unfold read_bytes. by intros [= _ <-]. Qed.

Lemma copy2_view src dst w w' :
  (lookup_path dst w = None ∨ ∃ d st, file_at dst w d st) →
  copy2 src dst w = (Ok tt, w') →
  same_view (λ q, q ≠ dst) w w' ∧ stdout w' = stdout w.
Proof.
  intros Hdst. unfold copy2.
  rewrite (bind_Ok _ _ _ _ _ (is_dir_nondir _ _ Hdst)). cbv zeta iota.
  rewrite (bind_Ok _ _ _ _ _ (path_exists_run _ _)).
  destruct (_ && _); [done|]. intros H.
  apply bind_inv in H as (bs & w1 & H1 & H).
  apply read_bytes_world in H1 as ->.
  apply bind_inv in H as ([] & w2 & H2 & H).
  apply bind_inv in H as ([] & w3 & H3 & H4).
  apply open_trunc_view in H2 as [V2 O2].
  apply write_bytes_view in H3 as [V3 O3].
  apply copystat_view in H4 as [V4 O4].
  split; [|congruence].
  eapply same_view_trans; [|exact V4]. by eapply same_view_trans.
Qed.

(** ** [copy_file] and [copy_tree] with what they leave elsewhere *)

Lemma copy_file_run src dst force render variables w w1 sb sst :
  ensure_parent dst w = (Ok tt, w1) →
  file_at src w1 sb sst → valid_values variables → src ≠ dst →
  writable force dst w1 →
  ∃ w' out,
    copy_file src dst force render variables w = (Ok tt, w')
    ∧ copy_output variables render sb = Some out
    ∧ file_at dst w' out sst
    ∧ same_view (λ q, q ≠ dst) w1 w'
    ∧ stdout w' = stdout w1 ++ [copy_line render sb dst].
Proof.
  intros Hpar Hsrc Hval Hneq Hdst.
  rewrite (copy_file_proceeds _ _ _ _ _ _ _ Hpar)
    by (destruct Hdst as [?|[? _]]; auto).
  assert (Hfree : lookup_path dst w1 = None ∨ ∃ d st, file_at dst w1 d st).
  { destruct Hdst as [?|[_ ?]]; eauto. }
  destruct (ensure_parent_dir _ _ _ Hpar) as (Hdir & _).
  unfold copy_output, copy_line.
  destruct render, (utf8_decode sb) as [txt|] eqn:Hdec.
  - (* rendered *)
    destruct (proj1 (utf8_encode_valid
                       (render_text (universal_newlines txt) variables)))
      as [out Hout].
    { apply render_text_valid; [|done]. apply universal_newlines_valid.
      by eapply utf8_decode_valid. }
    destruct (write_text_run dst _ out w1 Hdir Hfree Hout)
      as (w2 & st2 & E2 & T2).
    assert (F2 : file_at dst w2 out st2) by (by destruct T2).
    assert (S2 : file_at src w2 sb sst).
    { destruct T2 as (_ & Hfr & _). by apply Hfr. }
    destruct (copystat_run src dst w2 sb sst out st2 S2 F2) as (w3 & E3 & T3).
    destruct T3 as (F3 & _).
    apply write_text_view in E2 as HV2. destruct HV2 as [V2 O2].
    apply copystat_view in E3 as HV3. destruct HV3 as [V3 O3].
    exists (log (LRender dst) w3), out.
    assert (Hbody : (txt ← read_text src;
                     write_text dst (render_text txt variables);;
                     copystat src dst;;
                     print (LRender dst);;
                     mret true) w1 = (Ok true, log (LRender dst) w3)).
    { rewrite (bind_Ok _ _ _ _ _ (read_text_file _ _ _ _ _ Hsrc Hdec)).
      by rewrite (bind_Ok _ _ _ _ _ E2), (bind_Ok _ _ _ _ _ E3). }
    rewrite (bind_Ok _ _ _ _ _ (try_except_Ok _ (mret false) _ _ _ Hbody)).
    split_and!; [done|done|exact F3| |].
    + apply same_view_log. by eapply same_view_trans.
    + cbn [log stdout]. congruence.
  - (* not valid UTF-8: the raw copy *)
    rewrite (bind_Ok _ _ _ _ _
               (try_render_undecodable _ _ _ _ _ _ Hsrc Hdec)).
    destruct (copy2_run src dst w1 sb sst Hsrc Hneq Hdir Hfree)
      as (w' & Hcp & Hn & _).
    destruct (copy2_view _ _ _ _ Hfree Hcp) as [V O].
    rewrite (bind_Ok _ _ _ _ _ Hcp).
    exists (log (LCopy dst) w'), sb. split_and!; try done.
    cbn [log stdout]. congruence.
  - rewrite (bind_Ok _ _ w1 false w1 eq_refl).
    destruct (copy2_run src dst w1 sb sst Hsrc Hneq Hdir Hfree)
      as (w' & Hcp & Hn & _).
    destruct (copy2_view _ _ _ _ Hfree Hcp) as [V O].
    rewrite (bind_Ok _ _ _ _ _ Hcp).
    exists (log (LCopy dst) w'), sb. split_and!; try done.
    cbn [log stdout]. congruence.
  - rewrite (bind_Ok _ _ w1 false w1 eq_refl).
    destruct (copy2_run src dst w1 sb sst Hsrc Hneq Hdir Hfree)
      as (w' & Hcp & Hn & _).
    destruct (copy2_view _ _ _ _ Hfree Hcp) as [V O].
    rewrite (bind_Ok _ _ _ _ _ Hcp).
    exists (log (LCopy dst) w'), sb. split_and!; try done.
    cbn [log stdout]. congruence.
Qed.

Lemma snoc_ne_self {A} (l : list A) x : l ≠ l ++ [x].
Proof.
  intros E. apply (f_equal length) in E. rewrite length_app in E.
  simpl in E. lia.
Qed.

Lemma path_parent_snoc (p : path) c : path_parent (p ++ [c]) = p.
Proof. apply removelast_last. Qed.

Lemma fs_lookup_snoc p c n es :
  fs_lookup p n = Some (Dir es) → fs_lookup (p ++ [c]) n = es !! c.
Proof.
  revert n. induction p as [|k p IH]; intros n.
  - intros [= ->]. cbn. by destruct (es !! c).
  - destruct n as [d st|e]; [done|]. cbn [app]. rewrite !fs_lookup_cons.
    destruct (e !! k) as [n1|]; [|done]. cbn. apply IH.
Qed.

Section Flat.
Context (str_lower : str → str).

(** The loop of [copy_tree] over the files of one directory. *)
Lemma copy_files_loop (src dst : path) (force : bool)
    (render_exts : list yaml) (exts : list str)
    (variables : gmap str str) (es : gmap str node) (names : list str)
    (w1 : world) :
  ext_strings render_exts = Some exts → valid_values variables → src ≠ dst →
  NoDup names →
  (∃ e, lookup_path dst w1 = Some (Dir e)) →
  (∀ fn n, es !! fn = Some n →
     ∃ sb sst, n = File sb sst ∧ file_at (src ++ [fn]) w1 sb sst) →
  (∀ fn, fn ∈ names → is_Some (es !! fn) ∧ writable force (dst ++ [fn]) w1) →
  ∃ w',
    for_eachM names
      (λ fn,
         render ← lift (is_renderable str_lower (src ++ [fn]) render_exts);
         copy_file (src ++ [fn]) (dst ++ [fn]) force render variables) w1
    = (Ok tt, w')
    ∧ (∀ fn sb sst, fn ∈ names → es !! fn = Some (File sb sst) →
         ∃ out,
           copy_output variables (renders str_lower exts (src ++ [fn])) sb
           = Some out
           ∧ file_at (dst ++ [fn]) w' out sst)
    ∧ same_view (λ q, ∀ fn, fn ∈ names → q ≠ dst ++ [fn]) w1 w'.
Proof.
  intros Hext Hval Hneq Hnd. revert w1.
  induction Hnd as [|fn names Hfn Hnd IH]; intros w1 [e Hdir] Hsrc Hnames.
  { exists w1. split_and!; [done| |apply same_view_refl].
    intros fn sb sst Hin. by apply not_elem_of_nil in Hin. }
  destruct (Hnames fn ltac:(left)) as [[n Hn] Hw].
  destruct (Hsrc fn n Hn) as (sb & sst & -> & Hfile).
  assert (Hpar : ensure_parent (dst ++ [fn]) w1 = (Ok tt, w1)).
  { apply (ensure_parent_again _ _ e). by rewrite path_parent_snoc. }
  assert (Hne : src ++ [fn] ≠ dst ++ [fn]).
  { intros E. by apply app_inj_tail in E as [? _]. }
  destruct (copy_file_run (src ++ [fn]) (dst ++ [fn]) force
              (renders str_lower exts (src ++ [fn])) variables w1 w1 sb sst
              Hpar Hfile Hval Hne Hw)
    as (w2 & out & Hrun & Hout & Hdst & Hview & _).
  destruct (IH w2) as (w' & Hloop & Hfiles & Hview').
  - apply (same_view_dir _ _ _ _ e Hview); [apply snoc_ne_self|done].
  - intros fn' n' Hn'. destruct (Hsrc fn' n' Hn') as (sb' & sst' & -> & Hf').
    exists sb', sst'. split; [done|].
    apply (same_view_file _ _ _ _ _ _ Hview); [|done].
    intros E. by apply app_inj_tail in E as [? _].
  - intros fn' Hin'. destruct (Hnames fn' ltac:(by right)) as [Hsome Hw'].
    split; [done|].
    apply (same_view_writable _ _ _ _ _ Hview); [|done].
    intros E. apply app_inv_head in E. injection E as ->. done.
  - exists w'. split_and!.
    + cbn [for_eachM].
      assert (Hbody : (render ← lift (is_renderable str_lower (src ++ [fn])
                                        render_exts);
                       copy_file (src ++ [fn]) (dst ++ [fn]) force render
                         variables) w1 = (Ok tt, w2)).
      { unfold lift. rewrite is_renderable_set, Hext.
        rewrite (bind_Ok _ _ w1 _ w1 eq_refl). exact Hrun. }
      by rewrite (bind_Ok _ _ _ _ _ Hbody).
    + intros fn' sb' sst' Hin' Hes'.
      apply elem_of_cons in Hin' as [->|Hin'].
      * rewrite Hn in Hes'. injection Hes' as <- <-.
        exists out. split; [done|].
        apply (same_view_file _ _ _ _ _ _ Hview'); [|done].
        intros fn' Hin' E. apply app_inv_head in E. injection E as ->. done.
      * by apply Hfiles.
    + eapply same_view_trans.
      * eapply same_view_weaken; [|exact Hview].
        intros q Hq. apply Hq. by left.
      * eapply same_view_weaken; [|exact Hview'].
        intros q Hq fn' Hin'. apply Hq. by right.
Qed.

(** X16.  A source directory that holds regular files only, copied to another
    path whose directory can be made ([w1] is the world after that), with
    extensions that are strings and values that can be encoded, every
    destination name being free, or holding a regular file with the
    overwrite flag on: [copy_tree] returns; for every file of the source
    the destination holds, under the same name, the output of [copy_file]
    (the rendered text when the suffix asks for it and the bytes are valid
    UTF-8, the bytes otherwise) with the metadata of the source; and every
    other path shows what it showed. *)
Theorem copy_tree_flat_copies (fuel : nat) (src dst : path) (force : bool)
    (render_exts : list yaml) (exts : list str) (variables : gmap str str)
    (w w1 : world)
    (es : gmap str node) :
  lookup_path src w = Some (Dir es) →
  map_Forall (λ _ n, ∃ d st, n = File d st) es →
  mkdir_parents dst w = (Ok tt, w1) →
  ext_strings render_exts = Some exts → valid_values variables → src ≠ dst →
  (∀ fn, is_Some (es !! fn) → writable force (dst ++ [fn]) w1) →
  ∃ w',
    copy_tree str_lower (S fuel) src dst force render_exts variables w
    = (Ok tt, w')
    ∧ (∀ fn sb sst, es !! fn = Some (File sb sst) →
         ∃ out,
           copy_output variables (renders str_lower exts (src ++ [fn])) sb
           = Some out
           ∧ file_at (dst ++ [fn]) w' out sst)
    ∧ same_view (λ q, ∀ fn, is_Some (es !! fn) → q ≠ dst ++ [fn]) w1 w'.
Proof.
  intros Hdir Hfiles Hmk Hext Hval Hneq Hw.
  rewrite (copy_tree_flat_run _ _ _ _ _ _ _ _ _ Hdir Hfiles).
  rewrite (bind_Ok _ _ _ _ _ Hmk).
  assert (Hnames : ∀ fn, fn ∈ sorted (map_to_list es).*1 ↔ is_Some (es !! fn)).
  { intros fn. rewrite sorted_Permutation, list_elem_of_fmap. split.
    - intros ([k n] & -> & H). apply elem_of_map_to_list in H. eauto.
    - intros [n H]. exists (fn, n). split; [done|].
      by apply elem_of_map_to_list. }
  assert (Hmk' : mkdirs dst dst (root w) = Ok (root w1)).
  { unfold mkdir_parents, update_root in Hmk.
    destruct (mkdirs dst dst (root w)) as [es'| |]; [|done..].
    by injection Hmk as <-. }
  destruct (copy_files_loop src dst force render_exts exts variables es
              (sorted (map_to_list es).*1) w1)
    as (w' & Hloop & Hout & Hview); try done.
  - rewrite sorted_Permutation. apply NoDup_fst_map_to_list.
  - by apply mkdirs_lookup in Hmk'.
  - intros fn n Hn. destruct (Hfiles fn n Hn) as (sb & sst & ->).
    exists sb, sst. split; [done|].
    unfold file_at, lookup_path.
    apply (mkdirs_frame _ _ _ _ (src ++ [fn]) sb sst Hmk').
    by rewrite (fs_lookup_snoc _ _ _ _ Hdir).
  - intros fn Hin. apply Hnames in Hin. by split; [|apply Hw].
  - exists w'. split_and!; [done| |].
    + intros fn sb sst Hes. apply Hout; [|done]. apply Hnames. by eexists.
    + eapply same_view_weaken; [|exact Hview].
      intros q Hq fn Hin. apply Hq. by apply Hnames.
Qed.

End Flat.

Lemma copy_tree_flat_copies_witness :
  ∃ w',
    copy_tree (λ s, s) 1 [ustr "kit"] [ustr "repo"; ustr "out"] false
      [YStr (ustr ".md")] ∅ example_world = (Ok tt, w')
    ∧ file_at [ustr "repo"; ustr "out"; ustr "logo.md"] w' [255; 254]
        (mkStat 493 7)
    ∧ file_at [ustr "repo"; ustr "keep.md"] w' [107] (mkStat 384 2).
Proof.
  assert (H1 : lookup_path [ustr "kit"] example_world
               = Some (Dir {[ ustr "gi" := File [120; 10; 121; 10; 10; 120; 10]
                                             (mkStat 420 5);
                              ustr "logo.md" := File [255; 254] (mkStat 493 7) ]}))
    by reflexivity.
  assert (H2 : map_Forall (λ _ n, ∃ d st, n = File d st)
                 ({[ ustr "gi" := File [120; 10; 121; 10; 10; 120; 10]
                                    (mkStat 420 5);
                     ustr "logo.md" := File [255; 254] (mkStat 493 7) ]}
                  : gmap str node)).
  { apply map_Forall_insert_2; [by eauto|].
    apply map_Forall_insert_2; [by eauto|]. apply map_Forall_empty. }
  assert (H3 : mkdir_parents [ustr "repo"; ustr "out"] example_world
               = (Ok tt,
                  (mkdir_parents [ustr "repo"; ustr "out"] example_world).2))
    by (by vm_compute).
  assert (H4 : valid_values ∅)
    by (intros k v Hk; by rewrite lookup_empty in Hk).
  destruct (copy_tree_flat_copies (λ s, s) 0 [ustr "kit"]
              [ustr "repo"; ustr "out"] false [YStr (ustr ".md")]
              [ustr ".md"] ∅ example_world _ _ H1 H2 H3 eq_refl H4)
    as (w' & Hrun & Hfiles & Hview); [done| |].
  { intros fn _. left. unfold lookup_path.
    rewrite (fs_lookup_snoc [ustr "repo"; ustr "out"] fn _ ∅);
      [apply lookup_empty|by vm_compute]. }
  exists w'. split_and!; [done| |].
  - destruct (Hfiles (ustr "logo.md") [255; 254] (mkStat 493 7) eq_refl)
      as (out & Hout & Hfile).
    vm_compute in Hout. by injection Hout as <-.
  - apply (same_view_file _ _ _ _ _ _ Hview); [|by vm_compute].
    intros fn _ E. by injection E.
Defined.

(** X12.  A regular file copied onto itself with the overwrite flag on and without
    rendering: [copy_file] fails with [SameFileError], and the file is as it
    was. *)
Theorem copy_file_onto_itself p variables w d st :
  file_at p w d st →
  copy_file p p true false variables w = (Raise (SameFileError p), w).
Proof.
  intros H.
  rewrite (copy_file_proceeds _ _ _ _ _ _ _ (ensure_parent_existing _ _ _ H))
    by (by right).
  rewrite (bind_Ok _ _ w false w eq_refl).
  apply bind_Raise. unfold copy2.
  rewrite (bind_Ok _ _ _ _ _ (is_dir_nondir _ _ (or_intror (ex_intro _ d
             (ex_intro _ st H))))).
  cbv zeta iota.
  rewrite (bind_Ok _ _ _ _ _ (path_exists_Some _ _ _ H)).
  by rewrite bool_decide_eq_true_2.
Qed.

Lemma copy_file_onto_itself_witness :
  file_at [ustr "repo"; ustr "keep.md"] example_world [107] (mkStat 384 2)
  ∧ copy_file [ustr "repo"; ustr "keep.md"] [ustr "repo"; ustr "keep.md"]
      true false ∅ example_world
    = (Raise (SameFileError [ustr "repo"; ustr "keep.md"]), example_world).
Proof.
  assert (H : file_at [ustr "repo"; ustr "keep.md"] example_world [107]
                (mkStat 384 2)) by reflexivity.
  split; [exact H|].
  exact (copy_file_onto_itself _ ∅ _ _ _ H).
Defined.
